(** * SyncText: registry, receive ring, change detection and LWW merge

    A shallow embedding of the core of the SyncText collaborative editor
    (registry.cpp, editor.cpp, crdt.cpp and their headers) together with
    the properties of its specification, each stated over the embedded
    code.

    Conventions of the embedding.
    - [std::string] is [string]; [size], [substr], [+], [==] and [<] are
      [String.length], [substring], [+:+], [String.eqb], [String.ltb].
    - [int] is [Z].  Signed overflow is undefined behaviour in C++, so the
      arithmetic on columns and offsets is the one of [Z]; every concrete
      input used below stays far from the 32-bit bounds.  The one
      exception is [overlaps], which adds a column taken from the wire to a
      length: there the sum is the 32-bit one the compiled code computes
      ([Int.wrap]).
    - [uint64_t] time stamps and [uint32_t] line numbers are [N]; the code
      only compares them or uses them as keys and indices.
    - [size_t] loop counters and indices are [nat].
    - vectors and fixed arrays are lists, read with [!!] and written with
      [<[i:=x]>]; every index the code uses is in range, and the models
      say what they do outside of it.
    - the atomics of the ring and the compare-and-swap of the registry are
      modelled by their sequential meaning: each call of [push], [pop] and
      [registry_register] is one atomic step. *)

From Stdlib Require Import ZArith NArith Lia Bool Ascii String List Sorted Permutation.
From stdpp Require Import base list strings.

Local Open Scope string_scope.
Local Open Scope list_scope.

(** ** std::string *)

Module Str.

Definition size (s : string) : Z := Z.of_nat (String.length s).

Definition empty (s : string) : bool :=
  match s with
  | EmptyString => true
  | String _ _ => false
  end.

(** [s.substr(pos, n)]: at most [n] characters from [pos].  The C++
    function throws when [pos > size]; no call of the program does that
    (the position is 0, or guarded by a comparison with the size). *)
Definition substr (s : string) (pos n : nat) : string := substring pos n s.

(** [s.substr(pos)]: the rest of the string from [pos]. *)
Definition substr_from (s : string) (pos : nat) : string :=
  substring pos (String.length s - pos) s.

(** [s[i]] for an [int] index inside the string. *)
Definition at_ (s : string) (i : Z) : option ascii := String.get (Z.to_nat i) s.

(** The order of [std::string::operator<]: lexicographic on the
    characters taken as unsigned bytes, a proper prefix coming first. *)
Inductive lex_lt : string -> string -> Prop :=
| lex_lt_prefix c s : lex_lt EmptyString (String c s)
| lex_lt_head c d s t : (N_of_ascii c < N_of_ascii d)%N -> lex_lt (String c s) (String d t)
| lex_lt_tail c s t : lex_lt s t -> lex_lt (String c s) (String c t).

(** What a C string function sees of a [std::string]: the characters
    before the first NUL. *)
Fixpoint c_str (s : string) : string :=
  match s with
  | EmptyString => EmptyString
  | String c s' => if Ascii.eqb c zero then EmptyString else String c (c_str s')
  end.

(** [std::snprintf(dst, cap, "%s", src)]: at most [cap - 1] characters
    of the C string [src], then the terminator. *)
Definition snprintf (cap : nat) (src : string) : string :=
  substring 0 (cap - 1) (c_str src).

(** [std::strncmp(a, b, n) == 0] on two C strings. *)
Definition strncmp_eq (a b : string) (n : nat) : bool :=
  String.eqb (substring 0 n (c_str a)) (substring 0 n (c_str b)).

End Str.

(** ** registry.h and registry.cpp *)

Module Registry.

Definition MAX_USERS : nat := 5.
Definition USER_ID_MAX : nat := 32.
Definition QUEUE_NAME_MAX : nat := 64.

(** [active] is an [int]: 0 is free, 1 is taken. *)
Record UserEntry : Type := mkUserEntry {
  active : Z;
  user_id : string;
  queue_name : string
}.

Record RegistrySegment : Type := mkRegistrySegment {
  magic : N;
  version : N;
  users : list UserEntry
}.

(** [__sync_bool_compare_and_swap(ptr, expected, desired)] as one atomic
    step on the value behind the pointer: the success flag and the
    value left there. *)
Definition compare_and_swap (cur expected desired : Z) : bool * Z :=
  if (cur =? expected)%Z then (true, desired) else (false, cur).

Definition set_users (seg : RegistrySegment) (us : list UserEntry) : RegistrySegment :=
  mkRegistrySegment (magic seg) (version seg) us.

(** [queue_name ? queue_name : ""] *)
Definition or_empty (queue_name : option string) : string :=
  match queue_name with Some q => q | None => "" end.

(** First loop of [registry_register] (lines 51-58) over the indices
    [idx]: the slot of the first taken entry with this id, if any. *)
Fixpoint find_registered (us : list UserEntry) (uid : string) (idx : list nat) : option nat :=
  match idx with
  | [] => None
  | i :: idx' =>
      match us !! i with
      | Some e =>
          if (active e =? 1)%Z && Str.strncmp_eq (user_id e) uid USER_ID_MAX
          then Some i
          else find_registered us uid idx'
      | None => find_registered us uid idx'
      end
  end.

(** Second loop (lines 60-69): the first entry on which the
    compare-and-swap succeeds is written and returned. *)
Fixpoint claim_free (us : list UserEntry) (uid : string) (queue_name : option string)
    (idx : list nat) : option (nat * list UserEntry) :=
  match idx with
  | [] => None
  | i :: idx' =>
      match us !! i with
      | Some e =>
          let '(ok, act) := compare_and_swap (active e) 0 1 in
          if ok then
            Some (i, <[i := mkUserEntry act (Str.snprintf USER_ID_MAX uid)
                              (Str.snprintf QUEUE_NAME_MAX (or_empty queue_name))]> us)
          else claim_free us uid queue_name idx'
      | None => claim_free us uid queue_name idx'
      end
  end.

(** [registry_register]: the returned code, [assigned_index] and the
    segment afterwards. *)
Definition registry_register (seg : RegistrySegment) (uid : string)
    (queue_name : option string) : Z * Z * RegistrySegment :=
  match find_registered (users seg) uid (seq 0 MAX_USERS) with
  | Some i =>
      match users seg !! i with
      | Some e =>
          let e' := mkUserEntry (active e) (user_id e)
                      (Str.snprintf QUEUE_NAME_MAX (or_empty queue_name)) in
          (0%Z, Z.of_nat i, set_users seg (<[i := e']> (users seg)))
      | None => (0%Z, Z.of_nat i, seg)
      end
  | None =>
      match claim_free (users seg) uid queue_name (seq 0 MAX_USERS) with
      | Some (i, us') => (0%Z, Z.of_nat i, set_users seg us')
      | None => ((-4)%Z, (-1)%Z, seg)
      end
  end.

End Registry.

(** ** message.h and crdt.h *)

Definition TEXT_SEG_MAX : nat := 256.

Inductive OpType : Type := Insert | Delete | Replace.

(** The fixed-size record sent through the queues.  A character array is
    represented by the characters it holds. *)
Module UpdateMessage.
Record t : Type := mk {
  sender : string;
  timestamp_ns : N;
  line : N;
  col_start : Z;
  col_end : Z;
  op : OpType;
  old_text : string;
  new_text : string
}.
End UpdateMessage.

Module UpdateExt.
Record t : Type := mk {
  ts : N;
  uid : string;
  line : N;
  cs : Z;
  ce : Z;
  op : OpType;
  old_text : string;
  new_text : string
}.
End UpdateExt.

(** ** Signed 32-bit integers *)

Module Int.

(** The [int] that has the low 32 bits of [z]: what [static_cast<int>]
    gives for a value that does not fit, and what an addition of two [int]
    leaves in the compiled code when the sum does not fit. *)
Definition wrap (z : Z) : Z := ((z + 2 ^ 31) mod 2 ^ 32 - 2 ^ 31)%Z.

(** [a + b] on two [int]. *)
Definition add (a b : Z) : Z := wrap (a + b).

End Int.

(** ** crdt.cpp *)

Module Crdt.
Import UpdateExt.

Definition MERGED : string := "###MERGED###".

(** [overlaps].  The two end columns are sums of [int]: the length of the
    old text is cast with [static_cast<int>] and added to the start
    column, in 32 bits. *)
Definition overlaps (a b : UpdateExt.t) : bool :=
  if negb (line a =? line b)%N then false
  else if Str.empty (old_text a) && Str.empty (old_text b) && (cs a =? cs b)%Z then true
  else
    let a_end := Int.add (cs a) (Int.wrap (Str.size (old_text a))) in
    let b_end := Int.add (cs b) (Int.wrap (Str.size (old_text b))) in
    negb ((a_end <=? cs b)%Z || (b_end <=? cs a)%Z).

Definition newer_wins (a b : UpdateExt.t) : bool :=
  if negb (ts a =? ts b)%N then (ts b <? ts a)%N
  else String.ltb (uid a) (uid b).

Definition apply_update_to_line (cur : string) (u : UpdateExt.t) : string :=
  if Str.empty cur then new_text u
  else
    let start := Z.max 0 (cs u) in
    let end_ := Z.min (ce u) (Str.size cur - 1) in
    if (end_ <? start)%Z then cur
    else
      let result := Str.substr cur 0 (Z.to_nat start) +:+ new_text u in
      if (0 <=? end_)%Z && (end_ + 1 <? Str.size cur)%Z
      then result +:+ Str.substr_from cur (Z.to_nat (end_ + 1))
      else result.

(** *** do_merge_apply, step by step *)

(** The test of lines 73-76: [b] continues [a]. *)
Definition continues (a b : UpdateExt.t) : bool :=
  (line a =? line b)%N && String.eqb (uid a) (uid b)
  && String.eqb (new_text a) (old_text b) && (cs a =? cs b)%Z.

(** Lines 78-79, what becomes of [all[i]]: it takes the new text and the
    time stamp of [b]. *)
Definition absorb (a b : UpdateExt.t) : UpdateExt.t :=
  mk (ts b) (uid a) (line a) (cs a) (ce a) (op a) (old_text a) (new_text b).

(** Line 81, what becomes of [all[j]]: the marker replaces its old text. *)
Definition tombstone (b : UpdateExt.t) : UpdateExt.t :=
  mk (ts b) (uid b) (line b) (cs b) (ce b) (op b) MERGED (new_text b).

(** Body of the chain-coalescing loops (lines 73-82) at the indices [i]
    and [j]. *)
Definition coalesce_at (i j : nat) (all : list UpdateExt.t) : list UpdateExt.t :=
  match all !! i, all !! j with
  | Some a, Some b =>
      if continues a b
      then <[j := tombstone b]> (<[i := absorb a b]> all)
      else all
  | _, _ => all
  end.

(** [for (j = i + 1; j < all.size(); ++j)] *)
Definition coalesce_inner (i : nat) (all : list UpdateExt.t) : list UpdateExt.t :=
  foldl (fun acc j => coalesce_at i j acc) all (seq (S i) (length all - S i)).

(** [for (i = 0; i < all.size(); ++i)] *)
Definition coalesce (all : list UpdateExt.t) : list UpdateExt.t :=
  foldl (fun acc i => coalesce_inner i acc) all (seq 0 (length all)).

Definition is_merged (u : UpdateExt.t) : bool := String.eqb (old_text u) MERGED.

(** The inner loop of the resolution (lines 92-104) for a fixed [i]
    over the remaining indices [js]; [a] is [all[i]].  The recursion
    stops early where the code breaks. *)
Fixpoint resolve_inner (all : list UpdateExt.t) (i : nat) (a : UpdateExt.t)
    (js : list nat) (alive : list bool) : list bool :=
  match js with
  | [] => alive
  | j :: js' =>
      match alive !! j, all !! j with
      | Some true, Some b =>
          if is_merged b then resolve_inner all i a js' (<[j := false]> alive)
          else if overlaps a b then
            if newer_wins a b then resolve_inner all i a js' (<[j := false]> alive)
            else <[i := false]> alive
          else resolve_inner all i a js' alive
      | _, _ => resolve_inner all i a js' alive
      end
  end.

(** Body of the outer loop (lines 90-104). *)
Definition resolve_at (all : list UpdateExt.t) (alive : list bool) (i : nat) : list bool :=
  match alive !! i, all !! i with
  | Some true, Some a =>
      if is_merged a then <[i := false]> alive
      else resolve_inner all i a (seq (S i) (length all - S i)) alive
  | _, _ => alive
  end.

Definition resolve (all : list UpdateExt.t) : list bool :=
  foldl (resolve_at all) (replicate (length all) true) (seq 0 (length all)).

(** Step 3: the survivors, in the order of [all]. *)
Definition collect (all : list UpdateExt.t) (alive : list bool) : list UpdateExt.t :=
  fst <$> filter (fun p => snd p = true) (zip all alive).

(** [std::map<uint32_t, std::vector<UpdateExt>>] as an association list
    in increasing order of the key, the order in which the map is
    traversed; [updates_per_line[k].push_back(u)]. *)
Fixpoint map_push (k : N) (u : UpdateExt.t) (m : list (N * list UpdateExt.t))
    : list (N * list UpdateExt.t) :=
  match m with
  | [] => [(k, [u])]
  | (k', v) :: m' =>
      if (k =? k')%N then (k', v ++ [u]) :: m'
      else if (k <? k')%N then (k, [u]) :: m
      else (k', v) :: map_push k u m'
  end.

Definition group_by_line (winners : list UpdateExt.t) : list (N * list UpdateExt.t) :=
  foldl (fun m u => map_push (line u) u m) [] winners.

(** The comparison passed to [std::sort]. *)
Definition sort_lt (a b : UpdateExt.t) : bool :=
  if negb (cs a =? cs b)%Z then (cs a <? cs b)%Z else (ts b <? ts a)%N.

(** [std::sort] leaves the order of elements that compare equal
    unspecified.  The model is the insertion sort that libstdc++ runs on
    ranges of up to 16 elements: each element in turn moves left past the
    elements that compare greater.  On longer ranges [std::sort] may
    leave elements that compare equal (same start column and time stamp)
    in another order.  No statement below depends on the order of equal
    elements. *)
Fixpoint sort_insert (u : UpdateExt.t) (l : list UpdateExt.t) : list UpdateExt.t :=
  match l with
  | [] => [u]
  | v :: l' => if sort_lt u v then u :: l else v :: sort_insert u l'
  end.

Definition sort (l : list UpdateExt.t) : list UpdateExt.t :=
  foldl (fun sorted u => sort_insert u sorted) [] l.

(** Body of the application loop (lines 133-151) on the working line
    [cur] and the running [offset]. *)
Definition apply_one (st : string * Z) (u : UpdateExt.t) : string * Z :=
  let '(cur, offset) := st in
  let adjusted_cs := Z.max 0 (cs u + offset) in
  let adjusted_ce := Z.min (ce u + offset) (Str.size cur - 1) in
  let new_line := Str.substr cur 0 (Z.to_nat adjusted_cs) +:+ new_text u in
  let new_line :=
    if (0 <=? adjusted_ce)%Z && (adjusted_ce + 1 <? Str.size cur)%Z
    then new_line +:+ Str.substr_from cur (Z.to_nat (adjusted_ce + 1))
    else new_line in
  (new_line, (offset + (Str.size (new_text u) - (adjusted_ce - adjusted_cs + 1)))%Z).

(** [while (lines.size() <= line_num) lines.emplace_back("")] *)
Definition extend_lines (lines : list string) (line_num : nat) : list string :=
  lines ++ replicate (S line_num - length lines) "".

(** Body of the loop over the map (lines 118-154). *)
Definition apply_line (lines : list string) (kv : N * list UpdateExt.t) : list string :=
  let line_num := N.to_nat (fst kv) in
  let lines := extend_lines lines line_num in
  let vec := sort (snd kv) in
  match lines !! line_num with
  | Some cur => <[line_num := fst (foldl apply_one (cur, 0%Z) vec)]> lines
  | None => lines
  end.

(** The state [do_merge_apply] leaves behind: the returned flag and the
    three vectors it was given by reference. *)
Record merge_result : Type := MergeResult {
  changed : bool;
  lines_out : list string;
  local_out : list UpdateExt.t;
  recv_out : list UpdateExt.t
}.

Definition surviving (local_unmerged recv_unmerged : list UpdateExt.t) : list UpdateExt.t :=
  let all := coalesce (local_unmerged ++ recv_unmerged) in
  collect all (resolve all).

Definition do_merge_apply (lines : list string)
    (local_unmerged recv_unmerged : list UpdateExt.t) (self_uid : string) : merge_result :=
  match local_unmerged, recv_unmerged with
  | [], [] => MergeResult false lines local_unmerged recv_unmerged
  | _, _ =>
      let winners := surviving local_unmerged recv_unmerged in
      let lines := foldl apply_line lines (group_by_line winners) in
      MergeResult (negb (match winners with [] => true | _ => false end)) lines [] []
  end.

(** The trimming the editor does on every document it reads and before
    every write-back (editor.cpp, lines 116, 490 and 530). *)
Fixpoint drop_empty_front (l : list string) : list string :=
  match l with
  | s :: l' => if Str.empty s then drop_empty_front l' else l
  | [] => []
  end.

Definition normalize (lines : list string) : list string :=
  reverse (drop_empty_front (reverse lines)).

End Crdt.

(** ** editor.cpp: the receive ring *)

Module RingBuffer.
Section Ring.
Context {T : Type}.
(** The template parameter [CAP] and the value of a default-constructed
    [T], which slots read before any write hold. *)
Variable CAP : nat.
Variable T_default : T.

Record t : Type := mk {
  head : nat;
  tail : nat;
  data : list T
}.

Definition init : t := mk 0 0 (replicate CAP T_default).

Definition push (r : t) (v : T) : bool * t :=
  let h := head r in
  let n := Nat.modulo (h + 1) CAP in
  if (n =? tail r)%nat then (false, r)
  else (true, mk n (tail r) (<[h := v]> (data r))).

(** [bool pop(T &out)]: [None] stands for [false], [Some out] for
    [true] with the value stored in [out]. *)
Definition pop (r : t) : option T * t :=
  let t0 := tail r in
  if (t0 =? head r)%nat then (None, r)
  else (Some (default T_default (data r !! t0)),
        mk (head r) (Nat.modulo (t0 + 1) CAP) (data r)).

(** Calls made on the ring by the listener thread ([Push]) and by the
    main loop ([Pop]), in the order in which they take effect. *)
Inductive call : Type :=
| Push (v : T)
| Pop.

(** What the two threads have observed so far: the items whose [push]
    returned true, and the items [pop] has returned. *)
Record history : Type := mkHistory {
  ring : t;
  pushed : list T;
  popped : list T
}.

Definition step (h : history) (c : call) : history :=
  match c with
  | Push v =>
      let '(ok, r) := push (ring h) v in
      mkHistory r (if ok then pushed h ++ [v] else pushed h) (popped h)
  | Pop =>
      match pop (ring h) with
      | (Some v, r) => mkHistory r (pushed h) (popped h ++ [v])
      | (None, r) => mkHistory r (pushed h) (popped h)
      end
  end.

Definition run (calls : list call) : history :=
  foldl step (mkHistory init [] []) calls.

(** Number of items between [tail] and [head]. *)
Definition held (r : t) : nat := Nat.modulo (head r + CAP - tail r) CAP.

End Ring.

Arguments mk {T}.
Arguments head {T}.
Arguments tail {T}.
Arguments data {T}.
Arguments Pop {T}.
Arguments ring {T}.
Arguments pushed {T}.
Arguments popped {T}.
Arguments held {T}.
End RingBuffer.

(** ** editor.cpp: change detection and the drain of the ring *)

Module Change.
Record t : Type := mk {
  line : Z;
  col_start : Z;
  col_end : Z;
  old_text : string;
  new_text : string;
  timestamp : string;
  user_id : string;
  type : string
}.
End Change.

Module Editor.

Definition RECV_CAP : nat := 128.

Definition op_of_type (type : string) : OpType :=
  if String.eqb type "insert" then Insert
  else if String.eqb type "delete" then Delete
  else Replace.

(** [static_cast<uint32_t>] of an [int]. *)
Definition to_uint32 (z : Z) : N := Z.to_N (z mod 2 ^ 32).

(** [to_message]; [now] is the value [now_ns()] returns in it. *)
Definition to_message (g_user_id : string) (now : N) (c : Change.t) : UpdateMessage.t :=
  UpdateMessage.mk
    (Str.snprintf Registry.USER_ID_MAX g_user_id)
    now
    (to_uint32 (Change.line c))
    (Change.col_start c)
    (Change.col_end c)
    (op_of_type (Change.type c))
    (Str.snprintf TEXT_SEG_MAX (Change.old_text c))
    (Str.snprintf TEXT_SEG_MAX (Change.new_text c)).

(** The lambda [to_ext]: a [std::string] built from a character array reads
    it as a C string. *)
Definition to_ext (m : UpdateMessage.t) : UpdateExt.t :=
  UpdateExt.mk
    (UpdateMessage.timestamp_ns m)
    (Str.c_str (UpdateMessage.sender m))
    (UpdateMessage.line m)
    (UpdateMessage.col_start m)
    (UpdateMessage.col_end m)
    (UpdateMessage.op m)
    (Str.c_str (UpdateMessage.old_text m))
    (Str.c_str (UpdateMessage.new_text m)).

(** The lambda [change_to_ext]. *)
Definition change_to_ext (g_user_id : string) (now : N) (c : Change.t) : UpdateExt.t :=
  UpdateExt.mk
    now
    g_user_id
    (to_uint32 (Change.line c))
    (Change.col_start c)
    (Change.col_end c)
    (op_of_type (Change.type c))
    (Change.old_text c)
    (Change.new_text c).

(** [oldL[i] == newL[j]] for two indices inside the strings. *)
Definition same_char (oldL : string) (i : Z) (newL : string) (j : Z) : bool :=
  match Str.at_ oldL i, Str.at_ newL j with
  | Some x, Some y => Ascii.eqb x y
  | _, _ => false
  end.

(** [while (cs < max_common_left && oldL[cs] == newL[cs]) cs++;]
    The loop runs at most [max_common_left] times; [fuel] is given that
    many. *)
Fixpoint scan_prefix (fuel : nat) (oldL newL : string) (max_common_left cs : Z) : Z :=
  match fuel with
  | O => cs
  | S fuel' =>
      if (cs <? max_common_left)%Z && same_char oldL cs newL cs
      then scan_prefix fuel' oldL newL max_common_left (cs + 1)
      else cs
  end.

(** The loop of lines 398-401 on [tail]; it runs at most [old_len - cs]
    times. *)
Fixpoint scan_suffix (fuel : nat) (oldL newL : string) (old_len new_len cs tail : Z) : Z :=
  match fuel with
  | O => tail
  | S fuel' =>
      if (tail <? old_len - cs)%Z && (tail <? new_len - cs)%Z
         && same_char oldL (old_len - 1 - tail) newL (new_len - 1 - tail)
      then scan_suffix fuel' oldL newL old_len new_len cs (tail + 1)
      else tail
  end.

(** Lines 386-423 for one pair of lines: [None] where the code continues
    with the next line, otherwise [last_change] with its six fields
    assigned. *)
Definition diff_line (i : nat) (oldL newL : string) (last_change : Change.t)
    : option Change.t :=
  if String.eqb oldL newL then None
  else
    let old_len := Str.size oldL in
    let new_len := Str.size newL in
    let max_common_left := Z.min old_len new_len in
    let cs := scan_prefix (Z.to_nat max_common_left) oldL newL max_common_left 0 in
    let tail := scan_suffix (Z.to_nat (old_len - cs)) oldL newL old_len new_len cs 0 in
    let old_mid_len := (old_len - cs - tail)%Z in
    let new_mid_len := (new_len - cs - tail)%Z in
    let old_seg :=
      if (0 <? old_mid_len)%Z
      then Str.substr oldL (Z.to_nat cs) (Z.to_nat old_mid_len) else "" in
    let new_seg :=
      if (0 <? new_mid_len)%Z
      then Str.substr newL (Z.to_nat cs) (Z.to_nat new_mid_len) else "" in
    if String.eqb old_seg new_seg then None
    else
      let op_type :=
        if Str.empty old_seg && negb (Str.empty new_seg) then "insert"
        else if negb (Str.empty old_seg) && Str.empty new_seg then "delete"
        else "replace" in
      Some (Change.mk (Z.of_nat i) cs
              (if Str.empty old_seg then cs else (cs + Str.size old_seg - 1)%Z)
              old_seg new_seg
              (Change.timestamp last_change) (Change.user_id last_change) op_type).

(** The part of the loop state that change detection writes.  [ticks]
    counts the readings of the steady clock made so far. *)
Record detect_state : Type := mkDetect {
  last_change : Change.t;
  has_changes : bool;
  local_ops : list UpdateMessage.t;
  local_unmerged : list UpdateExt.t;
  last_local_op_ns : N;
  ticks : nat
}.

Section Detect.
Variable g_user_id : string.
(** [now_ns()]: the value of the n-th reading of the steady clock. *)
Variable now_ns : nat -> N.

(** "Buffer operation for broadcast and merge" (lines 427-431, 446-450
    and 465-469). *)
Definition buffer_op (c : Change.t) (st : detect_state) : detect_state :=
  mkDetect c true
    (local_ops st ++ [to_message g_user_id (now_ns (ticks st)) c])
    (local_unmerged st ++ [change_to_ext g_user_id (now_ns (S (ticks st))) c])
    (now_ns (S (S (ticks st))))
    (S (S (S (ticks st)))).

Definition changed_line (prev_lines new_lines : list string)
    (st : detect_state) (i : nat) : detect_state :=
  match prev_lines !! i, new_lines !! i with
  | Some oldL, Some newL =>
      match diff_line i oldL newL (last_change st) with
      | Some c => buffer_op c st
      | None => st
      end
  | _, _ => st
  end.

Definition added_line (new_lines : list string)
    (st : detect_state) (i : nat) : detect_state :=
  match new_lines !! i with
  | Some l =>
      if Str.empty l then st
      else
        let lc := last_change st in
        buffer_op (Change.mk (Z.of_nat i) 0 0 "" l
                     (Change.timestamp lc) (Change.user_id lc) "insert") st
  | None => st
  end.

Definition removed_line (prev_lines : list string)
    (st : detect_state) (i : nat) : detect_state :=
  match prev_lines !! i with
  | Some l =>
      if Str.empty l then st
      else
        let lc := last_change st in
        buffer_op (Change.mk (Z.of_nat i) 0 (Str.size l - 1) l ""
                     (Change.timestamp lc) (Change.user_id lc) "delete") st
  | None => st
  end.

(** Lines 380-470: the three loops that turn a modified file into
    operation records.  [now_time] is the string [now_time_str()]
    returns, [st] holds the buffers as they are before. *)
Definition detect_changes (now_time : string) (prev_lines new_lines : list string)
    (st : detect_state) : detect_state :=
  let st := mkDetect (Change.mk (-1) (-1) (-1) "" "" now_time g_user_id "none") false
              (local_ops st) (local_unmerged st) (last_local_op_ns st) (ticks st) in
  let common_lines := Nat.min (length prev_lines) (length new_lines) in
  let st := foldl (changed_line prev_lines new_lines) st (seq 0 common_lines) in
  let st := foldl (added_line new_lines) st
              (seq (length prev_lines) (length new_lines - length prev_lines)) in
  foldl (removed_line prev_lines) st
    (seq (length new_lines) (length prev_lines - length new_lines)).

(** The part of the loop state the two drain loops write. *)
Record drain_state : Type := mkDrain {
  g_recv_buf : RingBuffer.t (T := UpdateMessage.t);
  recv_unmerged : list UpdateExt.t;
  got_updates : bool;
  g_last_sender : string
}.

Definition msg_default : UpdateMessage.t :=
  UpdateMessage.mk "" 0 0 0 0 Insert "" "".

(** [for (;;) { if (!g_recv_buf.pop(tmp)) break; ... }] (lines 345-354
    and 518-525).  [None] is returned when [fuel] iterations were not
    enough to reach the break. *)
Fixpoint drain (fuel : nat) (st : drain_state) : option drain_state :=
  match fuel with
  | O => None
  | S fuel' =>
      match RingBuffer.pop RECV_CAP msg_default (g_recv_buf st) with
      | (None, _) => Some st
      | (Some tmp, r) =>
          if Str.strncmp_eq (UpdateMessage.sender tmp) g_user_id Registry.USER_ID_MAX
          then drain fuel' (mkDrain r (recv_unmerged st) (got_updates st) (g_last_sender st))
          else drain fuel'
                 (mkDrain r (recv_unmerged st ++ [to_ext tmp]) true
                    (Str.snprintf Registry.USER_ID_MAX (UpdateMessage.sender tmp)))
      end
  end.

(** The first drain of an iteration writes [got_remote_updates], the
    one after the merge [got_more_after_merge]; both start false. *)
Definition drain_received (fuel : nat) (st : drain_state) : option drain_state :=
  drain fuel (mkDrain (g_recv_buf st) (recv_unmerged st) false (g_last_sender st)).

Definition drain_after_merge (fuel : nat) (st : drain_state) : option drain_state :=
  drain fuel (mkDrain (g_recv_buf st) (recv_unmerged st) false (g_last_sender st)).

End Detect.

End Editor.

(** ** registry.cpp: the rest of the interface *)

Module RegistryOps.
Import Registry.

Definition REGISTRY_MAGIC : N := 1398364244.
Definition REGISTRY_VERSION : N := 1.

(** What [initialize_segment] leaves in a slot: the flag is 0 and both
    strings start with the terminator. *)
Definition free_slot : UserEntry := mkUserEntry 0 "" "".

(** [initialize_segment]: the loop writes the three fields of every slot. *)
Definition initialize_segment (seg : RegistrySegment) : RegistrySegment :=
  mkRegistrySegment REGISTRY_MAGIC REGISTRY_VERSION
    (foldl (fun us i => <[i := free_slot]> us) (users seg) (seq 0 MAX_USERS)).

(** The end of [registry_open_or_create], once the segment is mapped: it
    is initialised unless it carries the magic number. *)
Definition attach (seg : RegistrySegment) : RegistrySegment :=
  if (magic seg =? REGISTRY_MAGIC)%N then seg else initialize_segment seg.

(** [registry_unregister]: the returned code and the segment afterwards.
    Its loop tests the slots as the first loop of [registry_register]
    does. *)
Definition registry_unregister (seg : RegistrySegment) (uid : string)
    : Z * RegistrySegment :=
  match find_registered (users seg) uid (seq 0 MAX_USERS) with
  | Some i => (0%Z, set_users seg (<[i := mkUserEntry 0 "" ""]> (users seg)))
  | None => ((-1)%Z, seg)
  end.

(** Body of the loop of [registry_list]: [out_users[count++] = users[i]]. *)
Definition list_at (us : list UserEntry) (out : list UserEntry) (i : nat)
    : list UserEntry :=
  match us !! i with
  | Some e => if (active e =? 1)%Z then out ++ [e] else out
  | None => out
  end.

(** [registry_list]: the entries written to [out_users] and [count]. *)
Definition registry_list (seg : RegistrySegment) : list UserEntry * nat :=
  let out := foldl (list_at (users seg)) [] (seq 0 MAX_USERS) in
  (out, length out).

End RegistryOps.

(** ** editor.cpp: registration at start-up *)

Module Startup.
Import Registry.

Definition make_queue_name (uid : string) : string := "/queue_" +:+ uid.

(** What [main] does with the registry for the peer [uid] (lines 236 and
    262-265): it registers under the name of its own queue.  The result is
    the slot, or the exit code 3 when the registry is full. *)
Definition register_peer (seg : RegistrySegment) (uid : string)
    : (nat + Z) * RegistrySegment :=
  let '(rc, slot, seg') := registry_register seg uid (Some (make_queue_name uid)) in
  if (rc =? 0)%Z then (inl (Z.to_nat slot), seg') else (inr 3%Z, seg').

(** Peers starting one after the other on the same segment. *)
Fixpoint register_peers (seg : RegistrySegment) (uids : list string)
    : list (nat + Z) * RegistrySegment :=
  match uids with
  | [] => ([], seg)
  | uid :: uids' =>
      let '(r, seg') := register_peer seg uid in
      let '(rs, seg'') := register_peers seg' uids' in
      (r :: rs, seg'')
  end.

End Startup.

(** ** editor.cpp: reading and writing the document *)

Module DocFile.

Definition newline : ascii := "010"%char.

(** The loop [while (std::getline(ifs, line)) lines.push_back(line)] on the
    rest [s] of the file.  [line] holds the characters extracted for the
    current line and [got] tells whether any was: at the end of the file
    [getline] succeeds only if it has extracted something. *)
Fixpoint getlines (line : string) (got : bool) (s : string) : list string :=
  match s with
  | EmptyString => if got then [line] else []
  | String c s' =>
      if Ascii.eqb c newline then line :: getlines "" false s'
      else getlines (line +:+ String c "") true s'
  end.

(** [read_lines] on the content of the file. *)
Definition read_lines (content : string) : list string :=
  Crdt.normalize (getlines "" false content).

(** What the write-back loops (lines 492-495 and 531-534) put into the
    file: every line followed by a newline. *)
Fixpoint write_lines (lines : list string) : string :=
  match lines with
  | [] => ""
  | l :: lines' => l +:+ String newline "" +:+ write_lines lines'
  end.

End DocFile.

(** ** editor.cpp: the merge pass and the broadcast of the main loop *)

Module MergePass.
Import Crdt DocFile.


(** The document file: its content and the modification time [stat]
    reports. *)
Record file : Type := mkFile {
  content : string;
  mtime : Z
}.

(** The part of the loop state the merge passes read and write. *)
Record sync_state : Type := mkSync {
  merge_baseline : list string;
  prev_lines : list string;
  local_unmerged : list UpdateExt.t;
  recv_unmerged : list UpdateExt.t;
  doc : file;
  last_mtime : Z;
  just_merged : bool
}.

Section Pass.
Variable g_user_id : string.

(** Lines 486-513 and 527-544: merge on a copy of the baseline and, if the
    merge reports a change, trim, write the file and take the result as
    the new state.  [t_write] is the modification time the file gets,
    [stat_ok] whether the [stat] after the write succeeds; [flag] is true
    for the first pass, which sets [just_merged]. *)
Definition merge_and_write (flag : bool) (t_write : Z) (stat_ok : bool)
    (st : sync_state) : sync_state :=
  let r := do_merge_apply (merge_baseline st) (local_unmerged st) (recv_unmerged st)
             g_user_id in
  if changed r then
    let lines_copy := normalize (lines_out r) in
    mkSync lines_copy lines_copy (local_out r) (recv_out r)
      (mkFile (write_lines lines_copy) t_write)
      (if stat_ok then t_write else last_mtime st)
      (if flag then true else just_merged st)
  else
    mkSync (merge_baseline st) (prev_lines st) (local_out r) (recv_out r)
      (doc st) (last_mtime st) (just_merged st).




(** The pass after the second drain (lines 526-545); [dirty] is the value
    [local_dirty] got before the first pass. *)
Definition merge_again (got_more_after_merge dirty : bool) (t_write : Z) (stat_ok : bool)
    (st : sync_state) : sync_state :=
  if got_more_after_merge && negb dirty
  then merge_and_write false t_write stat_ok st
  else st.

End Pass.

End MergePass.

Module Broadcast.
Import Registry.

Definition N_BROADCAST : nat := 5.

(** The message queues as the broadcast sees them: [opened] and [sends]
    count the calls of [mq_open] and [mq_send] made so far, [delivered]
    lists the messages that were accepted, each with the name of the queue
    it went to, and the two globals follow the successful sends. *)
Record wire : Type := mkWire {
  opened : nat;
  sends : nat;
  delivered : list (string * UpdateMessage.t);
  g_sent_total : N;
  g_last_target : string
}.

Section Send.
Variable g_user_id : string.
(** [opens n]: the [n]-th call of [mq_open] succeeds; [accepts n]: the
    [n]-th call of [mq_send] succeeds (a full queue refuses). *)
Variable opens : nat -> bool.
Variable accepts : nat -> bool.

(** The loop over [local_ops] for one peer (lines 563-571). *)
Fixpoint send_ops (u : UserEntry) (ops : list UpdateMessage.t) (count : nat) (w : wire)
    : wire :=
  match ops with
  | [] => w
  | op :: ops' =>
      if (N_BROADCAST <=? count)%nat then w
      else if accepts (sends w)
      then send_ops u ops' (S count)
             (mkWire (opened w) (S (sends w))
                (delivered w ++ [(Str.c_str (queue_name u), op)])
                ((g_sent_total w + 1) mod 2 ^ 64)%N
                (Str.snprintf USER_ID_MAX (user_id u)))
      else send_ops u ops' count
             (mkWire (opened w) (S (sends w)) (delivered w) (g_sent_total w)
                (g_last_target w))
  end.

(** Body of the loop over the registered peers (lines 556-572). *)
Definition send_to (local_ops : list UpdateMessage.t) (w : wire) (u : UserEntry) : wire :=
  if Str.strncmp_eq (user_id u) g_user_id USER_ID_MAX then w
  else if Str.empty (Str.c_str (queue_name u)) then w
  else
    let w' := mkWire (S (opened w)) (sends w) (delivered w) (g_sent_total w)
                (g_last_target w) in
    if opens (opened w) then send_ops u local_ops 0 w' else w'.

(** Lines 549-581: the buffer afterwards and the effect on the queues. *)
Definition broadcast (seg : RegistrySegment) (local_ops : list UpdateMessage.t) (w : wire)
    : list UpdateMessage.t * wire :=
  if (N_BROADCAST <=? length local_ops)%nat then
    let users := fst (RegistryOps.registry_list seg) in
    let w := foldl (send_to local_ops) w users in
    (if (N_BROADCAST <? length local_ops)%nat then drop N_BROADCAST local_ops else [], w)
  else (local_ops, w).

End Send.

End Broadcast.

(** * Properties *)

(** ** std::string *)

Module StrFacts.
Import Str.

Lemma ascii_compare_lt (c d : ascii) :
  Ascii.compare c d = Lt <-> (N_of_ascii c < N_of_ascii d)%N.
Proof. unfold Ascii.compare. rewrite N.compare_lt_iff. reflexivity. Qed.

Lemma ascii_compare_refl (c : ascii) : Ascii.compare c c = Eq.
Proof. unfold Ascii.compare. apply N.compare_refl. Qed.

(** [String.ltb] decides the order of [std::string]. *)
Lemma ltb_lex_lt (s t : string) : String.ltb s t = true <-> lex_lt s t.
Proof.
  unfold String.ltb.
  revert t. induction s as [|c s IH]; intros [|d t]; simpl.
  - split; [discriminate | inversion 1].
  - split; [constructor | reflexivity].
  - split; [discriminate | inversion 1].
  - destruct (Ascii.compare c d) eqn:Hcd.
    + apply Ascii.compare_eq_iff in Hcd. subst d.
      rewrite IH. split; [apply lex_lt_tail|].
      inversion 1 as [| ? ? ? ? Hlt | ? ? ? Ht]; subst; [lia | exact Ht].
    + apply ascii_compare_lt in Hcd.
      split; [intros _; now apply lex_lt_head | reflexivity].
    + split; [discriminate|].
      inversion 1 as [| ? ? ? ? Hlt | ? ? ? Ht]; subst.
      * apply ascii_compare_lt in Hlt. congruence.
      * rewrite ascii_compare_refl in Hcd. discriminate.
Qed.

Lemma c_str_idem (s : string) : c_str (c_str s) = c_str s.
Proof.
  induction s as [|c s IH]; simpl; [reflexivity|].
  destruct (Ascii.eqb c zero) eqn:E; simpl; [reflexivity|].
  rewrite E, IH. reflexivity.
Qed.

Lemma strncmp_eq_refl (a : string) (n : nat) : strncmp_eq a a n = true.
Proof. unfold strncmp_eq. apply String.eqb_refl. Qed.

Lemma strncmp_eq_c_str (a b : string) (n : nat) :
  strncmp_eq (c_str a) b n = strncmp_eq a b n.
Proof. unfold strncmp_eq. rewrite c_str_idem. reflexivity. Qed.

(** A C string that fits an array of [cap] bytes: no NUL inside and room
    for the terminator. *)
Definition fits (cap : nat) (s : string) : Prop :=
  (forall i, String.get i s <> Some zero) /\ String.length s < cap.

Lemma substring_all (s : string) (n : nat) :
  String.length s <= n -> substring 0 n s = s.
Proof.
  revert n. induction s as [|c s IH]; intros [|n] H; simpl in *;
    try reflexivity; try lia.
  rewrite IH by lia. reflexivity.
Qed.

Lemma c_str_no_nul (s : string) :
  (forall i, String.get i s <> Some zero) -> c_str s = s.
Proof.
  induction s as [|c s IH]; intros H; simpl; [reflexivity|].
  destruct (Ascii.eqb_spec c zero) as [->|Hc].
  - exfalso. apply (H 0). reflexivity.
  - rewrite IH; [reflexivity|]. intros i. apply (H (S i)).
Qed.

(** A text without NUL that is shorter than the field is stored as it
    is. *)
Lemma snprintf_fits (cap : nat) (s : string) :
  (forall i, String.get i s <> Some zero) -> String.length s < cap ->
  snprintf cap s = s.
Proof.
  intros Hnul Hlen. unfold snprintf.
  rewrite (c_str_no_nul s Hnul). apply substring_all. lia.
Qed.

(** On ids that fit, [strncmp] over the full array width is equality. *)
Lemma strncmp_eq_fits (a b : string) (n : nat) :
  fits n a -> fits n b -> strncmp_eq a b n = true <-> a = b.
Proof.
  intros [Ha La] [Hb Lb]. unfold strncmp_eq.
  rewrite (c_str_no_nul a Ha), (c_str_no_nul b Hb).
  rewrite !substring_all by lia. apply String.eqb_eq.
Qed.

End StrFacts.

(** ** crdt.cpp: conflict detection and resolution *)

Module CrdtFacts.
Import UpdateExt Crdt.

Lemma overlaps_comm (a b : UpdateExt.t) : overlaps a b = overlaps b a.
Proof.
  unfold overlaps.
  rewrite (N.eqb_sym (line b)), (Z.eqb_sym (cs b)).
  rewrite (andb_comm (Str.empty (old_text b))).
  rewrite (orb_comm (Int.add (cs b) _ <=? _)%Z).
  reflexivity.
Qed.

(** C10. [overlaps] is symmetric: the conflict test gives the same answer
    whichever of the two operations comes first. *)
Theorem overlaps_symmetric (a b : UpdateExt.t) : overlaps a b = overlaps b a.
Proof.
  unfold overlaps.
  rewrite (N.eqb_sym (line b) (line a)), (Z.eqb_sym (cs b) (cs a)).
  destruct (line a =? line b)%N; simpl; [|reflexivity].
  destruct (Str.empty (old_text a)), (Str.empty (old_text b)), (cs a =? cs b)%Z; simpl;
    try reflexivity; f_equal; apply orb_comm.
Qed.

(** [a] beats [b] under last-writer-wins: the later time stamp, and on
    equal time stamps the smaller author id. *)
Definition lww_winner (a b : UpdateExt.t) : Prop :=
  (ts b < ts a)%N \/ (ts a = ts b /\ Str.lex_lt (uid a) (uid b)).

Lemma lex_lt_irrefl (s : string) : ~ Str.lex_lt s s.
Proof.
  induction s as [|c s IH]; inversion 1 as [| ? ? ? ? Hlt | ? ? ? Ht]; subst; [lia | auto].
Qed.

Lemma lex_lt_asym (s t : string) : Str.lex_lt s t -> ~ Str.lex_lt t s.
Proof.
  induction 1 as [| ? ? ? ? Hlt | ? ? ? Hst IH];
    inversion 1 as [| ? ? ? ? Hlt' | ? ? ? Ht]; subst; try lia; auto.
Qed.

Lemma newer_wins_winner (a b : UpdateExt.t) :
  newer_wins a b = true <-> lww_winner a b.
Proof.
  unfold newer_wins, lww_winner.
  destruct (N.eqb_spec (ts a) (ts b)) as [E|E]; simpl.
  - rewrite StrFacts.ltb_lex_lt. split; [auto|]. intros [H|[_ H]]; [lia | exact H].
  - rewrite N.ltb_lt. split; [auto|]. intros [H|[H _]]; [exact H | contradiction].
Qed.

Lemma winner_asym (a b : UpdateExt.t) : lww_winner a b -> ~ lww_winner b a.
Proof.
  intros [H|[H1 H2]] [H'|[H1' H2']]; try lia.
  eapply lex_lt_asym; eauto.
Qed.

Lemma newer_wins_loser (a b : UpdateExt.t) :
  lww_winner a b -> newer_wins b a = false.
Proof.
  intros H. destruct (newer_wins b a) eqn:E; [|reflexivity].
  apply newer_wins_winner in E. exfalso. eapply winner_asym; eauto.
Qed.



(** *** The resolution on lists of any length *)


(** Flags only go from alive to dead. *)
Definition fewer_alive (alive alive' : list bool) : Prop :=
  forall k, alive' !! k = Some true -> alive !! k = Some true.

Lemma fewer_alive_refl alive : fewer_alive alive alive.
Proof. intros k H. exact H. Qed.

Lemma fewer_alive_trans a1 a2 a3 :
  fewer_alive a1 a2 -> fewer_alive a2 a3 -> fewer_alive a1 a3.
Proof. intros H12 H23 k H. auto. Qed.

Lemma dead_after_insert (alive : list bool) k :
  <[k := false]> alive !! k <> Some true.
Proof.
  intros H. apply list_lookup_insert_Some in H as [(_ & E & _)|(E & _)]; congruence.
Qed.

Lemma fewer_alive_insert alive k : fewer_alive alive (<[k := false]> alive).
Proof.
  intros k' H. apply list_lookup_insert_Some in H as [(_ & E & _)|(_ & E)];
    [discriminate | exact E].
Qed.

Lemma resolve_inner_spec all i a js alive :
  fewer_alive alive (resolve_inner all i a js alive) /\
  (resolve_inner all i a js alive !! i = Some true ->
   forall j b, In j js -> all !! j = Some b ->
     resolve_inner all i a js alive !! j = Some true -> overlaps a b = false).
Proof.
  revert alive. induction js as [|j js IH]; intros alive.
  { split; [apply fewer_alive_refl | intros _ j b []]. }
  cbn [resolve_inner].
  assert (Hdrop : forall alive1,
             fewer_alive alive alive1 -> alive1 !! j <> Some true ->
             fewer_alive alive (resolve_inner all i a js alive1) /\
             (resolve_inner all i a js alive1 !! i = Some true ->
              forall j0 b0, In j0 (j :: js) -> all !! j0 = Some b0 ->
                resolve_inner all i a js alive1 !! j0 = Some true ->
                overlaps a b0 = false)).
  { intros alive1 Hmono Hdead. destruct (IH alive1) as [Hm Hov]. split.
    - eapply fewer_alive_trans; eauto.
    - intros Hi j0 b0 [<-|Hin] Hb0 Hj0; [|eauto].
      exfalso. apply Hdead. apply Hm. exact Hj0. }
  destruct (alive !! j) as [[|]|] eqn:Hj; cycle 1.
  { apply Hdrop; [apply fewer_alive_refl | congruence]. }
  { apply Hdrop; [apply fewer_alive_refl | congruence]. }
  destruct (all !! j) as [b|] eqn:Hb; cycle 1.
  { destruct (IH alive) as [Hm Hov]. split; [exact Hm|].
    intros Hi j0 b0 [<-|Hin] Hb0 Hj0; [congruence | eauto]. }
  destruct (is_merged b).
  { apply Hdrop; [apply fewer_alive_insert | apply dead_after_insert]. }
  destruct (overlaps a b) eqn:Ho; cycle 1.
  { destruct (IH alive) as [Hm Hov]. split; [exact Hm|].
    intros Hi j0 b0 [<-|Hin] Hb0 Hj0; [congruence | eauto]. }
  destruct (newer_wins a b).
  { apply Hdrop; [apply fewer_alive_insert | apply dead_after_insert]. }
  split; [apply fewer_alive_insert|].
  intros Hi. exfalso. exact (dead_after_insert alive i Hi).
Qed.

Lemma resolve_at_spec all alive i :
  fewer_alive alive (resolve_at all alive i) /\
  (forall a j b, all !! i = Some a -> i < j -> all !! j = Some b ->
     resolve_at all alive i !! i = Some true ->
     resolve_at all alive i !! j = Some true -> overlaps a b = false).
Proof.
  unfold resolve_at.
  destruct (alive !! i) as [[|]|] eqn:Hi; cycle 1.
  { split; [apply fewer_alive_refl | intros; congruence]. }
  { split; [apply fewer_alive_refl | intros; congruence]. }
  destruct (all !! i) as [a|] eqn:Ha; cycle 1.
  { split; [apply fewer_alive_refl | intros; congruence]. }
  destruct (is_merged a).
  { split; [apply fewer_alive_insert|].
    intros ? j b _ _ _ H. exfalso. exact (dead_after_insert alive i H). }
  destruct (resolve_inner_spec all i a (seq (S i) (length all - S i)) alive) as [Hm Hov].
  split; [exact Hm|].
  intros a' j b [= <-] Hij Hb Hi' Hj'. apply (Hov Hi' j b); [|exact Hb | exact Hj'].
  apply in_seq. apply lookup_lt_Some in Hb. lia.
Qed.

(** Among the operations before position [k], none that is alive overlaps
    an operation behind it that is alive. *)
Definition settled (all : list UpdateExt.t) (k : nat) (alive : list bool) : Prop :=
  forall i j a b, i < k -> i < j ->
    all !! i = Some a -> all !! j = Some b ->
    alive !! i = Some true -> alive !! j = Some true -> overlaps a b = false.

Lemma settled_step all k alive :
  settled all k alive -> settled all (S k) (resolve_at all alive k).
Proof.
  intros Hs i j a b Hik Hij Ha Hb Hi Hj.
  destruct (resolve_at_spec all alive k) as [Hm Hov].
  destruct (decide (i = k)) as [->|Hne].
  - exact (Hov a j b Ha Hij Hb Hi Hj).
  - apply (Hs i j a b ltac:(lia) Hij Ha Hb); apply Hm; assumption.
Qed.

Lemma settled_fold all k m alive :
  settled all k alive -> settled all (k + m) (foldl (resolve_at all) alive (seq k m)).
Proof.
  revert k alive. induction m as [|m IH]; intros k alive Hs.
  - now rewrite Nat.add_0_r.
  - cbn [seq foldl]. replace (k + S m) with (S k + m) by lia.
    apply IH. now apply settled_step.
Qed.

(** No two operations that survive the resolution overlap. *)
Lemma resolve_conflict_free all i j a b :
  i < j -> all !! i = Some a -> all !! j = Some b ->
  resolve all !! i = Some true -> resolve all !! j = Some true ->
  overlaps a b = false.
Proof.
  intros Hij Ha Hb Hi Hj.
  assert (Hs : settled all (0 + length all) (resolve all)).
  { unfold resolve. apply settled_fold. intros ? ? ? ? ? H. lia. }
  apply (Hs i j a b); auto. apply lookup_lt_Some in Ha. lia.
Qed.

End CrdtFacts.

(** ** registry.cpp: registration *)

Module RegistryFacts.
Import Registry.

(** A taken slot that carries the id [uid], as the first loop tests it. *)
Definition registered (e : UserEntry) (uid : string) : Prop :=
  active e = 1%Z /\ Str.strncmp_eq (user_id e) uid USER_ID_MAX = true.

(** A slot on which the compare-and-swap from free to taken succeeds. *)
Definition free (e : UserEntry) : Prop := active e = 0%Z.

(** No slot before [i] satisfies [P]. *)
Definition first_at (P : UserEntry -> Prop) (us : list UserEntry) (i : nat) : Prop :=
  forall j e, j < i -> us !! j = Some e -> ~ P e.

(** For ids that fit the array, a taken slot carries [uid] exactly when
    its id is [uid]. *)
Lemma registered_fits (e : UserEntry) (uid : string) :
  StrFacts.fits USER_ID_MAX (user_id e) -> StrFacts.fits USER_ID_MAX uid ->
  registered e uid <-> active e = 1%Z /\ user_id e = uid.
Proof.
  intros He Hu. unfold registered.
  rewrite (StrFacts.strncmp_eq_fits _ _ _ He Hu). reflexivity.
Qed.

Lemma registered_dec (e : UserEntry) (uid : string) :
  (active e =? 1)%Z && Str.strncmp_eq (user_id e) uid USER_ID_MAX = true
  <-> registered e uid.
Proof.
  unfold registered. rewrite andb_true_iff, Z.eqb_eq. reflexivity.
Qed.

Lemma find_registered_Some us uid a n i :
  find_registered us uid (seq a n) = Some i ->
  a <= i < a + n /\
  (exists e, us !! i = Some e /\ registered e uid) /\
  (forall j e, a <= j < i -> us !! j = Some e -> ~ registered e uid).
Proof.
  revert a. induction n as [|n IH]; intros a; simpl; [discriminate|].
  destruct (us !! a) as [e|] eqn:Ha.
  - destruct ((active e =? 1)%Z && Str.strncmp_eq (user_id e) uid USER_ID_MAX) eqn:Hm.
    + intros [= <-]. split; [lia|]. split.
      * exists e. split; [exact Ha | now apply registered_dec].
      * intros j e' Hj. lia.
    + intros H. apply IH in H as (Hr & He & Hf).
      split; [lia|]. split; [exact He|].
      intros j e' Hj Hl. destruct (decide (j = a)) as [->|Hne].
      * rewrite Ha in Hl. injection Hl as <-. rewrite <- registered_dec, Hm. discriminate.
      * apply (Hf j e'); [lia | exact Hl].
  - intros H. apply IH in H as (Hr & He & Hf).
    split; [lia|]. split; [exact He|].
    intros j e' Hj Hl. destruct (decide (j = a)) as [->|Hne].
    + congruence.
    + apply (Hf j e'); [lia | exact Hl].
Qed.

Lemma find_registered_None us uid a n :
  find_registered us uid (seq a n) = None ->
  forall j e, a <= j < a + n -> us !! j = Some e -> ~ registered e uid.
Proof.
  revert a. induction n as [|n IH]; intros a; simpl; [intros _ j e Hj; lia|].
  destruct (us !! a) as [e|] eqn:Ha.
  - destruct ((active e =? 1)%Z && Str.strncmp_eq (user_id e) uid USER_ID_MAX) eqn:Hm;
      [discriminate|].
    intros H j e' Hj Hl. destruct (decide (j = a)) as [->|Hne].
    + rewrite Ha in Hl. injection Hl as <-. rewrite <- registered_dec, Hm. discriminate.
    + apply (IH _ H j e'); [lia | exact Hl].
  - intros H j e' Hj Hl. destruct (decide (j = a)) as [->|Hne]; [congruence|].
    apply (IH _ H j e'); [lia | exact Hl].
Qed.

Lemma claim_free_Some us uid qn a n i us' :
  claim_free us uid qn (seq a n) = Some (i, us') ->
  a <= i < a + n /\
  (exists e, us !! i = Some e /\ free e) /\
  (forall j e, a <= j < i -> us !! j = Some e -> ~ free e) /\
  us' = <[i := mkUserEntry 1 (Str.snprintf USER_ID_MAX uid)
                  (Str.snprintf QUEUE_NAME_MAX (or_empty qn))]> us.
Proof.
  revert a. induction n as [|n IH]; intros a; simpl; [discriminate|].
  destruct (us !! a) as [e|] eqn:Ha.
  - unfold compare_and_swap. destruct (Z.eqb_spec (active e) 0) as [E|E].
    + intros [= <- <-]. split; [lia|]. split; [exists e; split; [exact Ha | exact E]|].
      split; [intros j e' Hj; lia | reflexivity].
    + intros H. apply IH in H as (Hr & He & Hf & Hu).
      split; [lia|]. split; [exact He|]. split; [|exact Hu].
      intros j e' Hj Hl. destruct (decide (j = a)) as [->|Hne].
      * rewrite Ha in Hl. injection Hl as <-. exact E.
      * apply (Hf j e'); [lia | exact Hl].
  - intros H. apply IH in H as (Hr & He & Hf & Hu).
    split; [lia|]. split; [exact He|]. split; [|exact Hu].
    intros j e' Hj Hl. destruct (decide (j = a)) as [->|Hne]; [congruence|].
    apply (Hf j e'); [lia | exact Hl].
Qed.

Lemma claim_free_None us uid qn a n :
  claim_free us uid qn (seq a n) = None ->
  forall j e, a <= j < a + n -> us !! j = Some e -> ~ free e.
Proof.
  revert a. induction n as [|n IH]; intros a; simpl; [intros _ j e Hj; lia|].
  destruct (us !! a) as [e|] eqn:Ha.
  - unfold compare_and_swap. destruct (Z.eqb_spec (active e) 0) as [E|E]; [discriminate|].
    intros H j e' Hj Hl. destruct (decide (j = a)) as [->|Hne].
    + rewrite Ha in Hl. injection Hl as <-. exact E.
    + apply (IH _ H j e'); [lia | exact Hl].
  - intros H j e' Hj Hl. destruct (decide (j = a)) as [->|Hne]; [congruence|].
    apply (IH _ H j e'); [lia | exact Hl].
Qed.

(** Two indices that are both the first one to satisfy [P] are equal. *)
Lemma first_at_unique (P : UserEntry -> Prop) us i j ei ej :
  us !! i = Some ei -> P ei -> first_at P us i ->
  us !! j = Some ej -> P ej -> first_at P us j ->
  i = j.
Proof.
  intros Hi Pi Fi Hj Pj Fj.
  destruct (Nat.lt_trichotomy i j) as [H|[H|H]]; [|exact H|].
  - exfalso. apply (Fj i ei H Hi Pi).
  - exfalso. apply (Fi j ej H Hj Pj).
Qed.

Lemma in_range (us : list UserEntry) (i : nat) (e : UserEntry) :
  length us = MAX_USERS -> us !! i = Some e -> 0 <= i < 0 + MAX_USERS.
Proof. intros Hl Hi. apply lookup_lt_Some in Hi. lia. Qed.

(** C6. [registry_register] on a segment of [MAX_USERS] slots, each call
    being one atomic step.  The segment afterwards is given field by
    field: magic and version as they were, and the table.
    - If a taken slot carries the id, the first such slot is returned and
      the table is the old one with the queue name of that slot
      overwritten, its flag and id kept.
    - Otherwise the first slot whose flag the compare-and-swap moves from
      free to taken is returned, and the table is the old one with that
      slot holding flag 1, the id and the queue name (cut to the sizes of
      the two arrays).
    - The call fails exactly when no taken slot carries the id and no
      slot is free; it then returns -4 and leaves the segment as it was. *)
Theorem registry_register_spec (seg : RegistrySegment) (uid : string)
    (qn : option string) :
  length (users seg) = MAX_USERS ->
  (forall i e,
      users seg !! i = Some e -> registered e uid ->
      first_at (fun e' => registered e' uid) (users seg) i ->
      registry_register seg uid qn =
        (0%Z, Z.of_nat i,
         mkRegistrySegment (magic seg) (version seg)
           (<[i := mkUserEntry (active e) (user_id e)
                     (Str.snprintf QUEUE_NAME_MAX (or_empty qn))]> (users seg)))) /\
  ((forall j e', users seg !! j = Some e' -> ~ registered e' uid) ->
   forall i e,
      users seg !! i = Some e -> free e -> first_at free (users seg) i ->
      registry_register seg uid qn =
        (0%Z, Z.of_nat i,
         mkRegistrySegment (magic seg) (version seg)
           (<[i := mkUserEntry 1 (Str.snprintf USER_ID_MAX uid)
                     (Str.snprintf QUEUE_NAME_MAX (or_empty qn))]> (users seg)))) /\
  (fst (fst (registry_register seg uid qn)) <> 0%Z <->
   (forall j e', users seg !! j = Some e' -> ~ registered e' uid /\ ~ free e')) /\
  (fst (fst (registry_register seg uid qn)) <> 0%Z ->
   registry_register seg uid qn = ((-4)%Z, (-1)%Z, seg)).
Proof.
  intros Hlen. unfold registry_register.
  destruct (find_registered (users seg) uid (seq 0 MAX_USERS)) as [i'|] eqn:Hfind.
  - (* a taken slot carries the id *)
    apply find_registered_Some in Hfind as (Hr & (e' & He' & Hreg') & Hfirst').
    rewrite He'. simpl.
    split; [|split; [|split]].
    + intros i e Hi Hreg Hfirst.
      assert (i' = i) as ->.
      { eapply (first_at_unique (fun x => registered x uid)); eauto.
        intros j x Hj Hx. apply (Hfirst' j x); [lia | exact Hx]. }
      rewrite He' in Hi. injection Hi as <-. reflexivity.
    + intros Hno. exfalso. apply (Hno i' e' He' Hreg').
    + split; [intros H; exfalso; apply H; reflexivity|].
      intros Hno. exfalso. apply (proj1 (Hno i' e' He')). exact Hreg'.
    + intros H. exfalso. apply H. reflexivity.
  - pose proof (find_registered_None _ _ _ _ Hfind) as Hnone.
    destruct (claim_free (users seg) uid qn (seq 0 MAX_USERS)) as [[i' us']|] eqn:Hclaim.
    + (* a free slot is claimed *)
      apply claim_free_Some in Hclaim as (Hr & (e' & He' & Hfree') & Hfirst' & ->).
      simpl. split; [|split; [|split]].
      * intros i e Hi Hreg _. exfalso.
        apply (Hnone i e); [eapply in_range; eauto | exact Hi | exact Hreg].
      * intros _ i e Hi Hfree Hfirst.
        assert (i' = i) as ->.
        { eapply (first_at_unique free); eauto.
          intros j x Hj Hx. apply (Hfirst' j x); [lia | exact Hx]. }
        reflexivity.
      * split; [intros H; exfalso; apply H; reflexivity|].
        intros Hno. exfalso. apply (proj2 (Hno i' e' He')). exact Hfree'.
      * intros H. exfalso. apply H. reflexivity.
    + (* the registry is full *)
      pose proof (claim_free_None _ _ _ _ _ Hclaim) as Hfull.
      simpl. split; [|split; [|split]].
      * intros i e Hi Hreg _. exfalso.
        apply (Hnone i e); [eapply in_range; eauto | exact Hi | exact Hreg].
      * intros _ i e Hi Hfree _. exfalso.
        apply (Hfull i e); [eapply in_range; eauto | exact Hi | exact Hfree].
      * split; [|intros _; discriminate].
        intros _ j e Hj. split.
        -- apply (Hnone j e); [eapply in_range; eauto | exact Hj].
        -- apply (Hfull j e); [eapply in_range; eauto | exact Hj].
      * reflexivity.
Qed.

(** A registry with two peers, one slot released in between. *)
Definition seg_example : RegistrySegment :=
  mkRegistrySegment 1398364244 1
    [ mkUserEntry 1 "user_1" "/queue_user_1";
      mkUserEntry 0 "" "";
      mkUserEntry 1 "user_3" "/queue_user_3";
      mkUserEntry 0 "" "";
      mkUserEntry 0 "" "" ].

Lemma registry_register_spec_witness :
  length (users seg_example) = MAX_USERS /\
  registry_register seg_example "user_3" (Some "/queue_new") =
    (0%Z, 2%Z,
     mkRegistrySegment 1398364244 1
       [ mkUserEntry 1 "user_1" "/queue_user_1";
         mkUserEntry 0 "" "";
         mkUserEntry 1 "user_3" "/queue_new";
         mkUserEntry 0 "" "";
         mkUserEntry 0 "" "" ]) /\
  registry_register seg_example "user_2" (Some "/queue_user_2") =
    (0%Z, 1%Z,
     mkRegistrySegment 1398364244 1
       [ mkUserEntry 1 "user_1" "/queue_user_1";
         mkUserEntry 1 "user_2" "/queue_user_2";
         mkUserEntry 1 "user_3" "/queue_user_3";
         mkUserEntry 0 "" "";
         mkUserEntry 0 "" "" ]).
Proof.
  split; [reflexivity|]. split.
  - refine (proj1 (registry_register_spec seg_example "user_3" (Some "/queue_new") eq_refl)
              2 _ eq_refl _ _).
    + split; reflexivity.
    + intros [|[|j]] e Hj He [Ha Hs]; try lia;
        simpl in He; injection He as <-; simpl in *; discriminate.
  - refine (proj1 (proj2 (registry_register_spec seg_example "user_2"
                            (Some "/queue_user_2") eq_refl)) _ 1 _ eq_refl _ _).
    + intros [|[|[|[|[|j]]]]] e He [Ha Hs]; simpl in He; try discriminate;
        injection He as <-; simpl in *; discriminate.
    + reflexivity.
    + intros [|j] e Hj He Hf; try lia.
      simpl in He. injection He as <-. discriminate.
Defined.

End RegistryFacts.

(** ** editor.cpp: the receive ring, one producer and one consumer *)

Module RingFacts.
Import RingBuffer.

Section Ring.
Context {T : Type}.
Variable CAP : nat.
Variable d : T.
Hypothesis CAP_pos : 0 < CAP.

(** Two numbers less than [CAP] apart with the same remainder are
    equal. *)
Lemma mod_inj_near (a b : nat) :
  a <= b -> b - a < CAP -> Nat.modulo b CAP = Nat.modulo a CAP -> b = a.
Proof.
  intros Hab Hnear Hmod.
  pose proof (Nat.div_mod_eq a CAP) as Ea.
  pose proof (Nat.div_mod_eq b CAP) as Eb.
  rewrite Hmod in Eb.
  assert (Nat.div b CAP = Nat.div a CAP) by nia.
  nia.
Qed.

Lemma mod_succ (a : nat) :
  Nat.modulo (Nat.modulo a CAP + 1) CAP = Nat.modulo (a + 1) CAP.
Proof. apply Nat.Div0.add_mod_idemp_l. Qed.

(** The ring is full exactly when the two counters are [CAP - 1]
    apart. *)
Lemma full_iff (np nq : nat) :
  nq <= np -> np - nq < CAP ->
  Nat.modulo (np + 1) CAP = Nat.modulo nq CAP <-> np - nq = CAP - 1.
Proof.
  intros Hle Hroom. split.
  - intros Hmod.
    destruct (decide (np - nq = CAP - 1)) as [E|E]; [exact E|].
    assert (np + 1 = nq) by (apply mod_inj_near; [lia | lia | exact Hmod]).
    lia.
  - intros E. replace (np + 1) with (nq + 1 * CAP) by lia.
    apply Nat.Div0.mod_add.
Qed.

Lemma held_counters (np nq : nat) :
  nq <= np -> np - nq < CAP ->
  Nat.modulo (Nat.modulo np CAP + CAP - Nat.modulo nq CAP) CAP = np - nq.
Proof.
  intros Hle Hroom.
  pose proof (Nat.div_mod_eq np CAP) as Ep.
  pose proof (Nat.div_mod_eq nq CAP) as Eq.
  pose proof (Nat.mod_upper_bound np CAP ltac:(lia)) as Bp.
  pose proof (Nat.mod_upper_bound nq CAP ltac:(lia)) as Bq.
  set (rp := Nat.modulo np CAP) in *. set (rq := Nat.modulo nq CAP) in *.
  set (qp := Nat.div np CAP) in *. set (qq := Nat.div nq CAP) in *.
  destruct (le_lt_dec rq rp) as [H|H].
  - assert (qp = qq) by nia.
    replace (rp + CAP - rq) with (rp - rq + 1 * CAP) by lia.
    rewrite Nat.Div0.mod_add, Nat.mod_small by lia. nia.
  - assert (qp = S qq) by nia.
    rewrite Nat.mod_small by lia. nia.
Qed.

(** What holds between the ring and what its two users have seen, with
    the number of accepted pushes and of pops as the unbounded
    counters behind [head] and [tail]. *)
Record ring_inv (h : history (T := T)) : Prop := mkInv {
  inv_le : length (popped h) <= length (pushed h);
  inv_room : length (pushed h) - length (popped h) < CAP;
  inv_head : head (ring h) = Nat.modulo (length (pushed h)) CAP;
  inv_tail : tail (ring h) = Nat.modulo (length (popped h)) CAP;
  inv_len : length (data (ring h)) = CAP;
  inv_popped : popped h = take (length (popped h)) (pushed h);
  inv_data : forall k, length (popped h) <= k < length (pushed h) ->
               data (ring h) !! Nat.modulo k CAP = pushed h !! k
}.

Lemma inv_init : ring_inv (mkHistory (init CAP d) [] []).
Proof.
  constructor; simpl; try lia; try reflexivity.
  - symmetry. apply Nat.Div0.mod_0_l.
  - symmetry. apply Nat.Div0.mod_0_l.
  - apply length_replicate.
Qed.

Lemma inv_push (h : history) (v : T) :
  ring_inv h -> ring_inv (step CAP d h (Push v)).
Proof.
  intros [Hle Hroom Hhead Htail Hlen Hpop Hdata].
  unfold step, push. rewrite Hhead, Htail, mod_succ.
  destruct (Nat.eqb_spec (Nat.modulo (length (pushed h) + 1) CAP)
              (Nat.modulo (length (popped h)) CAP)) as [E|E].
  - constructor; assumption.
  - assert (Hnf : length (pushed h) - length (popped h) <> CAP - 1).
    { intros Hf. apply E. apply full_iff; assumption. }
    constructor; simpl; rewrite ?length_app; simpl.
    + lia.
    + lia.
    + reflexivity.
    + reflexivity.
    + rewrite length_insert. exact Hlen.
    + rewrite take_app_le by lia. exact Hpop.
    + intros k Hk.
      destruct (decide (k = length (pushed h))) as [->|Hne].
      * rewrite list_lookup_insert_eq
          by (rewrite Hlen; apply Nat.mod_upper_bound; lia).
        rewrite lookup_app_r by lia. now rewrite Nat.sub_diag.
      * rewrite list_lookup_insert_ne.
        -- rewrite lookup_app_l by lia. apply Hdata. lia.
        -- intros Heq. apply Hne. symmetry.
           apply mod_inj_near; [lia | lia | exact Heq].
Qed.

Lemma inv_pop (h : history) :
  ring_inv h -> ring_inv (step CAP d h Pop).
Proof.
  intros [Hle Hroom Hhead Htail Hlen Hpop Hdata].
  unfold step, pop. rewrite Hhead, Htail, mod_succ.
  destruct (Nat.eqb_spec (Nat.modulo (length (popped h)) CAP)
              (Nat.modulo (length (pushed h)) CAP)) as [E|E].
  - constructor; assumption.
  - assert (Hlt : length (popped h) < length (pushed h)).
    { destruct (decide (length (popped h) = length (pushed h))) as [E'|E']; [|lia].
      exfalso. apply E. now rewrite E'. }
    destruct (lookup_lt_is_Some_2 (pushed h) (length (popped h)) Hlt) as [x Hx].
    rewrite (Hdata (length (popped h))) by lia. rewrite Hx. simpl.
    constructor; simpl; rewrite ?length_app; simpl.
    + lia.
    + lia.
    + reflexivity.
    + reflexivity.
    + exact Hlen.
    + replace (length (popped h) + 1) with (S (length (popped h))) by lia.
      rewrite (take_S_r _ _ x Hx). now rewrite <- Hpop.
    + intros k Hk. apply Hdata. lia.
Qed.

Lemma inv_run (calls : list call) : ring_inv (run CAP d calls).
Proof.
  unfold run. induction calls as [|c calls IH] using rev_ind.
  - apply inv_init.
  - rewrite foldl_app. simpl. destruct c; [apply inv_push | apply inv_pop]; exact IH.
Qed.

Lemma inv_held (h : history) :
  ring_inv h -> held CAP (ring h) = length (pushed h) - length (popped h).
Proof.
  intros [Hle Hroom Hhead Htail _ _ _]. unfold held.
  rewrite Hhead, Htail. apply held_counters; assumption.
Qed.

Lemma inv_push_fails (h : history) (v : T) :
  ring_inv h ->
  fst (push CAP (ring h) v) = false <-> held CAP (ring h) = CAP - 1.
Proof.
  intros Hinv. rewrite (inv_held h Hinv).
  destruct Hinv as [Hle Hroom Hhead Htail _ _ _].
  unfold push. rewrite Hhead, Htail, mod_succ.
  rewrite <- (full_iff _ _ Hle Hroom).
  destruct (Nat.eqb_spec (Nat.modulo (length (pushed h) + 1) CAP)
              (Nat.modulo (length (popped h)) CAP)); simpl; split; congruence.
Qed.

Lemma inv_pop_fails (h : history) :
  ring_inv h ->
  fst (pop CAP d (ring h)) = None <-> held CAP (ring h) = 0.
Proof.
  intros Hinv. rewrite (inv_held h Hinv).
  destruct Hinv as [Hle Hroom Hhead Htail _ _ _].
  unfold pop. rewrite Hhead, Htail.
  destruct (Nat.eqb_spec (Nat.modulo (length (popped h)) CAP)
              (Nat.modulo (length (pushed h)) CAP)) as [E|E]; simpl.
  - split; [intros _ | reflexivity].
    symmetry in E. apply mod_inj_near in E; lia.
  - split; [discriminate|]. intros H. exfalso. apply E. f_equal. lia.
Qed.

End Ring.

(** C7. The receive ring of capacity 128 under any sequence of [push]
    and [pop] calls, each taking effect atomically.  The items popped so
    far are, in order and each once, the first accepted pushes; the ring
    holds the accepted items not yet popped; [push] fails exactly when
    it holds [CAP - 1] items, which is when [(head + 1) mod CAP] equals
    [tail]; [pop] fails exactly when it holds none, which is when [head]
    equals [tail]. *)
Theorem ring_spsc_correct {T : Type} (d : T) (calls : list (call (T := T))) :
  let CAP := Editor.RECV_CAP in
  let h := run CAP d calls in
  popped h `prefix_of` pushed h /\
  popped h = take (length (popped h)) (pushed h) /\
  held CAP (ring h) = length (pushed h) - length (popped h) /\
  (forall v, fst (push CAP (ring h) v) = false <-> held CAP (ring h) = CAP - 1) /\
  (forall v, fst (push CAP (ring h) v) = false <->
             Nat.modulo (head (ring h) + 1) CAP = tail (ring h)) /\
  (fst (pop CAP d (ring h)) = None <-> held CAP (ring h) = 0) /\
  (fst (pop CAP d (ring h)) = None <-> tail (ring h) = head (ring h)).
Proof.
  intros CAP h.
  assert (Hpos : 0 < CAP) by (unfold CAP, Editor.RECV_CAP; lia).
  pose proof (inv_run CAP d Hpos calls) as Hinv. fold h in Hinv.
  split; [|split; [|split; [|split; [|split; [|split]]]]].
  - exists (drop (length (popped h)) (pushed h)).
    transitivity (take (length (popped h)) (pushed h)
                  ++ drop (length (popped h)) (pushed h)).
    + symmetry. apply take_drop.
    + f_equal. symmetry. apply (inv_popped _ _ Hinv).
  - apply (inv_popped _ _ Hinv).
  - apply inv_held; assumption.
  - intros v. apply inv_push_fails; assumption.
  - intros v. unfold push. cbv zeta.
    destruct (Nat.eqb_spec (Nat.modulo (head (ring h) + 1) CAP) (tail (ring h)));
      cbn [fst]; split; congruence.
  - apply inv_pop_fails; assumption.
  - unfold pop. cbv zeta.
    destruct (Nat.eqb_spec (tail (ring h)) (head (ring h))); cbn [fst]; split; congruence.
Qed.

End RingFacts.

(** ** editor.cpp: the records made by change detection *)

Module DetectFacts.
Import Editor.

(** The relation between the columns and the replaced text of every
    record the three detection loops make: the end column is inclusive
    when text is replaced or removed, and equals the start column for a
    pure insertion. *)
Definition col_end_rule (col_start col_end : Z) (old : string) : Prop :=
  (old = "" -> col_end = col_start) /\
  (old <> "" -> col_end = (col_start + Str.size old - 1)%Z).

Definition change_ok (c : Change.t) : Prop :=
  col_end_rule (Change.col_start c) (Change.col_end c) (Change.old_text c).

Lemma empty_iff (s : string) : Str.empty s = true <-> s = "".
Proof. destruct s; simpl; split; congruence. Qed.

(** The two scanning loops are given enough rounds: what they return is
    a value at which the loop condition is false, not a value at which the
    rounds ran out. *)
Lemma scan_prefix_exits fuel oldL newL max_common_left cs :
  (max_common_left - cs <= Z.of_nat fuel)%Z ->
  let r := scan_prefix fuel oldL newL max_common_left cs in
  (cs <= r)%Z /\ (r <? max_common_left)%Z && same_char oldL r newL r = false.
Proof.
  revert cs. induction fuel as [|fuel IH]; intros cs Hfuel; simpl.
  - split; [lia|]. destruct (Z.ltb_spec cs max_common_left); [lia | reflexivity].
  - destruct ((cs <? max_common_left)%Z && same_char oldL cs newL cs) eqn:E.
    + destruct (IH (cs + 1)%Z ltac:(lia)) as [Hle Hex]. split; [lia | exact Hex].
    + split; [lia | exact E].
Qed.

Lemma scan_suffix_exits fuel oldL newL old_len new_len cs tail :
  (old_len - cs - tail <= Z.of_nat fuel)%Z ->
  let r := scan_suffix fuel oldL newL old_len new_len cs tail in
  (tail <= r)%Z /\
  (r <? old_len - cs)%Z && (r <? new_len - cs)%Z
  && same_char oldL (old_len - 1 - r) newL (new_len - 1 - r) = false.
Proof.
  revert tail. induction fuel as [|fuel IH]; intros tail Hfuel; simpl.
  - split; [lia|]. destruct (Z.ltb_spec tail (old_len - cs)); [lia | reflexivity].
  - destruct ((tail <? old_len - cs)%Z && (tail <? new_len - cs)%Z
              && same_char oldL (old_len - 1 - tail) newL (new_len - 1 - tail)) eqn:E.
    + destruct (IH (tail + 1)%Z ltac:(lia)) as [Hle Hex]. split; [lia | exact Hex].
    + split; [lia | exact E].
Qed.

Lemma diff_line_scans_exit (oldL newL : string) :
  let old_len := Str.size oldL in
  let new_len := Str.size newL in
  let max_common_left := Z.min old_len new_len in
  let cs := scan_prefix (Z.to_nat max_common_left) oldL newL max_common_left 0 in
  let tail := scan_suffix (Z.to_nat (old_len - cs)) oldL newL old_len new_len cs 0 in
  (cs <? max_common_left)%Z && same_char oldL cs newL cs = false /\
  (tail <? old_len - cs)%Z && (tail <? new_len - cs)%Z
  && same_char oldL (old_len - 1 - tail) newL (new_len - 1 - tail) = false.
Proof.
  intros old_len new_len max_common_left cs tail. split.
  - apply scan_prefix_exits. lia.
  - apply scan_suffix_exits. lia.
Qed.

Lemma diff_line_ok i oldL newL lc c :
  diff_line i oldL newL lc = Some c -> change_ok c.
Proof.
  unfold diff_line.
  destruct (String.eqb oldL newL); [discriminate|]. cbv zeta.
  match goal with
  | |- context [String.eqb ?o ?n] => set (old_seg := o); set (new_seg := n)
  end.
  destruct (String.eqb old_seg new_seg); [discriminate|].
  intros [= <-]. unfold change_ok, col_end_rule; simpl.
  destruct (Str.empty old_seg) eqn:E.
  - apply empty_iff in E. split; [reflexivity | congruence].
  - split; [|reflexivity]. intros H. apply empty_iff in H. congruence.
Qed.

Section Invariant.
Variable g_user_id : string.
Variable now_ns : nat -> N.
(** The buffers before the file is looked at. *)
Variable st0 : detect_state.

(** Every record added to the two buffers comes from a change that obeys
    the rule. *)
Definition made_ok (st : detect_state) : Prop :=
  (forall u, In u (local_unmerged st) ->
     In u (local_unmerged st0) \/
     exists c now, change_ok c /\ u = change_to_ext g_user_id now c) /\
  (forall m, In m (local_ops st) ->
     In m (local_ops st0) \/
     exists c now, change_ok c /\ m = to_message g_user_id now c).

Lemma made_ok_reset lc b n :
  made_ok (mkDetect lc b (local_ops st0) (local_unmerged st0) n (ticks st0)).
Proof. split; simpl; auto. Qed.

Lemma made_ok_buffer c st :
  change_ok c -> made_ok st -> made_ok (buffer_op g_user_id now_ns c st).
Proof.
  intros Hc [Hu Hm]. split; simpl; intros x Hx; apply in_app_or in Hx as [Hx|Hx].
  - auto.
  - destruct Hx as [<-|[]]. right. eauto.
  - auto.
  - destruct Hx as [<-|[]]. right. eauto.
Qed.

Lemma made_ok_changed prev_lines new_lines st i :
  made_ok st -> made_ok (changed_line g_user_id now_ns prev_lines new_lines st i).
Proof.
  intros H. unfold changed_line.
  destruct (prev_lines !! i); [|exact H].
  destruct (new_lines !! i); [|exact H].
  destruct (diff_line _ _ _ _) eqn:E; [|exact H].
  apply made_ok_buffer; [eapply diff_line_ok; eauto | exact H].
Qed.

Lemma made_ok_added new_lines st i :
  made_ok st -> made_ok (added_line g_user_id now_ns new_lines st i).
Proof.
  intros H. unfold added_line.
  destruct (new_lines !! i) as [l|]; [|exact H].
  destruct (Str.empty l) eqn:E; [exact H|].
  apply made_ok_buffer; [|exact H].
  split; simpl; [reflexivity | congruence].
Qed.

Lemma made_ok_removed prev_lines st i :
  made_ok st -> made_ok (removed_line g_user_id now_ns prev_lines st i).
Proof.
  intros H. unfold removed_line.
  destruct (prev_lines !! i) as [l|]; [|exact H].
  destruct (Str.empty l) eqn:E; [exact H|].
  apply made_ok_buffer; [|exact H].
  split; simpl; [|intros _; lia].
  intros ->. discriminate.
Qed.

Lemma foldl_made_ok (f : detect_state -> nat -> detect_state) (l : list nat) st :
  (forall s i, made_ok s -> made_ok (f s i)) -> made_ok st -> made_ok (foldl f st l).
Proof.
  intros Hf. revert st. induction l as [|i l IH]; intros st H; simpl; auto.
Qed.

Lemma made_ok_detect now_time prev_lines new_lines :
  made_ok (detect_changes g_user_id now_ns now_time prev_lines new_lines st0).
Proof.
  unfold detect_changes.
  apply foldl_made_ok; [intros; now apply made_ok_removed|].
  apply foldl_made_ok; [intros; now apply made_ok_added|].
  apply foldl_made_ok; [intros; now apply made_ok_changed|].
  apply made_ok_reset.
Qed.

End Invariant.

(** C8, as the code has it.  Every record that change detection adds to
    [local_unmerged] and to [local_ops] has
    [col_end = col_start + len(old_text) - 1] when [old_text] is not
    empty, and [col_end = col_start] when it is empty (a pure insertion).
    A record of the wire form is the message [to_message] makes of a
    change that obeys this rule: its two columns are those of the change
    and its old text is the one of the change, cut to the 255 bytes of the
    field; so the rule holds for the fields of the message itself whenever
    the old text fits the field. *)
Theorem col_end_of_detected (g_user_id : string) (now_ns : nat -> N)
    (now_time : string) (prev_lines new_lines : list string) (st : detect_state) :
  let st' := detect_changes g_user_id now_ns now_time prev_lines new_lines st in
  (forall u, In u (local_unmerged st') ->
     In u (local_unmerged st) \/
     col_end_rule (UpdateExt.cs u) (UpdateExt.ce u) (UpdateExt.old_text u)) /\
  (forall m, In m (local_ops st') ->
     In m (local_ops st) \/
     exists c now,
       m = to_message g_user_id now c /\
       col_end_rule (Change.col_start c) (Change.col_end c) (Change.old_text c) /\
       UpdateMessage.col_start m = Change.col_start c /\
       UpdateMessage.col_end m = Change.col_end c /\
       UpdateMessage.old_text m = Str.snprintf TEXT_SEG_MAX (Change.old_text c) /\
       ((forall i, String.get i (Change.old_text c) <> Some zero) ->
        String.length (Change.old_text c) < TEXT_SEG_MAX ->
        UpdateMessage.old_text m = Change.old_text c /\
        col_end_rule (UpdateMessage.col_start m) (UpdateMessage.col_end m)
          (UpdateMessage.old_text m))).
Proof.
  intros st'.
  destruct (made_ok_detect g_user_id now_ns st now_time prev_lines new_lines)
    as [Hu Hm].
  fold st' in Hu, Hm. split.
  - intros u Hin. destruct (Hu u Hin) as [H|(c & now & Hc & ->)]; [now left|].
    right. exact Hc.
  - intros m Hin. destruct (Hm m Hin) as [H|(c & now & Hc & ->)]; [now left|].
    right. exists c, now. cbn [to_message UpdateMessage.col_start UpdateMessage.col_end
      UpdateMessage.old_text].
    split; [reflexivity|]. split; [exact Hc|].
    split; [reflexivity|]. split; [reflexivity|]. split; [reflexivity|].
    intros Hnul Hlen. rewrite StrFacts.snprintf_fits by assumption.
    split; [reflexivity|exact Hc].
Qed.

(** The buffers of a peer that has not edited yet. *)
Definition idle : detect_state :=
  mkDetect (Change.mk (-1) (-1) (-1) "" "" "" "" "none") false [] [] 0 0.

(** One peer types an X in the middle of the only line. *)
Definition insert_example : detect_state :=
  detect_changes "user_1" N.of_nat "12:00:00" ["ab"] ["aXb"] idle.

Lemma col_end_of_detected_witness :
  let m := UpdateMessage.mk "user_1" 0 0 1 1 Insert "" "X" in
  In m (local_ops insert_example) /\
  (In m (local_ops idle) \/
   exists c now,
     m = to_message "user_1" now c /\
     col_end_rule (Change.col_start c) (Change.col_end c) (Change.old_text c) /\
     UpdateMessage.col_start m = Change.col_start c /\
     UpdateMessage.col_end m = Change.col_end c /\
     UpdateMessage.old_text m = Str.snprintf TEXT_SEG_MAX (Change.old_text c) /\
     ((forall i, String.get i (Change.old_text c) <> Some zero) ->
      String.length (Change.old_text c) < TEXT_SEG_MAX ->
      UpdateMessage.old_text m = Change.old_text c /\
      col_end_rule (UpdateMessage.col_start m) (UpdateMessage.col_end m)
        (UpdateMessage.old_text m))).
Proof.
  intros m. split; [left; reflexivity|].
  exact (proj2 (col_end_of_detected "user_1" N.of_nat "12:00:00" ["ab"] ["aXb"] idle)
           m (or_introl eq_refl)).
Defined.

(** C8 as the specification states it fails on a pure insertion: the
    record made for typing an X between a and b has
    [col_end = col_start = 1], not [col_start - 1]. *)
Lemma col_end_pure_insertion_counterexample :
  local_ops insert_example = [UpdateMessage.mk "user_1" 0 0 1 1 Insert "" "X"] /\
  local_unmerged insert_example = [UpdateExt.mk 1 "user_1" 0 1 1 Insert "" "X"] /\
  ~ (forall m, In m (local_ops insert_example) ->
       UpdateMessage.col_end m =
       (UpdateMessage.col_start m + Str.size (UpdateMessage.old_text m) - 1)%Z) /\
  ~ (forall u, In u (local_unmerged insert_example) ->
       UpdateExt.ce u = (UpdateExt.cs u + Str.size (UpdateExt.old_text u) - 1)%Z).
Proof.
  assert (E1 : local_ops insert_example
               = [UpdateMessage.mk "user_1" 0 0 1 1 Insert "" "X"]) by reflexivity.
  assert (E2 : local_unmerged insert_example
               = [UpdateExt.mk 1 "user_1" 0 1 1 Insert "" "X"]) by reflexivity.
  split; [exact E1|]. split; [exact E2|]. split.
  - rewrite E1. intros H. specialize (H _ (or_introl eq_refl)).
    simpl in H. discriminate.
  - rewrite E2. intros H. specialize (H _ (or_introl eq_refl)).
    simpl in H. discriminate.
Qed.

End DetectFacts.

(** ** editor.cpp: draining the ring into [recv_unmerged] *)

Module DrainFacts.
Import RingBuffer Editor.

Section Queue.
Context {T : Type}.
Variable CAP : nat.
Variable d : T.

(** Indices handed out by the ring stay below [CAP]. *)
Definition in_bounds (r : RingBuffer.t (T := T)) : Prop :=
  head r < CAP /\ tail r < CAP.

(** The items a consumer gets from [r] when nothing is pushed meanwhile:
    the slots from [tail] up to [head], wrapping around. *)
Definition queued (r : RingBuffer.t (T := T)) : list T :=
  (fun k => default d (data r !! Nat.modulo (tail r + k) CAP)) <$> seq 0 (held CAP r).

Lemma held_cases (r : RingBuffer.t (T := T)) :
  in_bounds r ->
  held CAP r = if le_lt_dec (tail r) (head r) then head r - tail r
               else head r + CAP - tail r.
Proof.
  intros [Hh Ht]. unfold held. destruct (le_lt_dec (tail r) (head r)) as [H|H].
  - replace (head r + CAP - tail r) with (head r - tail r + 1 * CAP) by lia.
    rewrite Nat.Div0.mod_add. apply Nat.mod_small. lia.
  - apply Nat.mod_small. lia.
Qed.

Lemma pop_empty (r : RingBuffer.t (T := T)) :
  in_bounds r -> tail r = head r -> queued r = [].
Proof.
  intros Hb E. unfold queued. rewrite (held_cases r Hb).
  destruct (le_lt_dec (tail r) (head r)); [|lia].
  replace (head r - tail r) with 0 by lia. reflexivity.
Qed.

(** A successful [pop] returns the first queued item and leaves the
    others. *)
Lemma pop_next (r : RingBuffer.t (T := T)) :
  in_bounds r -> tail r <> head r ->
  let r' := mk (head r) (Nat.modulo (tail r + 1) CAP) (data r) in
  in_bounds r' /\
  held CAP r = S (held CAP r') /\
  queued r = default d (data r !! tail r) :: queued r'.
Proof.
  intros Hb Hne r'.
  assert (Hb' : in_bounds r').
  { destruct Hb as [Hh Ht]. split; simpl; [exact Hh|].
    apply Nat.mod_upper_bound. lia. }
  assert (Hheld : held CAP r = S (held CAP r')).
  { rewrite (held_cases r Hb), (held_cases r' Hb'). unfold r'. cbn [head tail].
    destruct Hb as [Hh Ht].
    destruct (decide (tail r + 1 = CAP)) as [E|E].
    - rewrite E, Nat.Div0.mod_same.
      destruct (le_lt_dec (tail r) (head r)), (le_lt_dec 0 (head r)); lia.
    - rewrite (Nat.mod_small (tail r + 1)) by lia.
      destruct (le_lt_dec (tail r) (head r)), (le_lt_dec (tail r + 1) (head r)); lia. }
  split; [exact Hb'|]. split; [exact Hheld|].
  unfold queued. rewrite Hheld. unfold r'. cbn [head tail data seq fmap list_fmap].
  rewrite Nat.add_0_r, (Nat.mod_small (tail r)) by apply Hb.
  f_equal. rewrite <- seq_shift, <- list_fmap_compose.
  apply list_fmap_ext. intros _ k _. simpl.
  rewrite Nat.Div0.add_mod_idemp_l. do 3 f_equal. lia.
Qed.

End Queue.

Section Drain.
Variable g_user_id : string.

(** The test of lines 349 and 521 on the sender of a message. *)
Definition from_self (m : UpdateMessage.t) : bool :=
  Str.strncmp_eq (UpdateMessage.sender m) g_user_id Registry.USER_ID_MAX.

(** For ids that fit the array, the test is equality of the sender and the
    local id. *)
Lemma from_self_fits (m : UpdateMessage.t) :
  StrFacts.fits Registry.USER_ID_MAX (UpdateMessage.sender m) ->
  StrFacts.fits Registry.USER_ID_MAX g_user_id ->
  from_self m = true <-> UpdateMessage.sender m = g_user_id.
Proof. intros Hm Hg. apply StrFacts.strncmp_eq_fits; assumption. Qed.

(** A message this peer has made carries its id, when the id fits. *)
Lemma own_message_from_self (now : N) (c : Change.t) :
  StrFacts.fits Registry.USER_ID_MAX g_user_id ->
  from_self (to_message g_user_id now c) = true.
Proof.
  intros Hg. unfold from_self, to_message. cbn [UpdateMessage.sender].
  destruct Hg as [Hnul Hlen]. rewrite StrFacts.snprintf_fits by assumption.
  apply StrFacts.strncmp_eq_refl.
Qed.

(** The operations the loop makes of a list of messages. *)
Definition accepted (ms : list UpdateMessage.t) : list UpdateExt.t :=
  to_ext <$> List.filter (fun m => negb (from_self m)) ms.

(** With one more round than there are queued messages, the loop reaches
    its break; the ring is then empty and [recv_unmerged] has grown by the
    queued messages that are not from this peer, in their order. *)
Lemma drain_spec (fuel : nat) (st : drain_state) :
  in_bounds RECV_CAP (g_recv_buf st) ->
  held RECV_CAP (g_recv_buf st) < fuel ->
  exists st',
    drain g_user_id fuel st = Some st' /\
    tail (g_recv_buf st') = head (g_recv_buf st') /\
    recv_unmerged st' =
      recv_unmerged st ++ accepted (queued RECV_CAP msg_default (g_recv_buf st)).
Proof.
  revert st. induction fuel as [|fuel IH]; intros st Hb Hfuel; [lia|].
  simpl. unfold pop. cbv zeta.
  destruct (Nat.eqb_spec (tail (g_recv_buf st)) (head (g_recv_buf st))) as [E|E].
  - exists st. split; [reflexivity|]. split; [exact E|].
    rewrite (pop_empty RECV_CAP msg_default _ Hb E). unfold accepted. simpl.
    now rewrite app_nil_r.
  - destruct (pop_next RECV_CAP msg_default _ Hb E) as (Hb' & Hheld & Hq).
    set (tmp := default msg_default (data (g_recv_buf st) !! tail (g_recv_buf st))) in *.
    set (r' := mk (head (g_recv_buf st))
                  (Nat.modulo (tail (g_recv_buf st) + 1) RECV_CAP)
                  (data (g_recv_buf st))) in *.
    rewrite Hq. unfold accepted. cbn [List.filter]. fold (from_self tmp).
    destruct (from_self tmp) eqn:Hself; cbn [negb].
    + destruct (IH (mkDrain r' (recv_unmerged st) (got_updates st) (g_last_sender st)))
        as (st' & Hd & He & Hr); [exact Hb' | cbn [g_recv_buf]; lia |].
      exists st'. split; [exact Hd|]. split; [exact He|]. exact Hr.
    + destruct (IH (mkDrain r' (recv_unmerged st ++ [to_ext tmp]) true
                      (Str.snprintf Registry.USER_ID_MAX (UpdateMessage.sender tmp))))
        as (st' & Hd & He & Hr); [exact Hb' | cbn [g_recv_buf]; lia |].
      exists st'. split; [exact Hd|]. split; [exact He|].
      rewrite Hr. cbn [g_recv_buf recv_unmerged].
      rewrite fmap_cons, <- app_assoc. reflexivity.
Qed.

Lemma held_lt_cap (r : RingBuffer.t (T := UpdateMessage.t)) :
  held RECV_CAP r < RECV_CAP.
Proof. unfold held. apply Nat.mod_upper_bound. unfold RECV_CAP. lia. Qed.

(** An operation made from a message that is not from this peer does not
    carry this peer's id. *)
Lemma to_ext_not_self (m : UpdateMessage.t) :
  from_self m = false ->
  Str.strncmp_eq (UpdateExt.uid (to_ext m)) g_user_id Registry.USER_ID_MAX = false /\
  UpdateExt.uid (to_ext m) <> g_user_id.
Proof.
  unfold from_self. intros H. simpl.
  rewrite StrFacts.strncmp_eq_c_str. split; [exact H|].
  intros E. rewrite <- (StrFacts.strncmp_eq_c_str (UpdateMessage.sender m)) in H.
  rewrite E, StrFacts.strncmp_eq_refl in H. discriminate.
Qed.

Lemma accepted_not_self (ms : list UpdateMessage.t) (e : UpdateExt.t) :
  In e (accepted ms) ->
  Str.strncmp_eq (UpdateExt.uid e) g_user_id Registry.USER_ID_MAX = false /\
  UpdateExt.uid e <> g_user_id.
Proof.
  unfold accepted. intros H. apply list_elem_of_In, list_elem_of_fmap in H.
  destruct H as (m & -> & Hm). apply list_elem_of_In, filter_In in Hm.
  destruct Hm as [_ Hm]. apply to_ext_not_self. now apply negb_true_iff.
Qed.

End Drain.

(** C9. Both drain loops of the editor iteration, run on a ring whose
    indices are below the capacity, reach their break within 128 rounds and
    leave the ring empty.  [recv_unmerged] grows by exactly the queued
    messages whose sender differs from the local user id, in their order:
    a message whose sender equals the local id is popped and discarded.  No
    operation added to [recv_unmerged] carries the local user id, and no
    message this peer has made leaves an operation there (its user id
    fitting the 32 bytes of the sender field). *)
Theorem self_messages_filtered (g_user_id : string) (st : drain_state) :
  in_bounds RECV_CAP (g_recv_buf st) ->
  forall pass,
    pass = drain_received g_user_id \/ pass = drain_after_merge g_user_id ->
    exists st',
      pass RECV_CAP st = Some st' /\
      tail (g_recv_buf st') = head (g_recv_buf st') /\
      recv_unmerged st' =
        recv_unmerged st ++
        accepted g_user_id (queued RECV_CAP msg_default (g_recv_buf st)) /\
      (forall m, In m (queued RECV_CAP msg_default (g_recv_buf st)) ->
         from_self g_user_id m = true ->
         ~ In (to_ext m) (accepted g_user_id (queued RECV_CAP msg_default (g_recv_buf st)))) /\
      (forall e, In e (recv_unmerged st') ->
         In e (recv_unmerged st) \/
         (Str.strncmp_eq (UpdateExt.uid e) g_user_id Registry.USER_ID_MAX = false /\
          UpdateExt.uid e <> g_user_id)) /\
      (StrFacts.fits Registry.USER_ID_MAX g_user_id ->
       forall now c,
         ~ In (to_ext (to_message g_user_id now c))
              (accepted g_user_id (queued RECV_CAP msg_default (g_recv_buf st)))).
Proof.
  intros Hb pass Hpass.
  assert (Hd : exists st',
             pass RECV_CAP st = Some st' /\
             tail (g_recv_buf st') = head (g_recv_buf st') /\
             recv_unmerged st' =
               recv_unmerged st ++
               accepted g_user_id (queued RECV_CAP msg_default (g_recv_buf st))).
  { destruct Hpass as [-> | ->]; unfold drain_received, drain_after_merge;
      apply (drain_spec g_user_id RECV_CAP
               (mkDrain (g_recv_buf st) (recv_unmerged st) false (g_last_sender st)));
      try exact Hb; apply held_lt_cap. }
  destruct Hd as (st' & Hrun & Hempty & Hrecv).
  assert (Hdisc : forall m (ms : list UpdateMessage.t),
             from_self g_user_id m = true -> ~ In (to_ext m) (accepted g_user_id ms)).
  { intros m ms Hself Hin. apply accepted_not_self in Hin as [Hin _].
    simpl in Hin. rewrite StrFacts.strncmp_eq_c_str in Hin.
    unfold from_self in Hself. congruence. }
  exists st'. split; [exact Hrun|]. split; [exact Hempty|]. split; [exact Hrecv|].
  split; [|split].
  - intros m _ Hself. now apply Hdisc.
  - intros e Hin. rewrite Hrecv in Hin. apply in_app_or in Hin as [Hin|Hin].
    + now left.
    + right. eapply accepted_not_self; eauto.
  - intros Hfit now c. apply Hdisc. now apply own_message_from_self.
Qed.

(** A user id of 32 characters does not fit the sender field: the
    messages of this peer carry its first 31 characters, and the test of
    the drain loops does not recognise them. *)
Example long_id_not_recognised :
  let id := "user_012345678901234567890123456" in
  String.length id = 32 /\
  from_self id (to_message id 5 (Change.mk 0 8 9 "10" "11" "" id "replace")) = false.
Proof. split; reflexivity. Qed.

(** Three messages wait in the ring of user_1; the second one is its
    own. *)
Definition msg_of (sender : string) (now : N) : UpdateMessage.t :=
  UpdateMessage.mk sender now 0 8 9 Replace "10" "11".

Definition drain_example : drain_state :=
  mkDrain
    (ring (run RECV_CAP msg_default
             [Push (msg_of "user_2" 5); Push (msg_of "user_1" 6); Push (msg_of "user_3" 7)]))
    [] false "".

Lemma self_messages_filtered_witness :
  in_bounds RECV_CAP (g_recv_buf drain_example) /\
  exists st',
    drain_received "user_1" RECV_CAP drain_example = Some st' /\
    recv_unmerged st' = [to_ext (msg_of "user_2" 5); to_ext (msg_of "user_3" 7)].
Proof.
  assert (Hb : in_bounds RECV_CAP (g_recv_buf drain_example)).
  { split; vm_compute; lia. }
  split; [exact Hb|].
  destruct (self_messages_filtered "user_1" drain_example Hb _ (or_introl eq_refl))
    as (st' & Hrun & _ & Hrecv & _).
  exists st'. split; [exact Hrun|]. rewrite Hrecv. reflexivity.
Defined.

End DrainFacts.

(** ** crdt.cpp: the merge as a whole *)

Module MergeFacts.
Import UpdateExt Crdt.

(** The merge sees its two input vectors only through their
    concatenation, and does not look at [self_uid]. *)
Lemma merge_split_irrelevant (lines : list string)
    (local1 recv1 local2 recv2 : list UpdateExt.t) (uid1 uid2 : string) :
  local1 ++ recv1 = local2 ++ recv2 ->
  do_merge_apply lines local1 recv1 uid1 = do_merge_apply lines local2 recv2 uid2.
Proof.
  intros E. unfold do_merge_apply, surviving. rewrite <- E.
  destruct local1 as [|a l1], recv1 as [|b r1]; simpl in E;
    destruct local2 as [|c l2], recv2 as [|e r2]; simpl in E;
    try discriminate; reflexivity.
Qed.

(** *** Three operations whose ranges overlap pairwise but not all *)

(** Line 0 is "abcdefgh" on every peer.  user_1 replaces "ab", user_2
    then "bcd", user_3 then "de": the first and the third range are apart,
    the second one meets both. *)
Definition op_a : UpdateExt.t := mk 1 "user_1" 0 0 1 Replace "ab" "X".
Definition op_b : UpdateExt.t := mk 2 "user_2" 0 1 3 Replace "bcd" "Y".
Definition op_c : UpdateExt.t := mk 3 "user_3" 0 3 4 Replace "de" "Z".

(** The three operations are the records change detection makes of the
    three edits, each on its own peer. *)
Example overlapping_edits_detected :
  Editor.local_unmerged
    (Editor.detect_changes "user_1" (fun _ => 1%N) "12:00:00"
       ["abcdefgh"] ["Xcdefgh"] DetectFacts.idle) = [op_a] /\
  Editor.local_unmerged
    (Editor.detect_changes "user_2" (fun _ => 2%N) "12:00:00"
       ["abcdefgh"] ["aYefgh"] DetectFacts.idle) = [op_b] /\
  Editor.local_unmerged
    (Editor.detect_changes "user_3" (fun _ => 3%N) "12:00:00"
       ["abcdefgh"] ["abcZfgh"] DetectFacts.idle) = [op_c].
Proof. repeat split; reflexivity. Qed.

(** C1 on a concrete input.  user_1 merges its own operation with the two
    it received, user_2 does the same: both merge the same three
    operations from the same baseline, in the order local then received.
    At user_1 the resolution loop drops [op_a] (it loses against [op_b])
    and then [op_b] (it loses against [op_c]); at user_2 [op_b] is dropped
    first, so [op_a] never meets it and survives.  The two documents
    differ after normalization. *)
Theorem merge_depends_on_order :
  Permutation ([op_a] ++ [op_b; op_c]) ([op_b] ++ [op_c; op_a]) /\
  surviving [op_a] [op_b; op_c] = [op_c] /\
  surviving [op_b] [op_c; op_a] = [op_c; op_a] /\
  normalize (lines_out (do_merge_apply ["abcdefgh"] [op_a] [op_b; op_c] "user_1"))
    = ["abcZfgh"] /\
  normalize (lines_out (do_merge_apply ["abcdefgh"] [op_b] [op_c; op_a] "user_2"))
    = ["XcZfgh"].
Proof.
  split.
  - simpl. change [op_b; op_c; op_a] with ([op_b; op_c] ++ [op_a]).
    apply (Permutation_app_comm [op_a] [op_b; op_c]).
  - repeat split; reflexivity.
Qed.

(** *** An operation whose [old_text] is not in the line *)

(** The line reads 99 where the operation expects 10. *)
Definition op_stale : UpdateExt.t := mk 5 "user_2" 0 8 9 Replace "10" "42".

(** C3 on a concrete input.  Neither the single-operation applier nor the
    application loop of the merge compares [old_text] with the line: the
    stale operation overwrites the segment. *)
Theorem stale_operation_is_applied :
  Str.substr "int x = 99;" 8 2 = "99" /\
  old_text op_stale = "10" /\
  apply_update_to_line "int x = 99;" op_stale = "int x = 42;" /\
  do_merge_apply ["int x = 99;"] [] [op_stale] "user_1"
    = MergeResult true ["int x = 42;"] [] [].
Proof. repeat split; reflexivity. Qed.

(** *** An operation of the merging peer that the line already shows *)

(** user_1 has replaced 10 by 100; the line it merges into already reads
    100 at column 8. *)
Definition op_own : UpdateExt.t := mk 5 "user_1" 0 8 9 Replace "10" "100".

(** C5 as the specification states it fails: the merge of user_1 applies
    the operation of user_1 again although the segment at [col_start]
    already equals [new_text]. *)
Lemma own_operation_reapplied_counterexample :
  uid op_own = "user_1" /\
  Str.substr "int x = 100;" (Z.to_nat (cs op_own)) (String.length (new_text op_own))
    = new_text op_own /\
  lines_out (do_merge_apply ["int x = 100;"] [op_own] [] "user_1") = ["int x = 1000;"] /\
  lines_out (do_merge_apply ["int x = 100;"] [op_own] [] "user_1") <> ["int x = 100;"].
Proof. repeat split; try reflexivity. discriminate. Qed.

Lemma extend_lines_in_range (lines : list string) (n : nat) :
  n < length lines -> extend_lines lines n = lines.
Proof.
  intros H. unfold extend_lines.
  replace (S n - length lines) with 0 by lia. apply app_nil_r.
Qed.

Lemma resolve_single (u : UpdateExt.t) :
  is_merged u = false -> resolve [u] = [true].
Proof.
  intros H. unfold resolve, resolve_at. simpl. rewrite H. reflexivity.
Qed.

Lemma surviving_single (u : UpdateExt.t) :
  is_merged u = false -> surviving [u] [] = [u].
Proof.
  intros H. unfold surviving. simpl. change (coalesce [u]) with [u].
  rewrite (resolve_single u H). reflexivity.
Qed.

(** The merge of one operation that is not tombstoned, on a line the
    document has. *)
Lemma merge_single (lines : list string) (u : UpdateExt.t) (cur : string) :
  is_merged u = false ->
  lines !! N.to_nat (line u) = Some cur ->
  foldl apply_line lines (group_by_line [u])
    = <[N.to_nat (line u) := fst (apply_one (cur, 0%Z) u)]> lines.
Proof.
  intros Hm Hl. simpl. unfold apply_line. simpl.
  rewrite extend_lines_in_range by (eapply lookup_lt_Some; eauto).
  rewrite Hl. reflexivity.
Qed.

(** The merge of a single operation does not depend on the buffer it
    comes in nor on [self_uid]. *)
Lemma merge_one_operation (lines : list string) (u : UpdateExt.t)
    (cur self_uid : string) :
  is_merged u = false ->
  lines !! N.to_nat (line u) = Some cur ->
  do_merge_apply lines [u] [] self_uid
    = MergeResult true (<[N.to_nat (line u) := fst (apply_one (cur, 0%Z) u)]> lines) [] [] /\
  do_merge_apply lines [] [u] self_uid = do_merge_apply lines [u] [] self_uid /\
  do_merge_apply lines [u] [] (uid u) = do_merge_apply lines [u] [] self_uid /\
  (forall lines' local_unmerged recv_unmerged other_uid,
     do_merge_apply lines' local_unmerged recv_unmerged other_uid
     = do_merge_apply lines' local_unmerged recv_unmerged self_uid).
Proof.
  intros Hm Hl. split; [|split; [|split]]; [| | |intros; now apply merge_split_irrelevant].
  - unfold do_merge_apply. lazy beta iota zeta.
    rewrite (surviving_single u Hm), (merge_single lines u cur Hm Hl). reflexivity.
  - apply merge_split_irrelevant. reflexivity.
  - apply merge_split_irrelevant. reflexivity.
Qed.

(** *** Chains of operations *)

(** [chain o rest]: in [o :: rest] every operation continues the one before
    it (same line, same author, same start column, and the old text is the
    new text of the one before). *)
Inductive chain : UpdateExt.t -> list UpdateExt.t -> Prop :=
| chain_end o : chain o []
| chain_next o o' rest :
    line o = line o' -> uid o = uid o' -> cs o = cs o' ->
    new_text o = old_text o' ->
    chain o' rest -> chain o (o' :: rest).

(** The single operation a chain stands for: the first one, with the new
    text of the last one (and its time stamp, which the code takes along). *)
Definition chain_as_one (o : UpdateExt.t) (rest : list UpdateExt.t) : UpdateExt.t :=
  absorb o (List.last rest o).

(** The sweep of the inner loop for [i = 0], as a recursion on the
    operations behind the first one. *)
Fixpoint absorb_all (a : UpdateExt.t) (todo : list UpdateExt.t)
    : UpdateExt.t * list UpdateExt.t :=
  match todo with
  | [] => (a, [])
  | b :: todo' =>
      if continues a b
      then let '(a', t') := absorb_all (absorb a b) todo' in (a', tombstone b :: t')
      else let '(a', t') := absorb_all a todo' in (a', b :: t')
  end.

Lemma coalesce_at_head a done b todo :
  coalesce_at 0 (S (length done)) (a :: done ++ b :: todo)
  = if continues a b then absorb a b :: done ++ tombstone b :: todo
    else a :: done ++ b :: todo.
Proof.
  unfold coalesce_at.
  change ((a :: done ++ b :: todo) !! 0) with (Some a).
  change ((a :: done ++ b :: todo) !! S (length done))
    with ((done ++ b :: todo) !! length done).
  rewrite (list_lookup_middle done todo b (length done) eq_refl).
  destruct (continues a b); [|reflexivity].
  change (<[0 := absorb a b]> (a :: done ++ b :: todo))
    with (absorb a b :: done ++ b :: todo).
  change (<[S (length done) := tombstone b]> (absorb a b :: done ++ b :: todo))
    with (absorb a b :: <[length done := tombstone b]> (done ++ b :: todo)).
  f_equal.
  rewrite (insert_app_r_alt done (b :: todo) (length done)) by lia.
  rewrite Nat.sub_diag. reflexivity.
Qed.

Lemma sweep_head a done todo :
  foldl (fun acc j => coalesce_at 0 j acc) (a :: done ++ todo)
    (seq (S (length done)) (length todo))
  = (absorb_all a todo).1 :: done ++ (absorb_all a todo).2.
Proof.
  revert a done. induction todo as [|b todo IH]; intros a done; [reflexivity|].
  cbn [length seq foldl absorb_all]. rewrite coalesce_at_head.
  destruct (continues a b).
  - specialize (IH (absorb a b) (done ++ [tombstone b])).
    rewrite length_app, <- app_assoc in IH. cbn [length app] in IH.
    replace (length done + 1) with (S (length done)) in IH by lia.
    rewrite IH. destruct (absorb_all (absorb a b) todo) as [a' t'].
    cbn [fst snd]. now rewrite <- app_assoc.
  - specialize (IH a (done ++ [b])).
    rewrite length_app, <- app_assoc in IH. cbn [length app] in IH.
    replace (length done + 1) with (S (length done)) in IH by lia.
    rewrite IH. destruct (absorb_all a todo) as [a' t'].
    cbn [fst snd]. now rewrite <- app_assoc.
Qed.

Lemma absorb_keeps a b :
  uid (absorb a b) = uid a /\ line (absorb a b) = line a /\
  cs (absorb a b) = cs a /\ old_text (absorb a b) = old_text a /\
  new_text (absorb a b) = new_text b.
Proof. repeat split. Qed.

Lemma chain_continues a b rest : chain a (b :: rest) -> continues a b = true.
Proof.
  inversion 1 as [| ? ? ? Hl Hu Hc Hn Hr]; subst. unfold continues.
  rewrite Hl, Hu, Hc, Hn, N.eqb_refl, Z.eqb_refl, !String.eqb_refl. reflexivity.
Qed.

Lemma chain_absorb a b rest : chain a (b :: rest) -> chain (absorb a b) rest.
Proof.
  inversion 1 as [| ? ? ? Hl Hu Hc Hn Hr]; subst.
  inversion Hr as [| ? ? ? Hl' Hu' Hc' Hn' Hr']; subst; constructor; simpl;
    try congruence; assumption.
Qed.

Lemma absorb_absorb a b c : absorb (absorb a b) c = absorb a c.
Proof. reflexivity. Qed.

Lemma last_cons_default (x d d' : UpdateExt.t) (l : list UpdateExt.t) :
  List.last (x :: l) d = List.last (x :: l) d'.
Proof.
  revert x. induction l as [|y l IH]; intros x; [reflexivity|].
  change (List.last (y :: l) d = List.last (y :: l) d'). apply IH.
Qed.

Lemma absorb_all_chain a rest :
  chain a rest ->
  absorb_all a rest = (chain_as_one a rest, tombstone <$> rest).
Proof.
  revert a. induction rest as [|b rest IH]; intros a H.
  { unfold chain_as_one. simpl. now destruct a. }
  cbn [absorb_all]. rewrite (chain_continues a b rest H).
  rewrite (IH (absorb a b) (chain_absorb a b rest H)).
  cbn [fmap list_fmap]. f_equal.
  destruct rest as [|c rest]; [reflexivity|].
  unfold chain_as_one. rewrite absorb_absorb. f_equal.
  change (List.last (b :: c :: rest) a) with (List.last (c :: rest) a).
  apply last_cons_default.
Qed.

(** The later sweeps, for [i >= 1], leave the first operation alone and
    the operations behind it tombstoned. *)
Definition tombstoned (u : UpdateExt.t) : Prop := is_merged u = true.

Definition headed (a : UpdateExt.t) (all : list UpdateExt.t) : Prop :=
  exists rest, all = a :: rest /\ Forall tombstoned rest.

Lemma tombstone_tombstoned b : tombstoned (tombstone b).
Proof. unfold tombstoned, is_merged. apply String.eqb_refl. Qed.

Lemma coalesce_at_headed i j a all :
  headed a all -> headed a (coalesce_at (S i) (S j) all).
Proof.
  intros (rest & -> & Hrest). unfold coalesce_at.
  change ((a :: rest) !! S i) with (rest !! i).
  change ((a :: rest) !! S j) with (rest !! j).
  destruct (rest !! i) as [x|] eqn:Hi; [|exists rest; auto].
  destruct (rest !! j) as [y|] eqn:Hj; [|exists rest; auto].
  destruct (continues x y); [|exists rest; auto].
  exists (<[j := tombstone y]> (<[i := absorb x y]> rest)). split; [reflexivity|].
  apply Forall_insert; [apply Forall_insert; [exact Hrest|] | apply tombstone_tombstoned].
  exact (proj1 (Forall_lookup _ _) Hrest i x Hi).
Qed.

Lemma seq_positive (k m : nat) : Forall (fun j => j <> 0) (seq (S k) m).
Proof. apply Forall_forall. intros j Hj. apply list_elem_of_In, in_seq in Hj. lia. Qed.

Lemma coalesce_inner_headed i a all :
  headed a all -> headed a (coalesce_inner (S i) all).
Proof.
  unfold coalesce_inner. generalize (length all - S (S i)). intros m.
  pose proof (seq_positive (S i) m) as Hpos. revert all.
  induction (seq (S (S i)) m) as [|j js IH]; intros all H; [exact H|].
  inversion Hpos as [|? ? Hj Hjs]; subst. destruct j as [|j]; [congruence|].
  simpl. apply IH; [exact Hjs|]. now apply coalesce_at_headed.
Qed.

Lemma coalesce_outer_headed a all (idx : list nat) :
  Forall (fun i => i <> 0) idx -> headed a all ->
  headed a (foldl (fun acc i => coalesce_inner i acc) all idx).
Proof.
  intros Hpos. revert all. induction idx as [|i idx IH]; intros all H; [exact H|].
  inversion Hpos as [|? ? Hi Hidx]; subst. destruct i as [|i]; [congruence|].
  simpl. apply IH; [exact Hidx|]. now apply coalesce_inner_headed.
Qed.

(** Coalescing a chain leaves the single operation it stands for at the
    front, followed by tombstones. *)
Lemma coalesce_chain o rest :
  chain o rest -> headed (chain_as_one o rest) (coalesce (o :: rest)).
Proof.
  intros H. unfold coalesce. cbn [length seq foldl].
  apply coalesce_outer_headed; [apply seq_positive|].
  unfold coalesce_inner.
  replace (length (o :: rest) - 1) with (length rest) by (simpl; lia).
  pose proof (sweep_head o [] rest) as Hs. cbn [length app] in Hs.
  rewrite Hs, (absorb_all_chain o rest H). cbn [fst snd app].
  exists (tombstone <$> rest). split; [reflexivity|].
  apply Forall_fmap, Forall_forall. intros x _. apply tombstone_tombstoned.
Qed.

(** The resolution keeps the front operation and drops the tombstones. *)
Lemma resolve_inner_tombstones a rest k m :
  Forall tombstoned rest -> k + m = length rest ->
  resolve_inner (a :: rest) 0 a (seq (S k) m)
    (true :: replicate k false ++ replicate m true)
  = true :: replicate (k + m) false.
Proof.
  intros Hrest. revert k. induction m as [|m IH]; intros k Hlen.
  - simpl. now rewrite app_nil_r, Nat.add_0_r.
  - cbn [seq resolve_inner].
    change ((true :: replicate k false ++ replicate (S m) true) !! S k)
      with ((replicate k false ++ replicate (S m) true) !! k).
    rewrite lookup_app_r by (rewrite length_replicate; lia).
    rewrite length_replicate, Nat.sub_diag.
    change (replicate (S m) true !! 0) with (Some true).
    change (replicate (S m) true) with (true :: replicate m true).
    change ((a :: rest) !! S k) with (rest !! k).
    destruct (lookup_lt_is_Some_2 rest k ltac:(lia)) as [b Hb]. rewrite Hb.
    rewrite (proj1 (Forall_lookup _ _) Hrest k b Hb).
    change (<[S k := false]> (true :: replicate k false ++ true :: replicate m true))
      with (true :: <[k := false]> (replicate k false ++ true :: replicate m true)).
    rewrite (insert_app_r_alt (replicate k false)) by (rewrite length_replicate; lia).
    rewrite length_replicate, Nat.sub_diag. cbn [insert list_insert].
    change (replicate k false ++ false :: replicate m true)
      with (replicate k false ++ [false] ++ replicate m true).
    rewrite app_assoc, <- replicate_S_end.
    rewrite (IH (S k)) by lia. f_equal. f_equal. lia.
Qed.

Lemma resolve_at_dead all alive i :
  alive !! i <> Some true -> resolve_at all alive i = alive.
Proof.
  intros H. unfold resolve_at. destruct (alive !! i) as [[|]|]; congruence.
Qed.

Lemma resolve_rest_dead all alive (idx : list nat) :
  Forall (fun i => alive !! i <> Some true) idx ->
  foldl (resolve_at all) alive idx = alive.
Proof.
  induction 1 as [|i idx Hi Hidx IH]; [reflexivity|].
  simpl. rewrite (resolve_at_dead all alive i Hi). exact IH.
Qed.

Lemma resolve_headed a rest :
  is_merged a = false -> Forall tombstoned rest ->
  resolve (a :: rest) = true :: replicate (length rest) false.
Proof.
  intros Ha Hrest. unfold resolve. cbn [length seq replicate foldl].
  assert (E : resolve_at (a :: rest) (true :: replicate (length rest) true) 0
              = true :: replicate (length rest) false).
  { unfold resolve_at. cbn [lookup list_lookup]. rewrite Ha.
    replace (length (a :: rest) - 1) with (length rest) by (simpl; lia).
    apply (resolve_inner_tombstones a rest 0 (length rest) Hrest eq_refl). }
  rewrite E. apply resolve_rest_dead.
  apply Forall_forall. intros i Hi. apply list_elem_of_In, in_seq in Hi.
  destruct i as [|i]; [lia|].
  change ((true :: replicate (length rest) false) !! S i)
    with (replicate (length rest) false !! i).
  intros Hl. apply lookup_replicate in Hl as [Hl _]. discriminate.
Qed.

Lemma collect_dead (rest : list UpdateExt.t) (n : nat) :
  collect rest (replicate n false) = [].
Proof.
  unfold collect. revert n. induction rest as [|x rest IH]; intros [|n]; try reflexivity.
  cbn [replicate zip zip_with]. rewrite filter_cons. cbn [snd].
  destruct (decide (false = true)) as [E|_]; [discriminate|]. apply IH.
Qed.

Lemma collect_headed a rest :
  collect (a :: rest) (true :: replicate (length rest) false) = [a].
Proof.
  pose proof (collect_dead rest (length rest)) as H. unfold collect in *.
  cbn [zip zip_with]. rewrite filter_cons. cbn [snd].
  destruct (decide (true = true)) as [_|E]; [|congruence].
  rewrite fmap_cons, H. reflexivity.
Qed.

(** The one survivor of a merge whose input is a chain. *)
Lemma surviving_chain o rest local_unmerged recv_unmerged :
  chain o rest -> local_unmerged ++ recv_unmerged = o :: rest ->
  is_merged o = false ->
  surviving local_unmerged recv_unmerged = [chain_as_one o rest].
Proof.
  intros Hc Hin Ho. unfold surviving. rewrite Hin.
  destruct (coalesce_chain o rest Hc) as (rest' & -> & Hrest').
  rewrite resolve_headed by assumption. apply collect_headed.
Qed.

(** For a chain whose first old text is not the marker, the merge does
    what the application loop does with the single operation. *)
Lemma chain_merge (lines : list string) (o : UpdateExt.t) (rest : list UpdateExt.t)
    (local_unmerged recv_unmerged : list UpdateExt.t) (self_uid cur : string) :
  chain o rest -> local_unmerged ++ recv_unmerged = o :: rest ->
  is_merged o = false ->
  lines !! N.to_nat (line o) = Some cur ->
  do_merge_apply lines local_unmerged recv_unmerged self_uid
  = MergeResult true
      (<[N.to_nat (line o) := fst (apply_one (cur, 0%Z) (chain_as_one o rest))]> lines)
      [] [].
Proof.
  intros Hc Hin Ho Hl.
  rewrite (merge_split_irrelevant lines local_unmerged recv_unmerged (o :: rest) []
             self_uid self_uid) by (now rewrite app_nil_r).
  unfold do_merge_apply. lazy beta iota zeta.
  rewrite (surviving_chain o rest (o :: rest) [] Hc (app_nil_r _) Ho).
  rewrite (merge_single lines (chain_as_one o rest) cur Ho Hl). reflexivity.
Qed.

(** *** A chain that starts from a line reading like the marker *)

(** user_1 owns a document whose only line is the text ###MERGED###, and
    rewrites it to ab and then to cd; the detection loops make one record
    for each save. *)
Definition marker_edits : Editor.detect_state :=
  Editor.detect_changes "user_1" N.of_nat "12:00:02" ["ab"] ["cd"]
    (Editor.detect_changes "user_1" N.of_nat "12:00:00" ["###MERGED###"] ["ab"]
       DetectFacts.idle).

Definition op_first : UpdateExt.t := mk 1 "user_1" 0 0 11 Replace "###MERGED###" "ab".
Definition op_second : UpdateExt.t := mk 4 "user_1" 0 0 1 Replace "ab" "cd".

(** C4 on a concrete input.  The two records form a chain and are
    coalesced into one operation from ###MERGED### to cd.  Its old text
    equals the marker the code uses for tombstones, so the resolution loop
    drops it: the merge reports no change and the line stays as it was,
    while applying the single operation gives cd. *)
Theorem chain_from_marker_text_is_dropped :
  Editor.local_unmerged marker_edits = [op_first; op_second] /\
  chain op_first [op_second] /\
  chain_as_one op_first [op_second] = mk 4 "user_1" 0 0 11 Replace "###MERGED###" "cd" /\
  do_merge_apply ["###MERGED###"] [op_first; op_second] [] "user_1"
    = MergeResult false ["###MERGED###"] [] [] /\
  fst (apply_one ("###MERGED###", 0%Z) (chain_as_one op_first [op_second])) = "cd" /\
  apply_update_to_line "###MERGED###" (chain_as_one op_first [op_second]) = "cd".
Proof.
  split; [reflexivity|]. split; [|repeat split; reflexivity].
  apply chain_next; try reflexivity. apply chain_end.
Qed.

(** *** The scenarios of the specification *)

Definition doc0 : list string := ["int x = 10;"; "int y = 20;"; "int z = 30;"].

(** E3: two replacements of the same span, the later one wins on both
    peers. *)
Example scenario_lww :
  let a := mk 100 "user_1" 0 8 9 Replace "10" "11" in
  let b := mk 200 "user_2" 0 8 9 Replace "10" "22" in
  lines_out (do_merge_apply doc0 [a] [b] "user_1")
    = ["int x = 22;"; "int y = 20;"; "int z = 30;"] /\
  lines_out (do_merge_apply doc0 [b] [a] "user_2")
    = ["int x = 22;"; "int y = 20;"; "int z = 30;"].
Proof. split; reflexivity. Qed.

(** E4: equal time stamps, the smaller user id wins on both peers. *)
Example scenario_tiebreak :
  let a := mk 100 "user_1" 0 8 9 Replace "10" "11" in
  let b := mk 100 "user_2" 0 8 9 Replace "10" "22" in
  lines_out (do_merge_apply doc0 [a] [b] "user_1")
    = ["int x = 11;"; "int y = 20;"; "int z = 30;"] /\
  lines_out (do_merge_apply doc0 [b] [a] "user_2")
    = ["int x = 11;"; "int y = 20;"; "int z = 30;"].
Proof. split; reflexivity. Qed.

(** E5: the five records user_1 makes for 10, 11, 12, 13, 14, merged by
    user_2. *)
Example scenario_chain :
  let o (now : N) (old new : string) := mk now "user_1" 0 9 9 Replace old new in
  lines_out (do_merge_apply doc0 []
               [o 1%N "0" "1"; o 2%N "1" "2"; o 3%N "2" "3"; o 4%N "3" "4"] "user_2")
    = ["int x = 14;"; "int y = 20;"; "int z = 30;"].
Proof. reflexivity. Qed.

(** E6: an insertion at the end of line 0 and one in front of line 1, with
    the columns change detection gives them.  Both peers get the same
    document; the insertion inside line 1 takes the place of the character
    at its column. *)
Example scenario_disjoint :
  let a := mk 100 "user_1" 0 11 11 Insert "" "!" in
  let b := mk 200 "user_2" 1 0 0 Insert "" "?" in
  lines_out (do_merge_apply doc0 [a] [b] "user_1")
    = ["int x = 10;!"; "?nt y = 20;"; "int z = 30;"] /\
  lines_out (do_merge_apply doc0 [b] [a] "user_2")
    = ["int x = 10;!"; "?nt y = 20;"; "int z = 30;"].
Proof. split; reflexivity. Qed.

End MergeFacts.

(** ** registry.cpp: release, enumeration and the life of a slot *)

Module RegistryOpsFacts.
Import Registry RegistryOps RegistryFacts.

Lemma initialize_users (seg : RegistrySegment) :
  length (users seg) = MAX_USERS ->
  users (initialize_segment seg) = replicate MAX_USERS free_slot.
Proof.
  intros H. destruct seg as [m v us]. simpl in *.
  destruct us as [|e0 [|e1 [|e2 [|e3 [|e4 [|e5 us]]]]]]; try discriminate.
  reflexivity.
Qed.

(** X1. [registry_unregister] frees the first taken slot that carries the
    id: its flag becomes 0 and both strings become empty, every other slot
    stays as it is, so do magic and version, and 0 is returned.  It returns
    -1 exactly when no taken slot carries the id, and then leaves the
    segment untouched. *)
Theorem registry_unregister_spec (seg : RegistrySegment) (uid : string) :
  length (users seg) = MAX_USERS ->
  (forall i e,
      users seg !! i = Some e -> registered e uid ->
      first_at (fun e' => registered e' uid) (users seg) i ->
      registry_unregister seg uid
      = (0%Z, mkRegistrySegment (magic seg) (version seg)
                (<[i := mkUserEntry 0 "" ""]> (users seg))) /\
      (forall j, j <> i ->
         users (snd (registry_unregister seg uid)) !! j = users seg !! j) /\
      users (snd (registry_unregister seg uid)) !! i = Some (mkUserEntry 0 "" "")) /\
  (fst (registry_unregister seg uid) <> 0%Z <->
   (forall j e', users seg !! j = Some e' -> ~ registered e' uid)) /\
  (fst (registry_unregister seg uid) <> 0%Z ->
   registry_unregister seg uid = ((-1)%Z, seg)).
Proof.
  intros Hlen. unfold registry_unregister.
  destruct (find_registered (users seg) uid (seq 0 MAX_USERS)) as [i'|] eqn:Hfind.
  - apply find_registered_Some in Hfind as (Hr & (e' & He' & Hreg') & Hfirst').
    simpl. split; [|split].
    + intros i e Hi Hreg Hfirst.
      assert (i' = i) as ->.
      { eapply (first_at_unique (fun x => registered x uid)); eauto.
        intros j x Hj Hx. apply (Hfirst' j x); [lia | exact Hx]. }
      split; [reflexivity|]. cbn [snd users set_users]. split.
      * intros j Hj. now apply list_lookup_insert_ne.
      * apply list_lookup_insert_eq. eapply lookup_lt_Some; eauto.
    + split; [intros H; exfalso; apply H; reflexivity|].
      intros Hno. exfalso. exact (Hno i' e' He' Hreg').
    + intros H. exfalso. apply H. reflexivity.
  - pose proof (find_registered_None _ _ _ _ Hfind) as Hnone.
    simpl. split; [|split].
    + intros i e Hi Hreg _. exfalso.
      apply (Hnone i e); [eapply in_range; eauto | exact Hi | exact Hreg].
    + split; [|intros _; discriminate].
      intros _ j e Hj. apply (Hnone j e); [eapply in_range; eauto | exact Hj].
    + reflexivity.
Qed.

Lemma registry_unregister_spec_witness :
  length (users seg_example) = MAX_USERS /\
  registry_unregister seg_example "user_3"
  = (0%Z, mkRegistrySegment 1398364244 1
            [ mkUserEntry 1 "user_1" "/queue_user_1";
              mkUserEntry 0 "" "";
              mkUserEntry 0 "" "";
              mkUserEntry 0 "" "";
              mkUserEntry 0 "" "" ]).
Proof.
  split; [reflexivity|].
  refine (proj1 (proj1 (registry_unregister_spec seg_example "user_3" eq_refl)
                   2 _ eq_refl _ _)).
  - split; reflexivity.
  - intros [|[|j]] e Hj He [Ha Hs]; try lia;
      simpl in He; injection He as <-; simpl in *; discriminate.
Defined.

Lemma list_at_fold (us : list UserEntry) (out : list UserEntry) (a n : nat) :
  a + n = length us ->
  foldl (list_at us) out (seq a n)
  = out ++ List.filter (fun e => (active e =? 1)%Z) (drop a us).
Proof.
  revert a out. induction n as [|n IH]; intros a out Hlen.
  - simpl. rewrite drop_ge by lia. simpl. now rewrite app_nil_r.
  - cbn [seq foldl]. unfold list_at at 2.
    destruct (lookup_lt_is_Some_2 us a ltac:(lia)) as [e He]. rewrite He.
    rewrite (drop_S us e a He). cbn [List.filter].
    rewrite IH by lia.
    destruct (active e =? 1)%Z; [now rewrite <- app_assoc | reflexivity].
Qed.

Lemma registry_list_spec_aux (seg : RegistrySegment) :
  length (users seg) = MAX_USERS ->
  fst (registry_list seg) = List.filter (fun e => (active e =? 1)%Z) (users seg) /\
  snd (registry_list seg) = length (fst (registry_list seg)).
Proof.
  intros Hlen. unfold registry_list. cbn [fst snd].
  rewrite (list_at_fold (users seg) [] 0 MAX_USERS) by (simpl; lia).
  rewrite drop_0. split; reflexivity.
Qed.

(** X2. [registry_list] returns the taken slots, each once and in the
    order of the table, and their number, which is at most [MAX_USERS]. *)
Theorem registry_list_spec (seg : RegistrySegment) :
  length (users seg) = MAX_USERS ->
  fst (registry_list seg) = List.filter (fun e => (active e =? 1)%Z) (users seg) /\
  snd (registry_list seg) = length (fst (registry_list seg)) /\
  snd (registry_list seg) <= MAX_USERS /\
  (forall e, In e (fst (registry_list seg)) <-> In e (users seg) /\ active e = 1%Z).
Proof.
  intros Hlen. unfold registry_list. cbn [fst snd].
  rewrite (list_at_fold (users seg) [] 0 MAX_USERS) by (simpl; lia).
  rewrite drop_0. cbn [app].
  split; [reflexivity|]. split; [reflexivity|]. split.
  - rewrite <- Hlen. apply filter_length_le.
  - intros e. rewrite filter_In, Z.eqb_eq. reflexivity.
Qed.

Lemma registry_list_spec_witness :
  length (users seg_example) = MAX_USERS /\
  fst (registry_list seg_example)
  = [mkUserEntry 1 "user_1" "/queue_user_1"; mkUserEntry 1 "user_3" "/queue_user_3"].
Proof.
  split; [reflexivity|].
  rewrite (proj1 (registry_list_spec seg_example eq_refl)). reflexivity.
Defined.

(** A table in which no two taken slots carry the same id. *)
Definition unique_ids (us : list UserEntry) : Prop :=
  forall i j ei ej,
    us !! i = Some ei -> us !! j = Some ej ->
    active ei = 1%Z -> active ej = 1%Z -> user_id ei = user_id ej -> i = j.

Lemma unique_ids_insert_same (us : list UserEntry) i e e' :
  us !! i = Some e -> active e' = active e -> user_id e' = user_id e ->
  unique_ids us -> unique_ids (<[i := e']> us).
Proof.
  intros Hi Ha Hu Huniq a b ea eb Hea Heb Ta Tb Hid.
  apply list_lookup_insert_Some in Hea as [(<- & <- & _)|(Hne & Hea)];
    apply list_lookup_insert_Some in Heb as [(<- & <- & _)|(Hne' & Heb)];
    try reflexivity.
  - apply (Huniq i b e eb); congruence.
  - apply (Huniq a i ea e); congruence.
  - apply (Huniq a b ea eb); assumption.
Qed.

Lemma unique_ids_insert_fresh (us : list UserEntry) i e' :
  (forall j ej, j <> i -> us !! j = Some ej -> active ej = 1%Z ->
     user_id ej <> user_id e') ->
  unique_ids us -> unique_ids (<[i := e']> us).
Proof.
  intros Hfresh Huniq a b ea eb Hea Heb Ta Tb Hid.
  apply list_lookup_insert_Some in Hea as [(<- & <- & _)|(Hne & Hea)];
    apply list_lookup_insert_Some in Heb as [(<- & <- & _)|(Hne' & Heb)];
    try reflexivity.
  - exfalso. apply (Hfresh b eb); auto.
  - exfalso. apply (Hfresh a ea); auto.
  - apply (Huniq a b ea eb); assumption.
Qed.

Lemma registered_same_id (e : UserEntry) (uid : string) :
  active e = 1%Z -> user_id e = uid -> registered e uid.
Proof. intros Ha <-. split; [exact Ha | apply StrFacts.strncmp_eq_refl]. Qed.

(** X3. Registration keeps the table well formed.  For an id that fits the
    32 bytes of the slot, [registry_register] leaves a table of
    [MAX_USERS] slots in which no two taken slots carry the same id, if it
    was given one; the magic number and the version are not touched. *)
Theorem register_keeps_unique_ids (seg : RegistrySegment) (uid : string)
    (qn : option string) :
  length (users seg) = MAX_USERS ->
  StrFacts.fits USER_ID_MAX uid ->
  unique_ids (users seg) ->
  let seg' := snd (registry_register seg uid qn) in
  length (users seg') = MAX_USERS /\ unique_ids (users seg') /\
  magic seg' = magic seg /\ version seg' = version seg.
Proof.
  intros Hlen [Hnul Hfit] Huniq. unfold registry_register.
  destruct (find_registered (users seg) uid (seq 0 MAX_USERS)) as [i|] eqn:Hfind.
  - apply find_registered_Some in Hfind as (_ & (e & He & _) & _).
    rewrite He. cbn [snd set_users users magic version].
    rewrite length_insert. repeat split; auto.
    apply (unique_ids_insert_same _ i e); auto.
  - pose proof (find_registered_None _ _ _ _ Hfind) as Hnone.
    destruct (claim_free (users seg) uid qn (seq 0 MAX_USERS)) as [[i us']|] eqn:Hclaim.
    + apply claim_free_Some in Hclaim as (_ & _ & _ & ->).
      cbn [snd set_users users magic version].
      rewrite length_insert. repeat split; auto.
      apply unique_ids_insert_fresh; [|exact Huniq].
      intros j ej _ Hj Ta Hid. cbn [user_id] in Hid.
      rewrite StrFacts.snprintf_fits in Hid by assumption.
      apply (Hnone j ej); [eapply in_range; eauto | exact Hj |].
      now apply registered_same_id.
    + cbn [snd]. repeat split; auto.
Qed.

Lemma register_keeps_unique_ids_witness :
  length (users (snd (registry_register seg_example "user_2" (Some "/queue_user_2"))))
  = MAX_USERS /\
  unique_ids (users (snd (registry_register seg_example "user_2" (Some "/queue_user_2")))).
Proof.
  assert (Hfit : StrFacts.fits USER_ID_MAX "user_2").
  { split; [|simpl; unfold USER_ID_MAX; lia].
    intros i. do 6 (destruct i as [|i]; [simpl; discriminate|]). simpl. discriminate. }
  assert (Huniq : unique_ids (users seg_example)).
  { intros i j ei ej Hi Hj Ti Tj Hid.
    destruct i as [|[|[|[|[|i]]]]]; simpl in Hi; try discriminate; injection Hi as <-;
      simpl in Ti; try discriminate;
      destruct j as [|[|[|[|[|j]]]]]; simpl in Hj; try discriminate; injection Hj as <-;
      simpl in Tj; try discriminate; simpl in Hid; try discriminate; reflexivity. }
  destruct (register_keeps_unique_ids seg_example "user_2" (Some "/queue_user_2")
              eq_refl Hfit Huniq) as (H1 & H2 & _).
  split; [exact H1 | exact H2].
Defined.

(** An id of 32 characters or more is stored cut to 31 and is not found
    again: a second registration of the same peer takes a second slot with
    the same stored id. *)
Example long_id_registered_twice :
  let id := "user_012345678901234567890123456" in
  let seg := mkRegistrySegment REGISTRY_MAGIC REGISTRY_VERSION
               (replicate MAX_USERS free_slot) in
  let '(_, slot1, seg1) := registry_register seg id None in
  let '(_, slot2, seg2) := registry_register seg1 id None in
  slot1 = 0%Z /\ slot2 = 1%Z /\
  (user_id <$> users seg2 !! 0) = (user_id <$> users seg2 !! 1).
Proof. repeat split; reflexivity. Qed.

(** X4. Registering again is harmless: for an id that fits, a second
    [registry_register] with the same id and queue name, directly after a
    successful first one, returns the same slot and leaves the segment as
    the first call left it. *)
Theorem register_twice (seg : RegistrySegment) (uid : string) (qn : option string) :
  length (users seg) = MAX_USERS ->
  StrFacts.fits USER_ID_MAX uid ->
  fst (fst (registry_register seg uid qn)) = 0%Z ->
  registry_register (snd (registry_register seg uid qn)) uid qn
  = registry_register seg uid qn.
Proof.
  intros Hlen [Hnul Hfit] Hok.
  (* the slot the first call returns is taken, carries the id, is the first
     such slot, and holds the queue name *)
  assert (Hfirst : exists i e,
             registry_register seg uid qn
             = (0%Z, Z.of_nat i, set_users seg (<[i := e]> (users seg))) /\
             i < length (users seg) /\ registered e uid /\
             queue_name e = Str.snprintf QUEUE_NAME_MAX (or_empty qn) /\
             (forall j ej, j < i -> users seg !! j = Some ej -> ~ registered ej uid)).
  { unfold registry_register in *.
    destruct (find_registered (users seg) uid (seq 0 MAX_USERS)) as [i|] eqn:Hfind.
    - apply find_registered_Some in Hfind as (_ & (e & He & Hreg) & Hf).
      rewrite He. eexists i, _. split; [reflexivity|].
      split; [eapply lookup_lt_Some; eauto|]. split; [exact Hreg|].
      split; [reflexivity|]. intros j ej Hj. apply Hf. lia.
    - pose proof (find_registered_None _ _ _ _ Hfind) as Hnone.
      destruct (claim_free (users seg) uid qn (seq 0 MAX_USERS)) as [[i us']|] eqn:Hclaim;
        [|simpl in Hok; discriminate].
      apply claim_free_Some in Hclaim as (Hr & (e & He & _) & _ & ->).
      eexists i, _. split; [reflexivity|].
      split; [eapply lookup_lt_Some; eauto|]. split.
      + split; [reflexivity|]. cbn [user_id].
        rewrite StrFacts.snprintf_fits by assumption. apply StrFacts.strncmp_eq_refl.
      + split; [reflexivity|]. intros j ej Hj Hl.
        apply (Hnone j ej); [lia | exact Hl]. }
  destruct Hfirst as (i & e & -> & Hi & Hreg & Hq & Hbefore). cbn [snd].
  unfold registry_register. cbn [users set_users].
  destruct (find_registered (<[i := e]> (users seg)) uid (seq 0 MAX_USERS))
    as [i'|] eqn:Hfind.
  - apply find_registered_Some in Hfind as (_ & (e' & He' & Hreg') & Hf').
    assert (i' = i) as ->.
    { destruct (Nat.lt_trichotomy i' i) as [H|[H|H]]; [|exact H|].
      - exfalso. rewrite list_lookup_insert_ne in He' by lia.
        exact (Hbefore i' e' H He' Hreg').
      - exfalso. apply (Hf' i e); [lia | | exact Hreg].
        now apply list_lookup_insert_eq. }
    assert (Hl : <[i := e]> (users seg) !! i = Some e)
      by now apply list_lookup_insert_eq.
    rewrite Hl. rewrite list_insert_insert_eq.
    do 2 f_equal. destruct e as [a u q]. cbn in *. now rewrite Hq.
  - exfalso. pose proof (find_registered_None _ _ _ _ Hfind) as Hnone.
    apply (Hnone i e); [rewrite <- Hlen; lia | | exact Hreg].
    now apply list_lookup_insert_eq.
Qed.

Lemma register_twice_witness :
  registry_register (snd (registry_register seg_example "user_2" (Some "/queue_user_2")))
    "user_2" (Some "/queue_user_2")
  = registry_register seg_example "user_2" (Some "/queue_user_2").
Proof.
  apply (register_twice seg_example "user_2" (Some "/queue_user_2") eq_refl);
    [|reflexivity].
  split; [|simpl; unfold USER_ID_MAX; lia].
  intros i. do 6 (destruct i as [|i]; [simpl; discriminate|]). simpl. discriminate.
Defined.

Lemma set_users_id (seg : RegistrySegment) : set_users seg (users seg) = seg.
Proof. now destruct seg. Qed.

(** X5. Registration and release undo each other.  When no taken slot
    carries the id (which fits), a successful [registry_register] followed
    by [registry_unregister] of the same id returns 0 and leaves the table
    as it was, except that the slot used in between is now cleared; if that
    slot was clear before, the segment is exactly what it was. *)
Theorem register_then_unregister (seg seg1 : RegistrySegment) (uid : string)
    (qn : option string) (i : nat) :
  length (users seg) = MAX_USERS ->
  StrFacts.fits USER_ID_MAX uid ->
  (forall j e, users seg !! j = Some e -> ~ registered e uid) ->
  registry_register seg uid qn = (0%Z, Z.of_nat i, seg1) ->
  registry_unregister seg1 uid
  = (0%Z, set_users seg (<[i := free_slot]> (users seg))) /\
  (users seg !! i = Some free_slot -> snd (registry_unregister seg1 uid) = seg).
Proof.
  intros Hlen [Hnul Hfit] Hnone Hreg.
  assert (Hres : registry_unregister seg1 uid
                 = (0%Z, set_users seg (<[i := free_slot]> (users seg)))).
  { unfold registry_register in Hreg.
    destruct (find_registered (users seg) uid (seq 0 MAX_USERS)) as [i0|] eqn:Hfind.
    { exfalso. apply find_registered_Some in Hfind as (_ & (e & He & Hr) & _).
      exact (Hnone i0 e He Hr). }
    destruct (claim_free (users seg) uid qn (seq 0 MAX_USERS)) as [[i' us']|] eqn:Hclaim;
      [|discriminate].
    apply claim_free_Some in Hclaim as (Hr & (e & He & _) & _ & ->).
    injection Hreg as Hi <-. apply Nat2Z.inj in Hi. subst i'.
    assert (Hlt : i < length (users seg)) by (eapply lookup_lt_Some; eauto).
    set (e1 := mkUserEntry 1 (Str.snprintf USER_ID_MAX uid)
                 (Str.snprintf QUEUE_NAME_MAX (or_empty qn))).
    assert (Hreg1 : registered e1 uid).
    { split; [reflexivity|]. unfold e1. cbn [user_id].
      rewrite StrFacts.snprintf_fits by assumption. apply StrFacts.strncmp_eq_refl. }
    unfold registry_unregister. cbn [users set_users].
    destruct (find_registered (<[i := e1]> (users seg)) uid (seq 0 MAX_USERS))
      as [i''|] eqn:Hfind'.
    - apply find_registered_Some in Hfind' as (_ & (e'' & He'' & Hr'') & _).
      assert (i'' = i) as ->.
      { destruct (decide (i'' = i)) as [E|E]; [exact E|]. exfalso.
        rewrite list_lookup_insert_ne in He'' by auto. exact (Hnone i'' e'' He'' Hr''). }
      rewrite list_insert_insert_eq. reflexivity.
    - exfalso. pose proof (find_registered_None _ _ _ _ Hfind') as Hno.
      apply (Hno i e1); [rewrite <- Hlen; lia | | exact Hreg1].
      now apply list_lookup_insert_eq. }
  split; [exact Hres|].
  intros Hfree. rewrite Hres. cbn [snd].
  rewrite (list_insert_id _ _ _ Hfree). apply set_users_id.
Qed.

Lemma register_then_unregister_witness :
  snd (registry_unregister
         (snd (registry_register seg_example "user_2" (Some "/queue_user_2"))) "user_2")
  = seg_example.
Proof.
  refine (proj2 (register_then_unregister seg_example _ "user_2" (Some "/queue_user_2") 1
                   eq_refl _ _ eq_refl) eq_refl).
  - split; [|simpl; unfold USER_ID_MAX; lia].
    intros i. do 6 (destruct i as [|i]; [simpl; discriminate|]). simpl. discriminate.
  - intros [|[|[|[|[|j]]]]] e He [Ha Hs]; simpl in He; try discriminate;
      injection He as <-; simpl in *; discriminate.
Defined.

(** *** Peers starting one after the other *)

(** The slot of a registered peer. *)
Definition slot_of (uid : string) : UserEntry :=
  mkUserEntry 1 uid (Startup.make_queue_name uid).

Definition fresh : RegistrySegment :=
  mkRegistrySegment REGISTRY_MAGIC REGISTRY_VERSION (replicate MAX_USERS free_slot).

Lemma fits_queue_name (uid : string) :
  StrFacts.fits USER_ID_MAX uid ->
  StrFacts.fits QUEUE_NAME_MAX (Startup.make_queue_name uid).
Proof.
  intros [Hnul Hlen]. split.
  - unfold Startup.make_queue_name. intros i. do 7 (destruct i as [|i]; [simpl; discriminate|]). simpl. apply Hnul.
  - change (String.length (Startup.make_queue_name uid))
      with (7 + String.length uid).
    unfold USER_ID_MAX, QUEUE_NAME_MAX in *. lia.
Qed.

(** The table after the peers [done] have registered on a fresh segment. *)
Definition table_of (done : list string) : list UserEntry :=
  (slot_of <$> done) ++ replicate (MAX_USERS - length done) free_slot.

Lemma table_of_length done : length done <= MAX_USERS -> length (table_of done) = MAX_USERS.
Proof.
  intros H. unfold table_of. rewrite length_app, length_fmap, length_replicate. lia.
Qed.

Lemma table_of_lookup done j e :
  table_of done !! j = Some e ->
  (exists d, done !! j = Some d /\ e = slot_of d) \/
  (length done <= j /\ e = free_slot).
Proof.
  unfold table_of. intros H. apply lookup_app_Some in H as [H|[Hge H]].
  - left. apply list_lookup_fmap_Some in H as (d & Hd & ->). eauto.
  - right. rewrite length_fmap in Hge. apply lookup_replicate in H as [-> _]. auto.
Qed.

Lemma table_of_not_registered done uid j e :
  Forall (StrFacts.fits USER_ID_MAX) done -> StrFacts.fits USER_ID_MAX uid ->
  ~ In uid done ->
  table_of done !! j = Some e -> ~ registered e uid.
Proof.
  intros Hfits Hfit Hnew Hj [Ha Hs].
  apply table_of_lookup in Hj as [(d & Hd & ->)|[_ ->]]; [|discriminate].
  cbn [user_id slot_of] in Hs.
  assert (Hd' : d ∈ done) by (eapply list_elem_of_lookup_2; eauto).
  apply (proj1 (Forall_forall _ _) Hfits) in Hd' as Hfd.
  apply (StrFacts.strncmp_eq_fits d uid USER_ID_MAX Hfd Hfit) in Hs. subst d.
  apply Hnew. now apply list_elem_of_In.
Qed.

Lemma table_of_snoc done uid :
  length done < MAX_USERS ->
  <[length done := slot_of uid]> (table_of done) = table_of (done ++ [uid]).
Proof.
  intros Hlt. unfold table_of.
  rewrite (insert_app_r_alt (slot_of <$> done)) by (rewrite length_fmap; lia).
  rewrite length_fmap, Nat.sub_diag.
  destruct (MAX_USERS - length done) as [|n] eqn:E; [lia|].
  rewrite fmap_app, length_app, <- app_assoc. cbn [length replicate insert list_insert fmap list_fmap app].
  replace (MAX_USERS - (length done + 1)) with n by lia. reflexivity.
Qed.

(** One more peer starts: it gets the next slot, or exit code 3 when the
    five slots are taken. *)
Lemma register_peer_next done uid :
  Forall (StrFacts.fits USER_ID_MAX) done -> StrFacts.fits USER_ID_MAX uid ->
  ~ In uid done -> length done <= MAX_USERS ->
  Startup.register_peer (set_users fresh (table_of done)) uid
  = if decide (length done < MAX_USERS)
    then (inl (length done), set_users fresh (table_of (done ++ [uid])))
    else (inr 3%Z, set_users fresh (table_of done)).
Proof.
  intros Hfits Hfit Hnew Hle.
  unfold Startup.register_peer, registry_register. cbn [users set_users fresh].
  destruct (find_registered (table_of done) uid (seq 0 MAX_USERS)) as [i|] eqn:Hfind.
  { exfalso. apply find_registered_Some in Hfind as (_ & (e & He & Hr) & _).
    eapply table_of_not_registered; eauto. }
  destruct (claim_free (table_of done) uid (Some (Startup.make_queue_name uid))
              (seq 0 MAX_USERS)) as [[i us']|] eqn:Hclaim.
  - apply claim_free_Some in Hclaim as (Hr & (e & He & Hfree) & Hbefore & ->).
    apply table_of_lookup in He as [(d & Hd & ->)|[Hge ->]]; [discriminate|].
    destruct (decide (length done < MAX_USERS)) as [Hlt|Hge'];
      [|exfalso; lia].
    assert (i = length done) as ->.
    { destruct (decide (i = length done)) as [E|E]; [exact E|]. exfalso.
      apply (Hbefore (length done) free_slot); [lia | | reflexivity].
      unfold table_of. rewrite lookup_app_r by (rewrite length_fmap; lia).
      rewrite length_fmap, Nat.sub_diag. apply lookup_replicate_2. lia. }
    cbn [Z.eqb]. rewrite Nat2Z.id. f_equal. f_equal.
    cbn [or_empty]. destruct Hfit as [Hnul Hlen].
    rewrite StrFacts.snprintf_fits by assumption.
    destruct (fits_queue_name uid (conj Hnul Hlen)) as [Hq1 Hq2].
    rewrite StrFacts.snprintf_fits by assumption.
    now apply table_of_snoc.
  - pose proof (claim_free_None _ _ _ _ _ Hclaim) as Hfull.
    destruct (decide (length done < MAX_USERS)) as [Hlt|Hge']; [|reflexivity].
    exfalso. apply (Hfull (length done) free_slot); [lia | | reflexivity].
    unfold table_of. rewrite lookup_app_r by (rewrite length_fmap; lia).
    rewrite length_fmap, Nat.sub_diag. apply lookup_replicate_2. lia.
Qed.

Lemma register_peers_from done uids :
  NoDup (done ++ uids) -> Forall (StrFacts.fits USER_ID_MAX) (done ++ uids) ->
  length done <= MAX_USERS ->
  Startup.register_peers (set_users fresh (table_of done)) uids
  = ((inl <$> seq (length done) (Nat.min (length uids) (MAX_USERS - length done)))
     ++ replicate (length uids - (MAX_USERS - length done)) (inr 3%Z),
     set_users fresh (table_of (done ++ take (MAX_USERS - length done) uids))).
Proof.
  revert done. induction uids as [|uid uids IH]; intros done Hnd Hfits Hle.
  - cbn. rewrite take_nil, app_nil_r. reflexivity.
  - cbn [Startup.register_peers].
    apply NoDup_app in Hnd as Hnd'. destruct Hnd' as (_ & Hdisj & _).
    assert (Hnew : ~ In uid done).
    { intros Hin. apply list_elem_of_In in Hin. apply (Hdisj uid Hin). left. }
    apply Forall_app in Hfits as Hf'. destruct Hf' as [Hfd Hfu].
    inversion Hfu as [|? ? Hfit Hfu']; subst.
    rewrite (register_peer_next done uid Hfd Hfit Hnew Hle).
    destruct (decide (length done < MAX_USERS)) as [Hlt|Hge].
    + specialize (IH (done ++ [uid])).
      rewrite <- !app_assoc in IH. cbn [app] in IH.
      rewrite IH; [|assumption|assumption|rewrite length_app; simpl; lia].
      rewrite length_app. cbn [length].
      destruct (MAX_USERS - length done) as [|n] eqn:E; [lia|].
      replace (MAX_USERS - (length done + 1)) with n by lia.
      cbn [Nat.min seq fmap list_fmap app take Nat.sub].
      replace (length done + 1) with (S (length done)) by lia.
      reflexivity.
    + specialize (IH done).
      assert (Hnd2 : NoDup (done ++ uids)).
      { apply NoDup_app in Hnd as (H1 & H2 & H3). apply NoDup_app.
        split; [exact H1|]. split.
        - intros x Hx Hx'. apply (H2 x Hx). now right.
        - now inversion H3. }
      rewrite IH; [|exact Hnd2 | apply Forall_app; auto | exact Hle].
      replace (MAX_USERS - length done) with 0 by lia.
      rewrite !Nat.min_0_r, !Nat.sub_0_r, !take_0. cbn. reflexivity.
Qed.

Lemma list_of_table done :
  length done <= MAX_USERS ->
  fst (registry_list (set_users fresh (table_of done))) = slot_of <$> done.
Proof.
  intros Hle.
  rewrite (proj1 (registry_list_spec_aux (set_users fresh (table_of done))
                    (table_of_length done Hle))).
  unfold table_of. cbn [users set_users fresh].
  rewrite List.filter_app.
  assert (H1 : List.filter (fun e => (active e =? 1)%Z) (slot_of <$> done) = slot_of <$> done).
  { induction done as [|d done IH]; [reflexivity|]. cbn. f_equal. apply IH. simpl in Hle. lia. }
  assert (H2 : forall n, List.filter (fun e => (active e =? 1)%Z) (replicate n free_slot) = []).
  { induction n as [|n IH]; [reflexivity | exact IH]. }
  rewrite H1, H2. apply app_nil_r.
Qed.

Lemma initialize_fresh (seg0 : RegistrySegment) :
  length (users seg0) = MAX_USERS -> initialize_segment seg0 = fresh.
Proof.
  intros H. unfold fresh. rewrite <- (initialize_users seg0 H). reflexivity.
Qed.

(** X6. Peers with different ids (each fitting the slot) that start one
    after the other on a freshly initialised segment get the slots 0, 1, 2,
    ... in the order of their start; from the sixth on they get exit code
    3.  Afterwards [registry_list] shows the first five of them, in that
    order, each with the name of its own queue. *)
Theorem peers_take_slots_in_order (seg0 : RegistrySegment) (uids : list string) :
  length (users seg0) = MAX_USERS ->
  NoDup uids -> Forall (StrFacts.fits USER_ID_MAX) uids ->
  fst (Startup.register_peers (initialize_segment seg0) uids)
  = (inl <$> seq 0 (Nat.min (length uids) MAX_USERS))
    ++ replicate (length uids - MAX_USERS) (inr 3%Z) /\
  fst (registry_list (snd (Startup.register_peers (initialize_segment seg0) uids)))
  = slot_of <$> take MAX_USERS uids.
Proof.
  intros Hlen Hnd Hfits. rewrite (initialize_fresh seg0 Hlen).
  pose proof (register_peers_from [] uids Hnd Hfits ltac:(simpl; lia)) as H.
  change (set_users fresh (table_of [])) with fresh in H.
  cbn [length app] in H. rewrite Nat.sub_0_r in H. rewrite H. cbn [fst snd].
  split; [reflexivity|].
  apply list_of_table. rewrite length_take. lia.
Qed.

Lemma peers_take_slots_in_order_witness :
  fst (Startup.register_peers (initialize_segment seg_example) ["user_1"; "user_2"])
  = [inl 0; inl 1] /\
  fst (registry_list
         (snd (Startup.register_peers (initialize_segment seg_example)
                 ["user_1"; "user_2"])))
  = [slot_of "user_1"; slot_of "user_2"].
Proof.
  assert (Hfit : forall c, In c ["1"; "2"]%char ->
            StrFacts.fits USER_ID_MAX (String "u" (String "s" (String "e" (String "r"
              (String "_" (String c ""))))))).
  { intros c Hc. split; [|simpl; unfold USER_ID_MAX; lia].
    intros i. do 5 (destruct i as [|i]; [simpl; discriminate|]).
    destruct i as [|i]; [|simpl; discriminate].
    simpl. destruct Hc as [<-|[<-|[]]]; discriminate. }
  apply (peers_take_slots_in_order seg_example ["user_1"; "user_2"] eq_refl).
  - repeat constructor; [|apply not_elem_of_nil].
    intros H. apply list_elem_of_In in H. destruct H as [H|[]]. discriminate.
  - repeat constructor; apply Hfit; simpl; auto.
Defined.

End RegistryOpsFacts.

(** ** editor.cpp: what the ring holds *)

Module PendingFacts.
Import RingBuffer Editor RingFacts DrainFacts.

Lemma queued_of_inv {T : Type} (CAP : nat) (d : T) (h : history (T := T)) :
  0 < CAP -> ring_inv CAP h ->
  queued CAP d (ring h) = drop (length (popped h)) (pushed h).
Proof.
  intros Hpos Hinv. apply list_eq. intros k. unfold queued.
  rewrite (inv_held CAP Hpos h Hinv).
  rewrite list_lookup_fmap, lookup_drop.
  destruct (decide (k < length (pushed h) - length (popped h))) as [Hk|Hk].
  - rewrite lookup_seq_lt by exact Hk. cbn [fmap option_fmap option_map Nat.add].
    rewrite (inv_tail _ _ Hinv), Nat.Div0.add_mod_idemp_l.
    rewrite (inv_data _ _ Hinv) by lia.
    destruct (lookup_lt_is_Some_2 (pushed h) (length (popped h) + k) ltac:(lia)) as [x Hx].
    rewrite Hx. reflexivity.
  - rewrite lookup_seq_ge by lia. symmetry. apply lookup_ge_None. lia.
Qed.

(** X7. Nothing is lost or reordered inside the ring: after any sequence
    of [push] and [pop] calls the slots from [tail] up to [head] hold, in
    order, exactly the accepted items that have not been popped yet. *)
Theorem ring_holds_pending {T : Type} (d : T) (calls : list (call (T := T))) :
  let h := run RECV_CAP d calls in
  queued RECV_CAP d (ring h) = drop (length (popped h)) (pushed h) /\
  pushed h = popped h ++ queued RECV_CAP d (ring h) /\
  length (queued RECV_CAP d (ring h)) < RECV_CAP.
Proof.
  intros h.
  assert (Hpos : 0 < RECV_CAP) by (unfold RECV_CAP; lia).
  pose proof (inv_run RECV_CAP d Hpos calls) as Hinv. fold h in Hinv.
  pose proof (queued_of_inv RECV_CAP d h Hpos Hinv) as Hq.
  split; [exact Hq|]. split.
  - rewrite Hq. rewrite (inv_popped _ _ Hinv) at 1. symmetry. apply take_drop.
  - rewrite Hq, length_drop. pose proof (inv_room _ _ Hinv). lia.
Qed.

(** X8. What the listener pushed reaches the merge.  A drain that starts
    after any activity on the ring stops within 128 rounds, empties the
    ring, and appends to [recv_unmerged] the accepted messages not popped
    before, in the order of their arrival and each once, leaving out those
    whose sender is the local user. *)
Theorem drain_delivers_pending (g_user_id : string)
    (calls : list (call (T := UpdateMessage.t)))
    (recv : list UpdateExt.t) (got : bool) (last : string) :
  let h := run RECV_CAP msg_default calls in
  exists st',
    drain g_user_id RECV_CAP (mkDrain (ring h) recv got last) = Some st' /\
    tail (g_recv_buf st') = head (g_recv_buf st') /\
    recv_unmerged st'
    = recv ++ accepted g_user_id (drop (length (popped h)) (pushed h)).
Proof.
  intros h.
  assert (Hpos : 0 < RECV_CAP) by (unfold RECV_CAP; lia).
  pose proof (inv_run RECV_CAP msg_default Hpos calls) as Hinv. fold h in Hinv.
  assert (Hb : in_bounds RECV_CAP (ring h)).
  { split; [rewrite (inv_head _ _ Hinv) | rewrite (inv_tail _ _ Hinv)];
      apply Nat.mod_upper_bound; lia. }
  destruct (drain_spec g_user_id RECV_CAP (mkDrain (ring h) recv got last) Hb
              (held_lt_cap _)) as (st' & Hrun & Hempty & Hrecv).
  exists st'. split; [exact Hrun|]. split; [exact Hempty|].
  cbn [recv_unmerged g_recv_buf] in Hrecv. rewrite Hrecv.
  now rewrite (queued_of_inv RECV_CAP msg_default h Hpos Hinv).
Qed.

End PendingFacts.

(** ** std::string as a list of characters *)

Module StrAlgebra.

Definition chars (s : string) : list ascii := list_ascii_of_string s.

Lemma chars_inj (a b : string) : chars a = chars b -> a = b.
Proof.
  intros H. rewrite <- (string_of_list_ascii_of_string a),
    <- (string_of_list_ascii_of_string b). unfold chars in H. now rewrite H.
Qed.

Lemma chars_append (a b : string) : chars (a +:+ b) = chars a ++ chars b.
Proof.
  unfold chars. induction a as [|c a IH]; [reflexivity|].
  change (String c a +:+ b) with (String c (a +:+ b)).
  cbn [list_ascii_of_string app]. now rewrite IH.
Qed.

Lemma chars_length (s : string) : length (chars s) = String.length s.
Proof.
  unfold chars. induction s as [|c s IH]; [reflexivity|].
  cbn [list_ascii_of_string length String.length]. now rewrite IH.
Qed.

Lemma chars_substring (n m : nat) (s : string) :
  chars (substring n m s) = take m (drop n (chars s)).
Proof.
  unfold chars.
  revert n m. induction s as [|c s IH]; intros [|n] [|m];
    cbn [substring list_ascii_of_string take drop]; try reflexivity.
  - now rewrite IH.
  - now rewrite IH.
  - now rewrite IH.
Qed.

Lemma chars_get (i : nat) (s : string) : String.get i s = chars s !! i.
Proof.
  unfold chars.
  revert i. induction s as [|c s IH]; intros [|i];
    cbn [String.get list_ascii_of_string]; try reflexivity. apply IH.
Qed.

Lemma chars_empty (s : string) : Str.empty s = true <-> chars s = [].
Proof. destruct s; cbn; split; congruence. Qed.

Lemma append_assoc (a b c : string) : (a +:+ b) +:+ c = a +:+ (b +:+ c).
Proof. apply chars_inj. rewrite !chars_append. now rewrite app_assoc. Qed.

Lemma append_nil_r (a : string) : a +:+ "" = a.
Proof. apply chars_inj. rewrite chars_append. apply app_nil_r. Qed.

Lemma length_append (a b : string) :
  String.length (a +:+ b) = String.length a + String.length b.
Proof. rewrite <- !chars_length, chars_append. apply length_app. Qed.

End StrAlgebra.

(** ** editor.cpp: the document on disk *)

Module DocFileFacts.
Import Crdt DocFile StrAlgebra.

Lemma drop_empty_front_split (l : list string) :
  exists k, l = replicate k "" ++ drop_empty_front l.
Proof.
  induction l as [|s l [k IH]]; [now exists 0|]. cbn [drop_empty_front].
  destruct s as [|c s]; cbn [Str.empty]; [|now exists 0].
  exists (S k). cbn. now rewrite <- IH.
Qed.

Lemma drop_empty_front_head (l : list string) :
  head (drop_empty_front l) <> Some "".
Proof.
  induction l as [|s l IH]; [discriminate|]. cbn [drop_empty_front].
  destruct s as [|c s]; cbn [Str.empty]; [exact IH | discriminate].
Qed.

Lemma drop_empty_front_id (l : list string) :
  head l <> Some "" -> drop_empty_front l = l.
Proof.
  destruct l as [|[|c s] l]; cbn; intros H; congruence.
Qed.

Lemma normalize_spec_aux (lines : list string) :
  (exists k, lines = normalize lines ++ replicate k "") /\
  last (normalize lines) <> Some "" /\
  normalize (normalize lines) = normalize lines.
Proof.
  unfold normalize. split; [|split].
  - destruct (drop_empty_front_split (reverse lines)) as [k Hk].
    exists k. rewrite <- (reverse_involutive lines) at 1.
    rewrite Hk at 1. now rewrite reverse_app, reverse_replicate.
  - rewrite last_reverse. apply drop_empty_front_head.
  - rewrite reverse_involutive.
    rewrite (drop_empty_front_id (drop_empty_front _)); [reflexivity|].
    apply drop_empty_front_head.
Qed.

(** X9. The trimming done on every read and before every write-back
    removes the empty lines at the end of the document and nothing else:
    what it returns does not end with an empty line, trimming again changes
    nothing, and a document that does not end with an empty line is
    returned as it is. *)
Theorem normalize_spec (lines : list string) :
  (exists k, lines = normalize lines ++ replicate k "") /\
  last (normalize lines) <> Some "" /\
  normalize (normalize lines) = normalize lines /\
  (last lines <> Some "" -> normalize lines = lines).
Proof.
  destruct (normalize_spec_aux lines) as (H1 & H2 & H3).
  split; [exact H1|]. split; [exact H2|]. split; [exact H3|].
  intros H. unfold normalize. rewrite drop_empty_front_id; [apply reverse_involutive|].
  now rewrite head_reverse.
Qed.

(** A line as [getline] returns it holds no newline. *)
Definition one_line (l : string) : Prop := ~ In newline (chars l).

Lemma getlines_line (line : string) (got : bool) (l rest : string) :
  one_line l ->
  getlines line got (l +:+ String newline rest) = (line +:+ l) :: getlines "" false rest.
Proof.
  revert line got. induction l as [|c l IH]; intros line got Hl.
  - change ("" +:+ String newline rest) with (String newline rest).
    cbn [getlines]. rewrite Ascii.eqb_refl. now rewrite append_nil_r.
  - change (String c l +:+ String newline rest)
      with (String c (l +:+ String newline rest)).
    cbn [getlines].
    destruct (Ascii.eqb_spec c newline) as [->|Hc].
    { exfalso. apply Hl. now left. }
    rewrite IH by (intros H; apply Hl; now right).
    rewrite append_assoc. reflexivity.
Qed.

Lemma getlines_write (lines : list string) :
  Forall one_line lines -> getlines "" false (write_lines lines) = lines.
Proof.
  induction 1 as [|l lines Hl Hls IH]; [reflexivity|].
  cbn [write_lines].
  change (l +:+ String newline "" +:+ write_lines lines)
    with (l +:+ (String newline "" +:+ write_lines lines)).
  change (String newline "" +:+ write_lines lines) with (String newline (write_lines lines)).
  rewrite (getlines_line "" false l _ Hl), IH. reflexivity.
Qed.

(** No line read from a file holds a newline. *)
Lemma getlines_one_line (line : string) (got : bool) (s : string) :
  one_line line -> Forall one_line (getlines line got s).
Proof.
  revert line got. induction s as [|c s IH]; intros line got Hl; cbn.
  - destruct got; constructor; [exact Hl | constructor].
  - destruct (Ascii.eqb_spec c newline) as [->|Hc].
    + constructor; [exact Hl|]. apply IH. intros [].
    + apply IH. unfold one_line. rewrite chars_append. intros H.
      apply in_app_or in H as [H|[H|[]]]; [now apply Hl | congruence].
Qed.

Lemma normalize_Forall (P : string -> Prop) (lines : list string) :
  Forall P lines -> Forall P (normalize lines).
Proof.
  intros H. destruct (proj1 (normalize_spec_aux lines)) as [k Hk].
  rewrite Hk in H. now apply Forall_app in H as [H _].
Qed.

(** X10. What the merge writes is what the next poll reads.  For lines
    that hold no newline, [read_lines] on the file the write-back loop
    produces returns the lines written, without the empty lines at the
    end; the trimmed document, which is what the editor writes, is read
    back as it is. *)
Theorem write_then_read (lines : list string) :
  Forall one_line lines ->
  read_lines (write_lines lines) = normalize lines /\
  read_lines (write_lines (normalize lines)) = normalize lines.
Proof.
  intros H. unfold read_lines. split.
  - now rewrite getlines_write.
  - rewrite getlines_write by now apply normalize_Forall.
    apply (normalize_spec_aux lines).
Qed.

Lemma write_then_read_witness :
  read_lines (write_lines ["int x = 10;"; ""; "int z = 30;"; ""; ""])
  = ["int x = 10;"; ""; "int z = 30;"].
Proof.
  refine (proj1 (write_then_read ["int x = 10;"; ""; "int z = 30;"; ""; ""] _)).
  repeat constructor; intros H; cbn in H; intuition discriminate.
Defined.

(** X11. Whatever the file holds, the document [read_lines] returns has no
    newline inside a line and no empty line at its end, and a file
    rewritten from it reads as the same document. *)
Theorem read_lines_closed (content : string) :
  Forall one_line (read_lines content) /\
  last (read_lines content) <> Some "" /\
  read_lines (write_lines (read_lines content)) = read_lines content.
Proof.
  assert (H : Forall one_line (read_lines content)).
  { unfold read_lines. apply normalize_Forall, getlines_one_line. intros []. }
  split; [exact H|]. split.
  - unfold read_lines. apply (normalize_spec_aux (getlines "" false content)).
  - unfold read_lines at 1. rewrite getlines_write by exact H.
    unfold read_lines. apply (normalize_spec_aux (getlines "" false content)).
Qed.

(** [getline] at the end of a file: a last line without newline is kept, a
    final newline does not open another line, an empty line in the middle
    is kept. *)
Example getlines_edges :
  getlines "" false "" = [] /\
  getlines "" false "abc" = ["abc"] /\
  getlines "" false (String "a" (String newline "")) = ["a"] /\
  getlines "" false (String newline "") = [""] /\
  getlines "" false (String "a" (String newline (String newline (String "b" ""))))
  = ["a"; ""; "b"].
Proof. repeat split; reflexivity. Qed.

End DocFileFacts.

(** ** crdt.cpp: what counts as a conflict, and who wins *)

Module ConflictFacts.
Import UpdateExt Crdt CrdtFacts.

(** The columns an operation takes away from the line: those of its old
    text. *)
Definition covers (u : UpdateExt.t) (col : Z) : Prop :=
  (cs u <= col < cs u + Str.size (old_text u))%Z.

Lemma size_pos_iff (s : string) : (0 < Str.size s)%Z <-> s <> "".
Proof. unfold Str.size. destruct s; simpl; split; try congruence; lia. Qed.

Lemma size_empty (s : string) : Str.empty s = true <-> Str.size s = 0%Z.
Proof. unfold Str.size. destruct s; simpl; split; try congruence; lia. Qed.

(** The end column of an operation, start column plus length of the old
    text, is an [int]: the sum of [overlaps] does not overflow. *)
Definition end_fits (u : UpdateExt.t) : Prop :=
  (- 2 ^ 31 <= cs u + Str.size (old_text u) < 2 ^ 31)%Z.

Lemma add_wrap (c n : Z) :
  (- 2 ^ 31 <= c + n < 2 ^ 31)%Z -> Int.add c (Int.wrap n) = (c + n)%Z.
Proof.
  intros H. unfold Int.add, Int.wrap.
  replace (c + ((n + 2 ^ 31) mod 2 ^ 32 - 2 ^ 31) + 2 ^ 31)%Z
    with (c + (n + 2 ^ 31) mod 2 ^ 32)%Z by lia.
  rewrite Zplus_mod_idemp_r.
  replace (c + (n + 2 ^ 31))%Z with (c + n + 2 ^ 31)%Z by lia.
  rewrite Z.mod_small by lia. lia.
Qed.

(** X12. What [overlaps] calls a conflict.  Operations on different lines
    never conflict.  On one line, and as long as the end columns of both
    operations are [int] values (no overflow in the two sums):
    - two operations that both remove text conflict exactly when some
      column is removed by both;
    - an insertion (empty old text) conflicts with an operation that
      removes text exactly when its column lies strictly inside the removed
      range, so not when it sits at its first column or right behind it;
    - two insertions conflict exactly when they are at the same column. *)
Theorem overlaps_meaning (a b : UpdateExt.t) :
  (line a <> line b -> overlaps a b = false) /\
  (end_fits a -> end_fits b -> line a = line b ->
   (old_text a <> "" -> old_text b <> "" ->
    (overlaps a b = true <-> exists col, covers a col /\ covers b col)) /\
   (old_text a = "" -> old_text b <> "" ->
    (overlaps a b = true <-> (cs b < cs a < cs b + Str.size (old_text b))%Z)) /\
   (old_text a = "" -> old_text b = "" ->
    (overlaps a b = true <-> cs a = cs b))).
Proof.
  unfold overlaps, covers, end_fits. split.
  - intros Hne. apply N.eqb_neq in Hne. now rewrite Hne.
  - intros Fa Fb Hl. rewrite Hl, N.eqb_refl. cbn [negb].
    rewrite (add_wrap _ _ Fa), (add_wrap _ _ Fb).
    split; [|split].
    + intros Ha Hb.
      apply size_pos_iff in Ha as Ha', Hb as Hb'.
      destruct (old_text a) as [|c sa] eqn:Ea; [congruence|]. cbn [Str.empty andb].
      rewrite negb_true_iff, orb_false_iff, !Z.leb_gt.
      split.
      * intros [H1 H2]. exists (Z.max (cs a) (cs b)). lia.
      * intros (col & H1 & H2). lia.
    + intros Ha Hb. rewrite Ha. cbn [negb Str.empty andb].
      apply size_pos_iff in Hb as Hb'.
      destruct (old_text b) as [|c sb] eqn:Eb; [congruence|]. cbn [Str.empty andb].
      rewrite negb_true_iff, orb_false_iff, !Z.leb_gt.
      change (Str.size "") with 0%Z. lia.
    + intros Ha Hb. rewrite Ha, Hb. cbn [negb Str.empty andb].
      destruct (Z.eqb_spec (cs a) (cs b)) as [E|E]; [tauto|].
      change (Str.size "") with 0%Z.
      rewrite negb_true_iff, orb_false_iff, !Z.leb_gt. lia.
Qed.

Lemma overlaps_meaning_witness :
  let a := mk 1 "user_1" 0 8 8 Insert "" "x" in
  let b := mk 2 "user_2" 0 8 9 Replace "10" "22" in
  end_fits a /\ end_fits b /\
  (overlaps a b = true <-> (cs b < cs a < cs b + Str.size (old_text b))%Z).
Proof.
  intros a b.
  assert (Fa : end_fits a) by (unfold end_fits; vm_compute; split; congruence).
  assert (Fb : end_fits b) by (unfold end_fits; vm_compute; split; congruence).
  split; [exact Fa|]. split; [exact Fb|].
  apply (proj1 (proj2 (proj2 (overlaps_meaning a b) Fa Fb eq_refl)));
    [reflexivity | discriminate].
Defined.

(** Beyond that bound the sum wraps around and a conflict goes unseen: two
    operations that remove the same two columns at the last [int] column do
    not overlap. *)
Example overlaps_at_int_max :
  let a := mk 1 "user_1" 0 2147483647 2147483647 Replace "ab" "x" in
  let b := mk 2 "user_2" 0 2147483647 2147483647 Replace "ab" "y" in
  (exists col, covers a col /\ covers b col) /\
  overlaps a b = false /\ overlaps b a = false.
Proof.
  intros a b. split; [|split; reflexivity].
  exists 2147483647%Z. unfold covers. vm_compute. repeat split; congruence.
Qed.

(** *** The order behind last-writer-wins *)

Lemma N_of_ascii_inj (c d : ascii) : N_of_ascii c = N_of_ascii d -> c = d.
Proof.
  intros H. rewrite <- (ascii_N_embedding c), <- (ascii_N_embedding d). now rewrite H.
Qed.

Lemma lex_lt_trans (s t u : string) :
  Str.lex_lt s t -> Str.lex_lt t u -> Str.lex_lt s u.
Proof.
  intros H. revert u. induction H as [c s|c d s t Hlt|c s t Hst IH]; intros u Htu.
  - inversion Htu; subst; constructor.
  - inversion Htu as [| ? ? ? ? Hlt' | ? ? ? Ht]; subst.
    + apply Str.lex_lt_head. lia.
    + now apply Str.lex_lt_head.
  - inversion Htu as [| ? ? ? ? Hlt' | ? ? ? Ht]; subst.
    + now apply Str.lex_lt_head.
    + apply Str.lex_lt_tail. now apply IH.
Qed.

Lemma lex_lt_total (s t : string) : s <> t -> Str.lex_lt s t \/ Str.lex_lt t s.
Proof.
  revert t. induction s as [|c s IH]; intros [|d t] Hne.
  - congruence.
  - left. constructor.
  - right. constructor.
  - destruct (N.lt_trichotomy (N_of_ascii c) (N_of_ascii d)) as [H|[H|H]].
    + left. now apply Str.lex_lt_head.
    + apply N_of_ascii_inj in H. subst d.
      destruct (IH t) as [H|H]; [congruence | |].
      * left. now apply Str.lex_lt_tail.
      * right. now apply Str.lex_lt_tail.
    + right. now apply Str.lex_lt_head.
Qed.

(** X13. [newer_wins] is a strict total order on the pairs of time stamp
    and author id: no operation beats itself, of two operations at most one
    beats the other, beating is transitive, and two operations that differ
    in time stamp or author are always decided.  Only two operations with
    the same time stamp and the same author are left undecided; the
    resolution loop then drops the one that comes first. *)
Theorem newer_wins_total_order (a b c : UpdateExt.t) :
  newer_wins a a = false /\
  (newer_wins a b = true -> newer_wins b a = false) /\
  (newer_wins a b = true -> newer_wins b c = true -> newer_wins a c = true) /\
  (ts a <> ts b \/ uid a <> uid b -> newer_wins a b = true \/ newer_wins b a = true) /\
  (ts a = ts b -> uid a = uid b -> newer_wins a b = false /\ newer_wins b a = false).
Proof.
  split; [|split; [|split; [|split]]].
  - destruct (newer_wins a a) eqn:E; [|reflexivity].
    apply newer_wins_winner in E as [E|[_ E]]; [lia | now apply lex_lt_irrefl in E].
  - intros H. apply newer_wins_loser. now apply newer_wins_winner.
  - intros Hab Hbc. apply newer_wins_winner in Hab, Hbc. apply newer_wins_winner.
    destruct Hab as [Hab|[Eab Lab]], Hbc as [Hbc|[Ebc Lbc]].
    + left. lia.
    + left. lia.
    + left. lia.
    + right. split; [congruence|]. eapply lex_lt_trans; eauto.
  - intros Hne. rewrite !newer_wins_winner. unfold lww_winner.
    destruct (N.lt_trichotomy (ts a) (ts b)) as [H|[H|H]]; [right; left; lia| |left; left; lia].
    destruct Hne as [Hne|Hne]; [contradiction|].
    destruct (lex_lt_total _ _ Hne); [left | right]; right; split; auto.
  - intros Et Eu. split.
    + destruct (newer_wins a b) eqn:E; [|reflexivity].
      apply newer_wins_winner in E as [E|[_ E]]; [lia|].
      rewrite Eu in E. now apply lex_lt_irrefl in E.
    + destruct (newer_wins b a) eqn:E; [|reflexivity].
      apply newer_wins_winner in E as [E|[_ E]]; [lia|].
      rewrite Eu in E. now apply lex_lt_irrefl in E.
Qed.

Lemma newer_wins_total_order_witness :
  let a := mk 7 "user_1" 0 8 9 Replace "10" "11" in
  let b := mk 7 "user_2" 0 8 9 Replace "10" "22" in
  newer_wins a b = true \/ newer_wins b a = true.
Proof.
  intros a b.
  apply (proj1 (proj2 (proj2 (proj2 (newer_wins_total_order a b a))))).
  right. discriminate.
Defined.

End ConflictFacts.

(** ** crdt.cpp: the resolution loop as a whole *)

Module ResolveFacts.
Import UpdateExt Crdt CrdtFacts.

Lemma fewer_alive_fold all alive idx :
  fewer_alive alive (foldl (resolve_at all) alive idx).
Proof.
  revert alive. induction idx as [|i idx IH]; intros alive; cbn [foldl].
  - apply fewer_alive_refl.
  - eapply fewer_alive_trans; [apply (resolve_at_spec all alive i) | apply IH].
Qed.

Lemma resolve_at_tombstone all alive i a :
  all !! i = Some a -> is_merged a = true -> resolve_at all alive i !! i <> Some true.
Proof.
  intros Ha Hm. unfold resolve_at.
  destruct (alive !! i) as [[|]|] eqn:Ei; rewrite ?Ha, ?Hm.
  - apply dead_after_insert.
  - rewrite Ei. discriminate.
  - rewrite Ei. discriminate.
Qed.

Lemma resolve_split all k :
  k < length all ->
  resolve all
  = foldl (resolve_at all)
      (resolve_at all (foldl (resolve_at all) (replicate (length all) true) (seq 0 k)) k)
      (seq (S k) (length all - S k)).
Proof.
  intros Hk. unfold resolve.
  replace (length all) with (k + S (length all - S k)) at 2 by lia.
  rewrite seq_app, foldl_app. cbn [seq foldl Nat.add]. reflexivity.
Qed.

Lemma survivor_not_tombstone all k a :
  all !! k = Some a -> resolve all !! k = Some true -> is_merged a = false.
Proof.
  intros Ha Hk. destruct (is_merged a) eqn:Hm; [|reflexivity]. exfalso.
  assert (Hlt : k < length all) by (apply lookup_lt_Some in Ha; exact Ha).
  rewrite (resolve_split all k Hlt) in Hk.
  apply fewer_alive_fold in Hk.
  exact (resolve_at_tombstone all _ k a Ha Hm Hk).
Qed.

(** The survivors are taken in the order of [all]. *)
Lemma collect_lookup2 all alive i j a b :
  i < j -> collect all alive !! i = Some a -> collect all alive !! j = Some b ->
  exists i' j', i' < j' /\
    all !! i' = Some a /\ alive !! i' = Some true /\
    all !! j' = Some b /\ alive !! j' = Some true.
Proof.
  unfold collect. revert alive i j.
  induction all as [|x all IH]; intros [|y alive] i j Hij Hi Hj;
    try (cbn in Hi; discriminate).
  cbn [zip zip_with] in Hi, Hj. rewrite filter_cons in Hi, Hj.
  destruct (decide (snd (x, y) = true)) as [Hy|Hy].
  - cbn [fmap list_fmap fst] in Hi, Hj. cbn [snd] in Hy. subst y.
    destruct j as [|j]; [lia|]. cbn [lookup list_lookup] in Hj.
    destruct i as [|i].
    + cbn in Hi. injection Hi as <-.
      clear IH Hij. revert alive j Hj.
      induction all as [|x' all IH']; intros [|y' alive] j Hj;
        try (cbn in Hj; discriminate).
      cbn [zip zip_with] in Hj. rewrite filter_cons in Hj.
      destruct (decide (snd (x', y') = true)) as [Hy'|Hy'].
      * cbn [snd] in Hy'. subst y'. destruct j as [|j].
        -- cbn in Hj. injection Hj as <-. exists 0, 1. repeat split; lia.
        -- cbn [fmap list_fmap lookup list_lookup] in Hj.
           destruct (IH' alive j Hj) as (i' & j' & Hlt & Hx & _ & Hb & Hb').
           destruct i'; [|cbn in Hx].
           ++ exists 0, (S j'). repeat split; try lia.
              ** destruct j'; [lia|]. exact Hb.
              ** destruct j'; [lia|]. exact Hb'.
           ++ exists 0, (S j'). repeat split; try lia.
              ** destruct j'; [lia|]. exact Hb.
              ** destruct j'; [lia|]. exact Hb'.
      * destruct (IH' alive j Hj) as (i' & j' & Hlt & Hx & _ & Hb & Hb').
        exists 0, (S j'). repeat split; try lia.
        -- destruct j'; [lia|]. exact Hb.
        -- destruct j'; [lia|]. exact Hb'.
    + cbn [lookup list_lookup] in Hi.
      destruct (IH alive i j ltac:(lia) Hi Hj) as (i' & j' & Hlt & H1 & H2 & H3 & H4).
      exists (S i'), (S j'). repeat split; try lia; assumption.
  - destruct (IH alive i j Hij Hi Hj) as (i' & j' & Hlt & H1 & H2 & H3 & H4).
    exists (S i'), (S j'). repeat split; try lia; assumption.
Qed.

Lemma collect_lookup1 all alive k a :
  collect all alive !! k = Some a ->
  exists k', all !! k' = Some a /\ alive !! k' = Some true.
Proof.
  unfold collect. revert alive k.
  induction all as [|x all IH]; intros [|y alive] k Hk; try (cbn in Hk; discriminate).
  cbn [zip_with] in Hk. rewrite filter_cons in Hk.
  destruct (decide (snd (x, y) = true)) as [Hy|Hy].
  - cbn [snd] in Hy. subst y. cbn [fmap list_fmap fst] in Hk.
    destruct k as [|k].
    + cbn in Hk. injection Hk as <-. exists 0. split; reflexivity.
    + cbn [lookup list_lookup] in Hk.
      destruct (IH alive k Hk) as (k' & H1 & H2). exists (S k'). split; assumption.
  - destruct (IH alive k Hk) as (k' & H1 & H2). exists (S k'). split; assumption.
Qed.

(** X14. Safety of the resolution (Steps 2 and 3), whatever the input:
    none of the operations handed on to the application step is a
    tombstone of the coalescing step, be it the only one, and no two of
    them conflict. *)
Theorem winners_conflict_free (all : list UpdateExt.t) :
  (forall k a, collect all (resolve all) !! k = Some a -> is_merged a = false) /\
  (forall i j a b, i < j ->
     collect all (resolve all) !! i = Some a ->
     collect all (resolve all) !! j = Some b ->
     overlaps a b = false /\ is_merged a = false /\ is_merged b = false).
Proof.
  assert (Hm : forall k a, collect all (resolve all) !! k = Some a -> is_merged a = false).
  { intros k a Hk. destruct (collect_lookup1 _ _ _ _ Hk) as (k' & Ha & Ha').
    eapply survivor_not_tombstone; eauto. }
  split; [exact Hm|].
  intros i j a b Hij Hi Hj.
  destruct (collect_lookup2 _ _ _ _ _ _ Hij Hi Hj) as (i' & j' & Hlt & Ha & Ha' & Hb & Hb').
  split; [|split].
  - eapply resolve_conflict_free; eauto.
  - eapply Hm; eauto.
  - eapply Hm; eauto.
Qed.

Lemma winners_conflict_free_witness :
  let a := mk 5 "user_1" 0 0 2 Replace "int" "long" in
  let b := mk 6 "user_2" 0 8 9 Replace "10" "22" in
  let c := mk 7 "user_3" 0 8 8 Replace "1" "7" in
  collect [a; b; c] (resolve [a; b; c]) = [a; c] /\
  (overlaps a c = false /\ is_merged a = false /\ is_merged c = false).
Proof.
  intros a b c. split; [reflexivity|].
  apply (proj2 (winners_conflict_free [a; b; c]) 0 1 a c); [lia | reflexivity | reflexivity].
Defined.

(** A batch that is one tombstone has no survivor. *)
Example lone_tombstone_dropped :
  let t := mk 5 "user_1" 0 0 2 Replace MERGED "x" in
  resolve [t] = [false] /\ collect [t] (resolve [t]) = [].
Proof. split; reflexivity. Qed.

(** *** Liveness: who is certain to survive *)

Section Winner.
Variables (all : list UpdateExt.t) (k : nat) (ak : UpdateExt.t).
Hypothesis Hk : all !! k = Some ak.
Hypothesis Hlive : is_merged ak = false.
Hypothesis Hwins : forall m b, m <> k -> all !! m = Some b ->
  is_merged b = false -> overlaps ak b = true -> newer_wins ak b = true.

Lemma resolve_inner_keeps i a js alive :
  all !! i = Some a -> is_merged a = false -> ~ In i js ->
  alive !! k = Some true ->
  resolve_inner all i a js alive !! k = Some true.
Proof.
  intros Ha Hma. revert alive.
  induction js as [|j js IH]; intros alive Hi Hal; cbn [resolve_inner]; [exact Hal|].
  assert (Hij : i <> j) by (intros ->; apply Hi; now left).
  assert (Hi' : ~ In i js) by (intros H; apply Hi; now right).
  destruct (alive !! j) as [[|]|] eqn:Ej; try (now apply IH).
  destruct (all !! j) as [b|] eqn:Eb; try (now apply IH).
  destruct (is_merged b) eqn:Hmb.
  { apply IH; [exact Hi'|].
    destruct (decide (j = k)) as [->|Hjk]; [congruence|].
    now rewrite list_lookup_insert_ne. }
  destruct (overlaps a b) eqn:Hov; [|now apply IH].
  destruct (newer_wins a b) eqn:Hnw.
  - apply IH; [exact Hi'|].
    destruct (decide (j = k)) as [->|Hjk]; [|now rewrite list_lookup_insert_ne].
    exfalso. assert (b = ak) by congruence. subst b.
    assert (Hik : i <> k) by exact Hij.
    rewrite overlaps_comm in Hov.
    pose proof (Hwins i a Hik Ha Hma Hov) as Hw.
    apply newer_wins_winner in Hw. apply newer_wins_loser in Hw. congruence.
  - destruct (decide (i = k)) as [->|Hik]; [|now rewrite list_lookup_insert_ne].
    exfalso. assert (a = ak) by congruence. subst a.
    assert (Hjk : j <> k) by (intros ->; now apply Hij).
    pose proof (Hwins j b Hjk Eb Hmb Hov). congruence.
Qed.

Lemma resolve_at_keeps alive i :
  alive !! k = Some true -> resolve_at all alive i !! k = Some true.
Proof.
  intros Hal. unfold resolve_at.
  destruct (alive !! i) as [[|]|] eqn:Ei; try exact Hal.
  destruct (all !! i) as [a|] eqn:Ea; try exact Hal.
  destruct (is_merged a) eqn:Hma.
  - destruct (decide (i = k)) as [->|Hik]; [congruence|].
    now rewrite list_lookup_insert_ne.
  - apply resolve_inner_keeps; auto.
    rewrite in_seq. lia.
Qed.

Lemma resolve_fold_keeps alive idx :
  alive !! k = Some true -> foldl (resolve_at all) alive idx !! k = Some true.
Proof.
  revert alive. induction idx as [|i idx IH]; intros alive Hal; cbn [foldl]; [exact Hal|].
  apply IH. now apply resolve_at_keeps.
Qed.

Lemma resolve_keeps : resolve all !! k = Some true.
Proof.
  unfold resolve. apply resolve_fold_keeps.
  apply lookup_replicate. split; [reflexivity|].
  apply lookup_lt_Some in Hk. exact Hk.
Qed.

End Winner.

Lemma collect_In all alive u :
  (exists k, all !! k = Some u /\ alive !! k = Some true) -> In u (collect all alive).
Proof.
  intros (k & Hu & Hal). unfold collect.
  apply (in_map fst _ (u, true)).
  apply list_elem_of_In, list_elem_of_filter. split; [reflexivity|].
  apply list_elem_of_lookup. exists k.
  apply lookup_zip_with_Some. exists u, true. auto.
Qed.

(** X15. Liveness of the resolution: an operation that is no tombstone and
    that beats, by [newer_wins], every other operation of the batch it
    conflicts with is among the survivors, wherever it stands in the
    batch.  In particular an operation that conflicts with nothing always
    survives. *)
Theorem winner_survives all k a :
  all !! k = Some a ->
  is_merged a = false ->
  (forall m b, m <> k -> all !! m = Some b -> is_merged b = false ->
     overlaps a b = true -> newer_wins a b = true) ->
  resolve all !! k = Some true /\ In a (collect all (resolve all)).
Proof.
  intros Hk Hm Hw.
  pose proof (resolve_keeps all k a Hk Hm Hw) as Hr.
  split; [exact Hr|]. apply collect_In. eauto.
Qed.

Lemma winner_survives_witness :
  let a := mk 5 "user_1" 0 0 2 Replace "int" "long" in
  let b := mk 6 "user_2" 0 8 9 Replace "10" "22" in
  let c := mk 7 "user_3" 0 8 8 Replace "1" "7" in
  resolve [a; b; c] !! 2 = Some true /\ In c (collect [a; b; c] (resolve [a; b; c])).
Proof.
  intros a b c.
  apply (winner_survives [a; b; c] 2 c); [reflexivity | reflexivity |].
  intros [|[|[|m]]] u Hne Hu _ Hov; try lia.
  - injection Hu as <-. discriminate Hov.
  - injection Hu as <-. reflexivity.
  - discriminate Hu.
Defined.

End ResolveFacts.

(** ** crdt.cpp: last-writer-wins, comparison by comparison *)

Module LwwFacts.
Import UpdateExt Crdt CrdtFacts ResolveFacts.




End LwwFacts.

(** ** crdt.cpp: coalescing, grouping and ordering of the survivors *)

Module CoalesceFacts.
Import UpdateExt Crdt CrdtFacts MergeFacts.

(** What coalescing may do to one operation: it stays where it is, with its
    author, columns and kind; its old text is kept or replaced by the
    marker. *)
Definition same_place (a a' : UpdateExt.t) : Prop :=
  line a' = line a /\ uid a' = uid a /\ cs a' = cs a /\ ce a' = ce a /\
  op a' = op a /\ (old_text a' = old_text a \/ old_text a' = MERGED).

Lemma same_place_refl a : same_place a a.
Proof. unfold same_place. tauto. Qed.

Lemma same_place_trans a b c : same_place a b -> same_place b c -> same_place a c.
Proof.
  unfold same_place. intros (H1 & H2 & H3 & H4 & H5 & H6) (G1 & G2 & G3 & G4 & G5 & G6).
  repeat split; try congruence.
  destruct G6 as [G6|G6]; [|now right]. destruct H6 as [H6|H6]; [left|right]; congruence.
Qed.

Definition kept_places (all all' : list UpdateExt.t) : Prop := Forall2 same_place all all'.

Lemma kept_places_refl all : kept_places all all.
Proof. induction all; constructor; auto using same_place_refl. Qed.

Lemma kept_places_trans l1 l2 l3 :
  kept_places l1 l2 -> kept_places l2 l3 -> kept_places l1 l3.
Proof.
  intros H. revert l3. induction H as [|a b l1 l2 Hab H IH]; intros l3 H3.
  - inversion H3. constructor.
  - inversion H3 as [|? c ? l3' Hbc H3']; subst. constructor.
    + eapply same_place_trans; eauto.
    + now apply IH.
Qed.

Lemma kept_places_insert all i a a' :
  all !! i = Some a -> same_place a a' -> kept_places all (<[i := a']> all).
Proof.
  intros Hi Ha. rewrite <- (list_insert_id all i a Hi) at 1.
  apply Forall2_insert; [apply kept_places_refl | exact Ha].
Qed.

Lemma coalesce_at_places i j all : kept_places all (coalesce_at i j all).
Proof.
  unfold coalesce_at.
  destruct (all !! i) as [a|] eqn:Hi; [|apply kept_places_refl].
  destruct (all !! j) as [b|] eqn:Hj; [|apply kept_places_refl].
  destruct (continues a b); [|apply kept_places_refl].
  eapply kept_places_trans.
  - apply (kept_places_insert all i a (absorb a b) Hi).
    unfold same_place, absorb. cbn. tauto.
  - destruct (decide (i = j)) as [->|Hij].
    + assert (b = a) by congruence. subst b.
      apply (kept_places_insert _ j (absorb a a)).
      * apply list_lookup_insert_eq. eapply lookup_lt_Some; eauto.
      * unfold same_place, absorb, tombstone. cbn. tauto.
    + apply (kept_places_insert _ j b).
      * rewrite list_lookup_insert_ne by exact Hij. exact Hj.
      * unfold same_place, tombstone. cbn. tauto.
Qed.

Lemma coalesce_inner_places i all : kept_places all (coalesce_inner i all).
Proof.
  unfold coalesce_inner. generalize (seq (S i) (length all - S i)) as js.
  intros js. revert all. induction js as [|j js IH]; intros all; cbn [foldl].
  - apply kept_places_refl.
  - eapply kept_places_trans; [apply coalesce_at_places | apply IH].
Qed.

(** X16. Coalescing never adds, removes or moves an operation and never
    changes the line, author, columns or kind of one: the vector keeps its
    length, and at every index the operation keeps these fields; its old
    text is either kept or replaced by the tombstone marker.  (Only the new
    text and the time stamp of a chain head are taken from later
    operations.) *)
Theorem coalesce_keeps_places (all : list UpdateExt.t) :
  length (coalesce all) = length all /\
  forall k a, all !! k = Some a ->
    exists a', coalesce all !! k = Some a' /\
      line a' = line a /\ uid a' = uid a /\ cs a' = cs a /\ ce a' = ce a /\
      op a' = op a /\ (old_text a' = old_text a \/ old_text a' = MERGED).
Proof.
  assert (H : kept_places all (coalesce all)).
  { unfold coalesce. generalize (seq 0 (length all)) as idx.
    intros idx. revert all. induction idx as [|i idx IH]; intros all; cbn [foldl].
    - apply kept_places_refl.
    - eapply kept_places_trans; [apply coalesce_inner_places | apply IH]. }
  split.
  - symmetry. eapply Forall2_length; eauto.
  - intros k a Hk.
    destruct (Forall2_lookup_l _ _ _ _ _ H Hk) as (a' & Ha' & Hs).
    exists a'. split; [exact Ha' | exact Hs].
Qed.

(** Where no operation continues an earlier one, coalescing changes
    nothing. *)
Definition chain_free (all : list UpdateExt.t) : Prop :=
  forall i j a b, i < j -> all !! i = Some a -> all !! j = Some b -> continues a b = false.

Lemma coalesce_at_chain_free all i j : chain_free all -> i < j -> coalesce_at i j all = all.
Proof.
  intros Hf Hij. unfold coalesce_at.
  destruct (all !! i) as [a|] eqn:Hi; [|reflexivity].
  destruct (all !! j) as [b|] eqn:Hj; [|reflexivity].
  now rewrite (Hf i j a b Hij Hi Hj).
Qed.

Lemma coalesce_inner_chain_free all i : chain_free all -> coalesce_inner i all = all.
Proof.
  intros Hf. unfold coalesce_inner.
  assert (H : forall js, (forall j, In j js -> i < j) ->
            foldl (fun acc j => coalesce_at i j acc) all js = all).
  { induction js as [|j js IH]; intros Hjs; cbn [foldl]; [reflexivity|].
    rewrite coalesce_at_chain_free; [|exact Hf|apply Hjs; now left].
    apply IH. intros j' Hj'. apply Hjs. now right. }
  apply H. intros j Hj. apply in_seq in Hj. lia.
Qed.

Lemma coalesce_chain_free all : chain_free all -> coalesce all = all.
Proof.
  intros Hf. unfold coalesce. generalize (seq 0 (length all)) as idx.
  induction idx as [|i idx IH]; cbn [foldl]; [reflexivity|].
  now rewrite coalesce_inner_chain_free.
Qed.

(** X17. A batch that is one chain (every operation continues the one before
    it: same author, line and start column, its old text the new text of
    the one before), on a line the document has, is applied as one
    operation: the first one, with the new text of the last.  The tombstone
    check is the only condition on the texts. *)
Theorem chain_applied_as_one (lines : list string) (o : UpdateExt.t)
    (rest : list UpdateExt.t) (local_unmerged recv_unmerged : list UpdateExt.t)
    (self_uid cur : string) :
  chain o rest -> local_unmerged ++ recv_unmerged = o :: rest ->
  is_merged o = false ->
  lines !! N.to_nat (line o) = Some cur ->
  surviving local_unmerged recv_unmerged = [chain_as_one o rest] /\
  do_merge_apply lines local_unmerged recv_unmerged self_uid
  = MergeResult true
      (<[N.to_nat (line o) := fst (apply_one (cur, 0%Z) (chain_as_one o rest))]> lines)
      [] [].
Proof.
  intros Hc Hin Ho Hl. split.
  - now apply surviving_chain.
  - now apply chain_merge.
Qed.

Lemma chain_applied_as_one_witness :
  let o1 := mk 1 "user_1" 0 8 9 Replace "10" "20" in
  let o2 := mk 2 "user_1" 0 8 9 Replace "20" "30" in
  let o3 := mk 3 "user_1" 0 8 9 Replace "30" "40" in
  surviving [o1; o2] [o3] = [chain_as_one o1 [o2; o3]] /\
  do_merge_apply ["int x = 10;"] [o1; o2] [o3] "user_1"
  = MergeResult true ["int x = 40;"] [] [].
Proof.
  intros o1 o2 o3.
  apply (chain_applied_as_one ["int x = 10;"] o1 [o2; o3] [o1; o2] [o3] "user_1"
           "int x = 10;").
  - repeat constructor.
  - reflexivity.
  - reflexivity.
  - reflexivity.
Defined.

End CoalesceFacts.

Module OrderFacts.
Import UpdateExt Crdt.

(** The order the comparison of lines 125-131 stands for: by start column,
    and at the same column the newer operation first. *)
Definition before (a b : UpdateExt.t) : Prop :=
  (cs a < cs b)%Z \/ (cs a = cs b /\ (ts b <= ts a)%N).

Lemma sort_lt_spec a b :
  sort_lt a b = true <-> (cs a < cs b)%Z \/ (cs a = cs b /\ (ts b < ts a)%N).
Proof.
  unfold sort_lt. destruct (Z.eqb_spec (cs a) (cs b)) as [E|E]; cbn [negb].
  - rewrite N.ltb_lt. lia.
  - rewrite Z.ltb_lt. lia.
Qed.

Lemma not_sort_lt a b : sort_lt a b = false <-> before b a.
Proof.
  unfold before. destruct (sort_lt a b) eqn:E.
  - apply sort_lt_spec in E. split; [discriminate|lia].
  - split; [intros _|reflexivity].
    assert (H : ~ ((cs a < cs b)%Z \/ (cs a = cs b /\ (ts b < ts a)%N))).
    { intros H. apply sort_lt_spec in H. congruence. }
    lia.
Qed.

Lemma before_trans a b c : before a b -> before b c -> before a c.
Proof. unfold before. lia. Qed.

Lemma sort_insert_perm u l : Permutation (sort_insert u l) (u :: l).
Proof.
  induction l as [|v l IH]; cbn [sort_insert]; [reflexivity|].
  destruct (sort_lt u v); [reflexivity|].
  rewrite IH. apply perm_swap.
Qed.

Lemma sort_insert_sorted u l :
  StronglySorted before l -> StronglySorted before (sort_insert u l).
Proof.
  induction l as [|v l IH]; intros Hs; cbn [sort_insert].
  - repeat constructor.
  - inversion Hs as [|? ? Hl Hv]; subst.
    destruct (sort_lt u v) eqn:E.
    + constructor; [exact Hs|].
      apply sort_lt_spec in E.
      assert (Huv : before u v) by (unfold before; lia).
      constructor; [exact Huv|].
      eapply Forall_impl; [exact Hv|]. intros w Hw. eapply before_trans; eauto.
    + constructor; [now apply IH|].
      apply not_sort_lt in E.
      rewrite (sort_insert_perm u l). constructor; assumption.
Qed.

Lemma sort_fold_perm acc l :
  Permutation (foldl (fun sorted u => sort_insert u sorted) acc l) (acc ++ l).
Proof.
  revert acc. induction l as [|u l IH]; intros acc; cbn [foldl].
  - now rewrite app_nil_r.
  - rewrite IH, sort_insert_perm. apply Permutation_middle.
Qed.

Lemma sort_fold_sorted acc l :
  StronglySorted before acc ->
  StronglySorted before (foldl (fun sorted u => sort_insert u sorted) acc l).
Proof.
  revert acc. induction l as [|u l IH]; intros acc Hs; cbn [foldl]; [exact Hs|].
  apply IH. now apply sort_insert_sorted.
Qed.

(** X18. The order in which the survivors of one line are applied: the
    sorted vector holds the same operations, and an operation stands
    before another only if its start column is smaller, or the start
    columns are equal and its time stamp is not older. *)
Theorem sort_spec (l : list UpdateExt.t) :
  Permutation (sort l) l /\
  forall i j a b, i < j -> sort l !! i = Some a -> sort l !! j = Some b ->
    (cs a < cs b)%Z \/ (cs a = cs b /\ (ts b <= ts a)%N).
Proof.
  split.
  - apply (sort_fold_perm [] l).
  - intros i j a b Hij Ha Hb.
    assert (Hs : StronglySorted before (sort l)).
    { apply sort_fold_sorted. constructor. }
    revert Hs i j Hij Ha Hb. generalize (sort l) as s.
    induction s as [|x s IH]; intros Hs i j Hij Ha Hb; [discriminate|].
    inversion Hs as [|? ? Hs' Hx]; subst.
    destruct j as [|j]; [lia|]. cbn [lookup list_lookup] in Hb.
    destruct i as [|i].
    + cbn in Ha. injection Ha as <-.
      rewrite Forall_forall in Hx. apply Hx.
      apply list_elem_of_lookup. eauto.
    + cbn [lookup list_lookup] in Ha. apply (IH Hs' i j); [lia|assumption..].
Qed.

(** *** Grouping by line *)

Fixpoint find_line (k : N) (m : list (N * list UpdateExt.t)) : option (list UpdateExt.t) :=
  match m with
  | [] => None
  | (k', v) :: m' => if (k =? k')%N then Some v else find_line k m'
  end.

Definition on_line (k : N) (ws : list UpdateExt.t) : list UpdateExt.t :=
  List.filter (fun u => (line u =? k)%N) ws.

Definition keys (m : list (N * list UpdateExt.t)) : list N := map fst m.

Lemma keys_map_push k u m x :
  In x (keys (map_push k u m)) -> x = k \/ In x (keys m).
Proof.
  induction m as [|[k' v] m IH]; cbn [map_push keys map fst In].
  - intros [H|[]]. now left.
  - destruct (N.eqb_spec k k') as [->|Hne].
    + cbn [keys map fst In]. tauto.
    + destruct (k <? k')%N; cbn [keys map fst In].
      * intros [H|[H|H]]; auto.
      * intros [H|H]; auto. destruct (IH H); auto.
Qed.

Lemma map_push_sorted k u m :
  StronglySorted N.lt (keys m) -> StronglySorted N.lt (keys (map_push k u m)).
Proof.
  induction m as [|[k' v] m IH]; intros Hs; cbn [map_push].
  - repeat constructor.
  - cbn [keys map fst] in Hs. inversion Hs as [|? ? Hs' Hk']; subst.
    destruct (N.eqb_spec k k') as [->|Hne]; [exact Hs|].
    destruct (N.ltb_spec k k') as [Hlt|Hge].
    + cbn [keys map fst]. constructor; [exact Hs|].
      constructor; [exact Hlt|].
      eapply Forall_impl; [exact Hk'|]. cbn. intros; lia.
    + cbn [keys map fst]. constructor; [now apply IH|].
      rewrite Forall_forall. intros x Hx. apply list_elem_of_In in Hx.
      apply keys_map_push in Hx as [->|Hx]; [lia|].
      rewrite Forall_forall in Hk'. apply Hk'. now apply list_elem_of_In.
Qed.

Lemma find_line_above k m :
  Forall (N.lt k) (keys m) -> find_line k m = None.
Proof.
  induction m as [|[k' v] m IH]; intros H; cbn [find_line]; [reflexivity|].
  cbn [keys map fst] in H. inversion H as [|? ? Hk Hm]; subst.
  destruct (N.eqb_spec k k') as [->|Hne]; [lia|]. now apply IH.
Qed.

Lemma find_line_map_push k u m k' :
  StronglySorted N.lt (keys m) ->
  find_line k' (map_push k u m)
  = if (k' =? k)%N then Some (default [] (find_line k m) ++ [u]) else find_line k' m.
Proof.
  induction m as [|[k0 v] m IH]; intros Hs; cbn [map_push find_line].
  - destruct (N.eqb_spec k' k); reflexivity.
  - cbn [keys map fst] in Hs. inversion Hs as [|? ? Hs' Hk0]; subst.
    destruct (N.eqb_spec k k0) as [->|Hne].
    + cbn [find_line default]. destruct (N.eqb_spec k' k0); reflexivity.
    + destruct (N.ltb_spec k k0) as [Hlt|Hge].
      * cbn [find_line]. destruct (N.eqb_spec k' k) as [E|Hne'].
        -- rewrite find_line_above; [reflexivity|].
           eapply Forall_impl; [exact Hk0|]. cbn. intros; lia.
        -- reflexivity.
      * cbn [find_line]. rewrite (IH Hs').
        destruct (N.eqb_spec k' k0) as [E|Hne0].
        -- destruct (N.eqb_spec k' k); [congruence|reflexivity].
        -- reflexivity.
Qed.

Lemma group_snoc ws u :
  group_by_line (ws ++ [u]) = map_push (line u) u (group_by_line ws).
Proof. unfold group_by_line. now rewrite foldl_app. Qed.

Lemma on_line_snoc k ws u :
  on_line k (ws ++ [u]) = on_line k ws ++ (if (line u =? k)%N then [u] else []).
Proof. unfold on_line. rewrite List.filter_app. reflexivity. Qed.

Lemma group_by_line_inv ws :
  StronglySorted N.lt (keys (group_by_line ws)) /\
  forall k, find_line k (group_by_line ws)
            = match on_line k ws with [] => None | v => Some v end.
Proof.
  induction ws as [|u ws [IHs IHf]] using rev_ind.
  - split; [constructor|reflexivity].
  - rewrite group_snoc. split; [now apply map_push_sorted|].
    intros k. rewrite (find_line_map_push _ _ _ _ IHs), on_line_snoc, !IHf.
    rewrite (N.eqb_sym k (line u)).
    destruct (N.eqb_spec (line u) k) as [E|Hne].
    + rewrite E. destruct (on_line k ws); reflexivity.
    + rewrite app_nil_r. reflexivity.
Qed.

Lemma find_line_In k v m :
  StronglySorted N.lt (keys m) -> (In (k, v) m <-> find_line k m = Some v).
Proof.
  induction m as [|[k' v'] m IH]; intros Hs; cbn [find_line In].
  - split; [tauto|discriminate].
  - cbn [keys map fst] in Hs. inversion Hs as [|? ? Hs' Hk']; subst.
    destruct (N.eqb_spec k k') as [->|Hne].
    + split.
      * intros [H|H]; [congruence|]. exfalso.
        rewrite Forall_forall in Hk'.
        assert (Hin : In k' (keys m)) by (apply (in_map fst _ _ H)).
        apply list_elem_of_In in Hin. specialize (Hk' _ Hin). lia.
      * intros H. left. congruence.
    + rewrite <- (IH Hs'). split; [intros [H|H]; [congruence|exact H] | tauto].
Qed.

(** X19. Step 4: the map built from the survivors has one entry for every
    line that has a survivor and for no other line, in increasing order of
    the line number; the entry of a line holds exactly the survivors of
    that line, in the order in which they survived. *)
Theorem group_by_line_spec (winners : list UpdateExt.t) :
  StronglySorted N.lt (map fst (group_by_line winners)) /\
  forall k v, In (k, v) (group_by_line winners)
    <-> v <> [] /\ v = List.filter (fun u => (line u =? k)%N) winners.
Proof.
  destruct (group_by_line_inv winners) as [Hs Hf]. split; [exact Hs|].
  intros k v. rewrite (find_line_In k v _ Hs), Hf. fold (on_line k winners).
  destruct (on_line k winners) as [|x l].
  - split; [discriminate|]. intros [H ->]. congruence.
  - split.
    + intros H. injection H as <-. split; [discriminate|reflexivity].
    + intros [_ ->]. reflexivity.
Qed.

End OrderFacts.

(** ** crdt.cpp: what the application step does to the document *)

Module ApplyFacts.
Import UpdateExt Crdt CrdtFacts MergeFacts StrAlgebra.

Lemma substr_from_chars (cur : string) (q : nat) :
  chars (Str.substr_from cur q) = drop q (chars cur).
Proof.
  unfold Str.substr_from. rewrite chars_substring. apply take_ge.
  rewrite length_drop, chars_length. lia.
Qed.

Lemma size_chars (s : string) : Str.size s = Z.of_nat (length (chars s)).
Proof. unfold Str.size. now rewrite chars_length. Qed.

(** One round of the application loop on a range that lies inside the
    working line. *)
Lemma apply_one_in_range cur off u (p q : nat) :
  (cs u + off = Z.of_nat p)%Z -> (ce u + off + 1 = Z.of_nat q)%Z ->
  p <= q -> 1 <= q -> q <= String.length cur ->
  chars (fst (apply_one (cur, off) u))
    = take p (chars cur) ++ chars (new_text u) ++ drop q (chars cur) /\
  snd (apply_one (cur, off) u)
    = (off + (Str.size (new_text u) - (Z.of_nat q - Z.of_nat p)))%Z.
Proof.
  intros Hp Hq Hpq H1 Hn. unfold apply_one. lazy beta iota zeta. cbn [fst snd].
  rewrite Hp. replace (ce u + off)%Z with (Z.of_nat q - 1)%Z by lia.
  unfold Str.size.
  replace (Z.max 0 (Z.of_nat p)) with (Z.of_nat p) by lia.
  replace (Z.min (Z.of_nat q - 1) (Z.of_nat (String.length cur) - 1))
    with (Z.of_nat q - 1)%Z by lia.
  replace (Z.of_nat q - 1 + 1)%Z with (Z.of_nat q) by lia. rewrite !Nat2Z.id.
  replace (0 <=? Z.of_nat q - 1)%Z with true by (symmetry; apply Z.leb_le; lia).
  cbn [andb]. split; [|lia].
  unfold Str.substr.
  destruct (Z.ltb_spec (Z.of_nat q) (Z.of_nat (String.length cur))) as [Hlt|Hge].
  - rewrite !chars_append, chars_substring, drop_0, substr_from_chars.
    now rewrite <- app_assoc.
  - rewrite chars_append, chars_substring, drop_0.
    rewrite (drop_ge (chars cur) q) by (rewrite chars_length; lia).
    now rewrite app_nil_r.
Qed.

(** X20. One round of the application loop (Step 5) on a range that lies
    inside the working line, after the running offset is added: the
    characters from the start column to the end column, both included, are
    replaced by the new text, and the running offset grows by exactly the
    change of the length of the line.  (The range may be empty, the end
    column one before the start column, as long as the end column is not
    negative.) *)
Theorem apply_in_range (cur : string) (offset : Z) (u : UpdateExt.t) :
  (0 <= cs u + offset)%Z ->
  (cs u + offset <= ce u + offset + 1)%Z ->
  (0 <= ce u + offset)%Z ->
  (ce u + offset < Str.size cur)%Z ->
  chars (fst (apply_one (cur, offset) u))
    = take (Z.to_nat (cs u + offset)) (chars cur) ++ chars (new_text u)
      ++ drop (Z.to_nat (ce u + offset + 1)) (chars cur) /\
  (snd (apply_one (cur, offset) u) - offset
   = Str.size (fst (apply_one (cur, offset) u)) - Str.size cur)%Z.
Proof.
  intros H0 H1 H2 H3. unfold Str.size in H3.
  destruct (apply_one_in_range cur offset u (Z.to_nat (cs u + offset))
              (Z.to_nat (ce u + offset + 1))) as [Hc Ho]; try lia.
  split; [exact Hc|].
  rewrite Ho, (size_chars (fst _)), Hc, (size_chars cur), (size_chars (new_text u)).
  rewrite !length_app, length_take, length_drop, !chars_length. lia.
Qed.

Lemma apply_in_range_witness :
  let u := mk 1 "user_1" 0 4 4 Replace "x" "total" in
  chars (fst (apply_one ("int x = 10;", 0%Z) u))
    = take 4 (chars "int x = 10;") ++ chars "total" ++ drop 5 (chars "int x = 10;") /\
  (snd (apply_one ("int x = 10;", 0%Z) u) - 0
   = Str.size (fst (apply_one ("int x = 10;", 0%Z) u)) - Str.size "int x = 10;")%Z.
Proof.
  intros u.
  apply (apply_in_range "int x = 10;" 0 u); vm_compute; congruence.
Defined.

(** X21. The stand-alone applier and the application loop of the merge
    agree on an empty line and wherever the clamped range of the operation
    is not empty.  (On a non-empty line with an empty clamped range the
    stand-alone applier returns the line unchanged, the merge does not.) *)
Theorem appliers_agree (cur : string) (u : UpdateExt.t) :
  Str.empty cur = true \/
  (Z.max 0 (cs u) <= Z.min (ce u) (Str.size cur - 1))%Z ->
  apply_update_to_line cur u = fst (apply_one (cur, 0%Z) u).
Proof.
  intros [He|Hr]; unfold apply_update_to_line, apply_one; lazy beta iota zeta;
    cbn [fst]; rewrite !Z.add_0_r.
  - rewrite He. destruct cur; [|discriminate]. change (Str.size "") with 0%Z.
    replace (0 <=? Z.min (ce u) (0 - 1))%Z with false by (symmetry; apply Z.leb_gt; lia).
    cbn [andb]. unfold Str.substr. now destruct (Z.to_nat (Z.max 0 (cs u))).
  - destruct (Str.empty cur) eqn:He.
    + destruct cur; [|discriminate]. change (Str.size "") with 0%Z in *.
      replace (0 <=? Z.min (ce u) (0 - 1))%Z with false by (symmetry; apply Z.leb_gt; lia).
      cbn [andb]. unfold Str.substr. now destruct (Z.to_nat (Z.max 0 (cs u))).
    + replace (Z.min (ce u) (Str.size cur - 1) <? Z.max 0 (cs u))%Z with false
        by (symmetry; apply Z.ltb_ge; lia).
      reflexivity.
Qed.

Lemma appliers_agree_witness :
  let u := mk 1 "user_1" 0 8 9 Replace "10" "20" in
  apply_update_to_line "int x = 10;" u = fst (apply_one ("int x = 10;", 0%Z) u).
Proof.
  intros u. apply (appliers_agree "int x = 10;" u). right. vm_compute. congruence.
Defined.

(** Where the clamped range is empty the two differ: an operation whose
    start column lies behind the line is dropped by the one and appended by
    the other. *)
Example appliers_differ :
  let u := mk 1 "user_1" 0 20 20 Insert "" "!" in
  apply_update_to_line "int" u = "int" /\ fst (apply_one ("int", 0%Z) u) = "int!".
Proof. split; reflexivity. Qed.

(** *** Lines the merge does not touch *)

Lemma extend_lines_lookup lines n i cur :
  lines !! i = Some cur -> extend_lines lines n !! i = Some cur.
Proof. intros H. unfold extend_lines. now apply lookup_app_l_Some. Qed.

Lemma apply_line_frame lines kv i cur :
  lines !! i = Some cur -> N.to_nat (fst kv) <> i -> apply_line lines kv !! i = Some cur.
Proof.
  intros Hi Hne. unfold apply_line.
  destruct (extend_lines lines (N.to_nat (fst kv)) !! N.to_nat (fst kv)).
  - rewrite list_lookup_insert_ne by exact Hne. now apply extend_lines_lookup.
  - now apply extend_lines_lookup.
Qed.

Lemma apply_line_length lines kv : length lines <= length (apply_line lines kv).
Proof.
  unfold apply_line.
  destruct (extend_lines lines (N.to_nat (fst kv)) !! N.to_nat (fst kv));
    rewrite ?length_insert; unfold extend_lines; rewrite length_app; lia.
Qed.

Lemma apply_lines_frame groups lines i cur :
  lines !! i = Some cur ->
  (forall kv, In kv groups -> N.to_nat (fst kv) <> i) ->
  foldl apply_line lines groups !! i = Some cur.
Proof.
  revert lines. induction groups as [|kv groups IH]; intros lines Hi Hg; cbn [foldl].
  - exact Hi.
  - apply IH.
    + apply apply_line_frame; [exact Hi|]. apply Hg. now left.
    + intros kv' H. apply Hg. now right.
Qed.

Lemma apply_lines_length groups lines :
  length lines <= length (foldl apply_line lines groups).
Proof.
  revert lines. induction groups as [|kv groups IH]; intros lines; cbn [foldl]; [lia|].
  etransitivity; [apply (apply_line_length lines kv) | apply IH].
Qed.

Lemma group_keys ws kv :
  In kv (group_by_line ws) -> exists u, In u ws /\ line u = fst kv.
Proof.
  intros H. apply (in_map fst) in H. fold (OrderFacts.keys (group_by_line ws)) in H.
  revert H. generalize (fst kv) as k. clear kv.
  induction ws as [|u ws IH] using rev_ind; intros k H.
  - destruct H.
  - rewrite OrderFacts.group_snoc in H. apply OrderFacts.keys_map_push in H as [->|H].
    + exists u. split; [apply in_or_app; right; now left|reflexivity].
    + destruct (IH k H) as (u' & Hu' & Hl). exists u'. split; [|exact Hl].
      apply in_or_app. now left.
Qed.

(** X22. What a merge never does to the document: it never removes a
    line; a line on which no operation survives is left exactly as it was;
    when the returned flag is false the document is left as it was; and
    whenever it is given any operation, both buffers are empty
    afterwards. *)
Theorem merge_frame (lines : list string) (local_unmerged recv_unmerged : list UpdateExt.t)
    (self_uid : string) :
  let r := do_merge_apply lines local_unmerged recv_unmerged self_uid in
  length lines <= length (lines_out r) /\
  (forall i cur, lines !! i = Some cur ->
     (forall u, In u (surviving local_unmerged recv_unmerged) -> N.to_nat (line u) <> i) ->
     lines_out r !! i = Some cur) /\
  (changed r = false -> lines_out r = lines) /\
  local_out r = [] /\ recv_out r = [].
Proof.
  cbv zeta. unfold do_merge_apply.
  destruct local_unmerged as [|a lo], recv_unmerged as [|b re];
    lazy beta iota zeta; cbn [changed lines_out local_out recv_out].
  { repeat split; auto. }
  all: (split; [apply apply_lines_length|]; split;
    [intros i cur Hi Hu; apply apply_lines_frame; [exact Hi|];
     intros kv Hkv; destruct (group_keys _ _ Hkv) as (u & Hin & <-); now apply Hu
    |split; [|split; reflexivity]]).
  all: (match goal with |- context [surviving ?l ?r] =>
          destruct (surviving l r); [reflexivity|discriminate] end).
Qed.

(** *** Two edits that do not touch *)

Lemma resolve_pair a b :
  is_merged a = false -> is_merged b = false -> overlaps a b = false ->
  resolve [a; b] = [true; true].
Proof.
  intros Ha Hb Hov. unfold resolve, resolve_at; simpl. rewrite Ha; simpl.
  rewrite Hb, Hov; simpl. reflexivity.
Qed.

Lemma coalesce_pair a b : cs a <> cs b -> coalesce [a; b] = [a; b].
Proof.
  intros Hne. apply CoalesceFacts.coalesce_chain_free.
  intros i j x y Hij Hx Hy.
  assert (Hc : cs x <> cs y).
  { destruct i as [|[|i]], j as [|[|j]]; try lia; cbn in Hx, Hy; try discriminate.
    injection Hx as <-. injection Hy as <-. exact Hne. }
  unfold continues. apply Z.eqb_neq in Hc. rewrite Hc. now rewrite andb_false_r.
Qed.

Lemma sort_pair a b : (cs a < cs b)%Z -> sort [a; b] = [a; b] /\ sort [b; a] = [a; b].
Proof.
  intros Hlt. unfold sort. cbn [foldl sort_insert]. unfold sort_lt.
  assert (E1 : (cs b =? cs a)%Z = false) by (apply Z.eqb_neq; lia).
  assert (E2 : (cs a =? cs b)%Z = false) by (apply Z.eqb_neq; lia).
  assert (E3 : (cs b <? cs a)%Z = false) by (apply Z.ltb_ge; lia).
  assert (E4 : (cs a <? cs b)%Z = true) by (apply Z.ltb_lt; lia).
  rewrite E1, E2, E3, E4. cbn [negb]. split; reflexivity.
Qed.

Lemma apply_two cur a b :
  (0 <= cs a <= ce a)%Z -> (ce a < cs b)%Z -> (cs b <= ce b)%Z -> (ce b < Str.size cur)%Z ->
  chars (fst (foldl apply_one (cur, 0%Z) [a; b]))
  = take (Z.to_nat (cs a)) (chars cur) ++ chars (new_text a)
    ++ take (Z.to_nat (cs b - (ce a + 1))) (drop (Z.to_nat (ce a + 1)) (chars cur))
    ++ chars (new_text b) ++ drop (Z.to_nat (ce b + 1)) (chars cur).
Proof.
  intros Ha Hab Hb Hn. unfold Str.size in Hn. cbn [foldl].
  set (pa := Z.to_nat (cs a)). set (qa := Z.to_nat (ce a + 1)).
  set (pb := Z.to_nat (cs b)). set (qb := Z.to_nat (ce b + 1)).
  destruct (apply_one_in_range cur 0 a pa qa) as [Hc1 Ho1]; try (subst pa qa; lia).
  destruct (apply_one (cur, 0%Z) a) as [r1 off1] eqn:E1. cbn [fst snd] in Hc1, Ho1.
  assert (Hl1 : String.length r1 = pa + String.length (new_text a) + (String.length cur - qa)).
  { rewrite <- (chars_length r1), Hc1, !length_app, length_take, length_drop, !chars_length.
    subst pa qa. lia. }
  unfold Str.size in Ho1.
  destruct (apply_one_in_range r1 off1 b
              (pa + String.length (new_text a) + (pb - qa))
              (pa + String.length (new_text a) + (qb - qa))) as [Hc2 _];
    try (subst pa qa pb qb; lia).
  rewrite Hc2, Hc1.
  assert (Hp : length (take pa (chars cur)) = pa).
  { rewrite length_take, chars_length. subst pa. lia. }
  replace (Z.to_nat (cs b - (ce a + 1))) with (pb - qa) by (subst pa qa pb qb; lia).
  rewrite (app_assoc (take pa (chars cur)) (chars (new_text a))).
  rewrite take_app_add' by (rewrite length_app, Hp, chars_length; reflexivity).
  rewrite drop_app_add' by (rewrite length_app, Hp, chars_length; reflexivity).
  rewrite drop_drop.
  replace (qa + (qb - qa)) with qb by (subst pa qa pb qb; lia).
  rewrite <- !app_assoc. reflexivity.
Qed.

(** X23. "Non-conflicting updates commute": two operations on the same
    existing line that do not overlap, neither a tombstone, with ranges
    [cs..ce] inside the line and the range of [a] wholly before that of
    [b], are both applied, and the result is the simultaneous replacement
    of both ranges, whichever of the two comes first in the batch and
    however the batch is split into local and received operations. *)
Theorem disjoint_edits_commute (lines : list string) (a b : UpdateExt.t) (cur : string)
    (local_unmerged recv_unmerged : list UpdateExt.t) (self_uid : string) :
  local_unmerged ++ recv_unmerged = [a; b] \/ local_unmerged ++ recv_unmerged = [b; a] ->
  line a = line b ->
  lines !! N.to_nat (line a) = Some cur ->
  is_merged a = false -> is_merged b = false ->
  overlaps a b = false ->
  (0 <= cs a <= ce a)%Z -> (ce a < cs b)%Z -> (cs b <= ce b)%Z -> (ce b < Str.size cur)%Z ->
  exists out,
    do_merge_apply lines local_unmerged recv_unmerged self_uid
      = MergeResult true (<[N.to_nat (line a) := out]> lines) [] [] /\
    chars out
      = take (Z.to_nat (cs a)) (chars cur) ++ chars (new_text a)
        ++ take (Z.to_nat (cs b - (ce a + 1))) (drop (Z.to_nat (ce a + 1)) (chars cur))
        ++ chars (new_text b) ++ drop (Z.to_nat (ce b + 1)) (chars cur).
Proof.
  intros Hin Hl Hcur Hma Hmb Hov Ha Hab Hb Hn.
  exists (fst (foldl apply_one (cur, 0%Z) [a; b])).
  split; [|now apply apply_two].
  assert (Hlt : (cs a < cs b)%Z) by lia.
  destruct (sort_pair a b Hlt) as [S1 S2].
  assert (Hext : extend_lines lines (N.to_nat (line a)) = lines).
  { apply extend_lines_in_range. eapply lookup_lt_Some; eauto. }
  destruct Hin as [Hin|Hin].
  - rewrite (merge_split_irrelevant lines local_unmerged recv_unmerged [a; b] []
               self_uid self_uid) by (now rewrite app_nil_r).
    unfold do_merge_apply, surviving. lazy beta iota zeta. cbn [app].
    rewrite coalesce_pair by lia. rewrite (resolve_pair a b Hma Hmb Hov).
    change (collect [a; b] [true; true]) with [a; b].
    unfold group_by_line. cbn [negb foldl map_push].
    rewrite <- Hl, N.eqb_refl. cbn [app foldl]. unfold apply_line. cbn [fst snd].
    rewrite Hext, Hcur, S1. reflexivity.
  - rewrite (merge_split_irrelevant lines local_unmerged recv_unmerged [b; a] []
               self_uid self_uid) by (now rewrite app_nil_r).
    unfold do_merge_apply, surviving. lazy beta iota zeta. cbn [app].
    rewrite coalesce_pair by lia.
    rewrite (resolve_pair b a Hmb Hma) by (now rewrite overlaps_comm).
    change (collect [b; a] [true; true]) with [b; a].
    unfold group_by_line. cbn [negb foldl map_push].
    rewrite Hl, N.eqb_refl. cbn [app foldl]. unfold apply_line. cbn [fst snd].
    rewrite <- Hl, Hext, Hcur, S2. reflexivity.
Qed.

Lemma disjoint_edits_commute_witness :
  let a := mk 9 "user_1" 0 4 4 Replace "x" "total" in
  let b := mk 3 "user_2" 0 8 9 Replace "10" "7" in
  exists out,
    do_merge_apply ["int x = 10;"] [b] [a] "user_2"
      = MergeResult true (<[0 := out]> ["int x = 10;"]) [] [] /\
    chars out = chars "int total = 7;".
Proof.
  intros a b.
  apply (disjoint_edits_commute ["int x = 10;"] a b "int x = 10;" [b] [a] "user_2");
    try reflexivity; try (vm_compute; split; congruence); try (vm_compute; congruence).
  now right.
Defined.

End ApplyFacts.

(** ** editor.cpp: the operation records made from a change *)

Module WireFacts.
Import Str StrFacts Editor.



(** A text of 256 bytes or more does not survive the trip: the peer sees
    its first 255 bytes. *)
Example long_text_is_cut :
  let long := String.concat "" (repeat "0123456789abcdef" 16) in
  let c := Change.mk 0 0 255 long "" "12:00:00" "user_1" "delete" in
  String.length long = 256 /\
  String.length (UpdateExt.old_text (to_ext (to_message "user_1" 7 c))) = 255.
Proof. vm_compute. split; reflexivity. Qed.

End WireFacts.

Module DiffFacts.
Import Str StrFacts StrAlgebra Editor DetectFacts.

Lemma at_chars (s : string) (i : Z) : Str.at_ s i = chars s !! Z.to_nat i.
Proof. unfold Str.at_. apply chars_get. Qed.

Lemma same_char_true oldL i newL j :
  same_char oldL i newL j = true -> Str.at_ oldL i = Str.at_ newL j.
Proof.
  unfold same_char. destruct (Str.at_ oldL i), (Str.at_ newL j); try discriminate.
  intros H. apply Ascii.eqb_eq in H. now subst.
Qed.

(** The first loop stops on a common prefix. *)
Lemma scan_prefix_agree fuel oldL newL m cs :
  (0 <= cs)%Z ->
  (forall k, k < Z.to_nat cs -> chars oldL !! k = chars newL !! k) ->
  let r := scan_prefix fuel oldL newL m cs in
  (cs <= r)%Z /\ (r <= Z.max cs m)%Z /\
  forall k, k < Z.to_nat r -> chars oldL !! k = chars newL !! k.
Proof.
  revert cs. induction fuel as [|fuel IH]; intros cs H0 Hk; cbn [scan_prefix].
  - cbv zeta. repeat split; try lia. exact Hk.
  - destruct ((cs <? m)%Z && same_char oldL cs newL cs) eqn:E.
    + apply andb_true_iff in E as [E1 E2]. apply Z.ltb_lt in E1.
      apply same_char_true in E2. rewrite !at_chars in E2.
      destruct (IH (cs + 1)%Z) as (H1 & H2 & H3); [lia| |].
      * intros k Hlt. destruct (decide (k = Z.to_nat cs)) as [->|Hne]; [exact E2|].
        apply Hk. lia.
      * cbv zeta. repeat split; try lia. exact H3.
    + cbv zeta. repeat split; try lia. exact Hk.
Qed.

(** The second loop stops on a common suffix that does not reach into the
    prefix. *)
Lemma scan_suffix_agree fuel oldL newL ol nl cs tail :
  (0 <= tail)%Z -> (tail <= ol - cs)%Z -> (tail <= nl - cs)%Z ->
  (forall k, (0 <= k < tail)%Z ->
     Str.at_ oldL (ol - 1 - k) = Str.at_ newL (nl - 1 - k)) ->
  let r := scan_suffix fuel oldL newL ol nl cs tail in
  (tail <= r)%Z /\ (r <= ol - cs)%Z /\ (r <= nl - cs)%Z /\
  forall k, (0 <= k < r)%Z -> Str.at_ oldL (ol - 1 - k) = Str.at_ newL (nl - 1 - k).
Proof.
  revert tail. induction fuel as [|fuel IH]; intros tail H0 H1 H2 Hk; cbn [scan_suffix].
  - cbv zeta. repeat split; try lia. exact Hk.
  - destruct ((tail <? ol - cs)%Z && (tail <? nl - cs)%Z
              && same_char oldL (ol - 1 - tail) newL (nl - 1 - tail)) eqn:E.
    + apply andb_true_iff in E as [E E3]. apply andb_true_iff in E as [E1 E2].
      apply Z.ltb_lt in E1, E2. apply same_char_true in E3.
      destruct (IH (tail + 1)%Z) as (G1 & G2 & G3 & G4); try lia.
      * intros k Hlt. destruct (Z.eq_dec k tail) as [->|Hne]; [exact E3|].
        apply Hk. lia.
      * cbv zeta. repeat split; try lia. exact G4.
    + cbv zeta. repeat split; try lia. exact Hk.
Qed.

(** The three parts the scans cut the two lines into. *)
Lemma diff_parts (oldL newL : string) :
  let old_len := Str.size oldL in
  let new_len := Str.size newL in
  let max_common_left := Z.min old_len new_len in
  let cs := scan_prefix (Z.to_nat max_common_left) oldL newL max_common_left 0 in
  let tail := scan_suffix (Z.to_nat (old_len - cs)) oldL newL old_len new_len cs 0 in
  (0 <= cs <= max_common_left)%Z /\
  (0 <= tail)%Z /\ (tail <= old_len - cs)%Z /\ (tail <= new_len - cs)%Z /\
  take (Z.to_nat cs) (chars oldL) = take (Z.to_nat cs) (chars newL) /\
  drop (Z.to_nat (old_len - tail)) (chars oldL)
    = drop (Z.to_nat (new_len - tail)) (chars newL).
Proof.
  intros old_len new_len m cs tail.
  assert (Hm : (0 <= m)%Z) by (subst m old_len new_len; unfold Str.size; lia).
  destruct (scan_prefix_agree (Z.to_nat m) oldL newL m 0) as (P1 & P2 & P3);
    [lia | intros k Hk; change (Z.to_nat 0) with 0 in Hk; lia |].
  fold cs in P1, P2, P3.
  destruct (scan_suffix_agree (Z.to_nat (old_len - cs)) oldL newL old_len new_len cs 0)
    as (S1 & S2 & S3 & S4); try (subst m; lia).
  fold tail in S1, S2, S3, S4.
  repeat split; try lia.
  - apply list_eq. intros k. destruct (decide (k < Z.to_nat cs)) as [Hlt|Hge].
    + rewrite !lookup_take_lt by exact Hlt. now apply P3.
    + rewrite !lookup_take_ge by lia. reflexivity.
  - apply list_eq. intros k. rewrite !lookup_drop.
    destruct (decide (Z.of_nat k < tail)%Z) as [Hlt|Hge].
    + specialize (S4 (tail - 1 - Z.of_nat k)%Z ltac:(lia)). rewrite !at_chars in S4.
      replace (Z.to_nat (old_len - tail) + k)
        with (Z.to_nat (old_len - 1 - (tail - 1 - Z.of_nat k))) by lia.
      replace (Z.to_nat (new_len - tail) + k)
        with (Z.to_nat (new_len - 1 - (tail - 1 - Z.of_nat k))) by lia.
      exact S4.
    + rewrite !lookup_ge_None_2; [reflexivity| |].
      * rewrite chars_length. subst new_len. unfold Str.size in *. lia.
      * rewrite chars_length. subst old_len. unfold Str.size in *. lia.
Qed.

Lemma seg_chars (s : string) (cs mid : Z) :
  chars (if (0 <? mid)%Z then Str.substr s (Z.to_nat cs) (Z.to_nat mid) else "")
  = take (Z.to_nat mid) (drop (Z.to_nat cs) (chars s)).
Proof.
  destruct (Z.ltb_spec 0 mid) as [H|H].
  - unfold Str.substr. apply chars_substring.
  - replace (Z.to_nat mid) with 0 by lia. reflexivity.
Qed.

Lemma three_parts {A} (l : list A) (a b : nat) :
  l = take a l ++ take b (drop a l) ++ drop (a + b) l.
Proof. now rewrite <- drop_drop, take_drop, take_drop. Qed.

Lemma empty_chars (s : string) : s = "" <-> chars s = [].
Proof. destruct s; cbn; split; congruence. Qed.

(** What [diff_line] records, in terms of the two lines. *)
Lemma diff_line_shape i oldL newL lc c :
  diff_line i oldL newL lc = Some c ->
  exists P S : list ascii,
    chars oldL = P ++ chars (Change.old_text c) ++ S /\
    chars newL = P ++ chars (Change.new_text c) ++ S /\
    Change.col_start c = Z.of_nat (length P) /\
    Change.col_end c
      = (if Str.empty (Change.old_text c) then Z.of_nat (length P)
         else Z.of_nat (length P) + Str.size (Change.old_text c) - 1)%Z /\
    Change.line c = Z.of_nat i /\
    Change.old_text c <> Change.new_text c /\
    Change.type c
      = (if Str.empty (Change.old_text c) then "insert"
         else if Str.empty (Change.new_text c) then "delete" else "replace").
Proof.
  unfold diff_line. destruct (String.eqb oldL newL); [discriminate|].
  pose proof (diff_parts oldL newL) as Hp. cbv zeta in Hp |- *.
  set (ol := Str.size oldL) in *. set (nl := Str.size newL) in *.
  set (cs := scan_prefix (Z.to_nat (Z.min ol nl)) oldL newL (Z.min ol nl) 0) in *.
  set (tail := scan_suffix (Z.to_nat (ol - cs)) oldL newL ol nl cs 0) in *.
  destruct Hp as (Hcs & Ht0 & Hto & Htn & Hpre & Hsuf).
  set (old_seg := if (0 <? ol - cs - tail)%Z
                  then Str.substr oldL (Z.to_nat cs) (Z.to_nat (ol - cs - tail)) else "").
  set (new_seg := if (0 <? nl - cs - tail)%Z
                  then Str.substr newL (Z.to_nat cs) (Z.to_nat (nl - cs - tail)) else "").
  assert (Ho : chars old_seg
               = take (Z.to_nat (ol - cs - tail)) (drop (Z.to_nat cs) (chars oldL)))
    by apply seg_chars.
  assert (Hn : chars new_seg
               = take (Z.to_nat (nl - cs - tail)) (drop (Z.to_nat cs) (chars newL)))
    by apply seg_chars.
  destruct (String.eqb_spec old_seg new_seg) as [|Hne]; [discriminate|].
  intros H. injection H as <-. cbn [Change.old_text Change.new_text Change.col_start
    Change.col_end Change.line Change.type].
  exists (take (Z.to_nat cs) (chars oldL)), (drop (Z.to_nat (ol - tail)) (chars oldL)).
  assert (Hlen : length (take (Z.to_nat cs) (chars oldL)) = Z.to_nat cs).
  { rewrite length_take, chars_length. subst ol. unfold Str.size in *. lia. }
  split; [|split; [|split; [|split; [|split; [|split]]]]].
  - rewrite Ho.
    replace (Z.to_nat (ol - tail)) with (Z.to_nat cs + Z.to_nat (ol - cs - tail)) by lia.
    apply three_parts.
  - rewrite Hn, Hpre, Hsuf.
    replace (Z.to_nat (nl - tail)) with (Z.to_nat cs + Z.to_nat (nl - cs - tail)) by lia.
    apply three_parts.
  - rewrite Hlen. lia.
  - rewrite Hlen. destruct (Str.empty old_seg); lia.
  - reflexivity.
  - exact Hne.
  - destruct (Str.empty old_seg) eqn:Eo, (Str.empty new_seg) eqn:En; try reflexivity.
    apply empty_iff in Eo, En. congruence.
Qed.

(** X25. The minimal-span diff of one line: whenever it records a change,
    the old line is a prefix, the recorded old text and a suffix, the new
    line is the same prefix, the recorded new text and the same suffix,
    the start column is the length of the prefix, the two texts differ, and
    the kind is insert for an empty old text, delete for an empty new
    text and replace otherwise. *)
Theorem diff_line_reconstructs i oldL newL lc c :
  diff_line i oldL newL lc = Some c ->
  exists prefix suffix : string,
    oldL = prefix +:+ Change.old_text c +:+ suffix /\
    newL = prefix +:+ Change.new_text c +:+ suffix /\
    Change.col_start c = Str.size prefix /\
    Change.line c = Z.of_nat i /\
    Change.old_text c <> Change.new_text c /\
    Change.type c
      = (if Str.empty (Change.old_text c) then "insert"
         else if Str.empty (Change.new_text c) then "delete" else "replace").
Proof.
  intros H. destruct (diff_line_shape _ _ _ _ _ H) as (P & S & H1 & H2 & H3 & _ & H5 & H6 & H7).
  exists (string_of_list_ascii P), (string_of_list_ascii S).
  assert (HP : chars (string_of_list_ascii P) = P) by apply list_ascii_of_string_of_list_ascii.
  assert (HS : chars (string_of_list_ascii S) = S) by apply list_ascii_of_string_of_list_ascii.
  repeat split; try assumption.
  - apply chars_inj. now rewrite !chars_append, HP, HS.
  - apply chars_inj. now rewrite !chars_append, HP, HS.
  - rewrite H3. unfold Str.size. now rewrite <- chars_length, HP.
Qed.

Lemma diff_line_reconstructs_witness :
  let lc := Change.mk (-1) (-1) (-1) "" "" "12:00:00" "user_1" "none" in
  let c := Change.mk 0 8 9 "10" "25" "12:00:00" "user_1" "replace" in
  exists prefix suffix : string,
    "int x = 10;" = prefix +:+ Change.old_text c +:+ suffix /\
    "int x = 25;" = prefix +:+ Change.new_text c +:+ suffix /\
    Change.col_start c = Str.size prefix /\
    Change.line c = Z.of_nat 0 /\
    Change.old_text c <> Change.new_text c /\
    Change.type c
      = (if Str.empty (Change.old_text c) then "insert"
         else if Str.empty (Change.new_text c) then "delete" else "replace").
Proof.
  intros lc c. apply (diff_line_reconstructs 0 "int x = 10;" "int x = 25;" lc c).
  reflexivity.
Defined.

End DiffFacts.

(** ** editor.cpp and crdt.cpp together: replaying what was detected *)

Module ReplayFacts.
Import Str StrFacts StrAlgebra Editor DetectFacts DiffFacts.
Import UpdateExt Crdt CrdtFacts MergeFacts ApplyFacts.

(** One round of the application loop, on any range. *)
Lemma apply_one_chars (cur : string) (off : Z) (u : UpdateExt.t) :
  chars (fst (apply_one (cur, off) u))
  = take (Z.to_nat (cs u + off)) (chars cur) ++ chars (new_text u)
    ++ (if (0 <=? Z.min (ce u + off) (Str.size cur - 1))%Z
        then drop (Z.to_nat (ce u + off + 1)) (chars cur) else []).
Proof.
  unfold apply_one. lazy beta iota zeta. cbn [fst].
  replace (Z.to_nat (Z.max 0 (cs u + off))) with (Z.to_nat (cs u + off)) by lia.
  unfold Str.substr.
  destruct (Z.leb_spec 0 (Z.min (ce u + off) (Str.size cur - 1))) as [H0|H0];
    cbn [andb].
  - destruct (Z.ltb_spec (Z.min (ce u + off) (Str.size cur - 1) + 1) (Str.size cur))
      as [H1|H1].
    + replace (Z.min (ce u + off) (Str.size cur - 1)) with (ce u + off)%Z by lia.
      rewrite !chars_append, chars_substring, drop_0, substr_from_chars.
      now rewrite <- app_assoc.
    + rewrite chars_append, chars_substring, drop_0.
      rewrite (drop_ge (chars cur)) by (rewrite chars_length; unfold Str.size in *; lia).
      now rewrite app_nil_r.
  - rewrite chars_append, chars_substring, drop_0. now rewrite app_nil_r.
Qed.

(** Replaying an operation whose start column is the length of [P] and
    whose end column follows the rule of the change detection, on the line
    [P ++ O ++ S]. *)
Lemma replay_shape (oldL : string) (P O S : list ascii) (u : UpdateExt.t) :
  chars oldL = P ++ O ++ S ->
  cs u = Z.of_nat (length P) ->
  ce u = (match O with
          | [] => Z.of_nat (length P)
          | _ => Z.of_nat (length P) + Z.of_nat (length O) - 1
          end)%Z ->
  chars (fst (apply_one (oldL, 0%Z) u))
  = P ++ chars (new_text u) ++ (match O with [] => drop 1 S | _ => S end).
Proof.
  intros Hold Hcs Hce. rewrite apply_one_chars, !Z.add_0_r, Hcs, Nat2Z.id, Hold.
  rewrite take_app_length. f_equal. f_equal.
  rewrite (size_chars oldL), Hold, !length_app, Hce.
  destruct O as [|o O].
  - cbn [app length Nat.add]. destruct S as [|s S].
    + cbn [length]. rewrite Nat.add_0_r.
      destruct (Z.leb_spec 0 (Z.min (Z.of_nat (length P)) (Z.of_nat (length P) - 1)));
        [|reflexivity].
      rewrite drop_ge; [reflexivity|]. rewrite length_app. cbn [length]. lia.
    + replace (0 <=? Z.min (Z.of_nat (length P))
                       (Z.of_nat (length P + length (s :: S)) - 1))%Z with true
        by (symmetry; apply Z.leb_le; cbn [length]; lia).
      replace (Z.to_nat (Z.of_nat (length P) + 1)) with (length P + 1) by lia.
      now rewrite drop_app_add.
  - replace (0 <=? Z.min (Z.of_nat (length P) + Z.of_nat (length (o :: O)) - 1)
                     (Z.of_nat (length P + (length (o :: O) + length S)) - 1))%Z with true
      by (symmetry; apply Z.leb_le; cbn [length]; lia).
    replace (Z.to_nat (Z.of_nat (length P) + Z.of_nat (length (o :: O)) - 1 + 1))
      with (length P + length (o :: O)) by (cbn [length]; lia).
    rewrite drop_app_add. change (o :: O ++ S) with ((o :: O) ++ S).
    now rewrite drop_app_length.
Qed.

Lemma replay_diff g_user_id now i oldL newL lc c :
  diff_line i oldL newL lc = Some c ->
  exists P S : list ascii,
    chars newL = P ++ chars (Change.new_text c) ++ S /\
    Change.col_start c = Z.of_nat (length P) /\
    (Change.col_start c = Str.size oldL <-> Change.old_text c = "" /\ S = []) /\
    chars (fst (apply_one (oldL, 0%Z) (change_to_ext g_user_id now c)))
    = P ++ chars (Change.new_text c)
      ++ (if Str.empty (Change.old_text c) then drop 1 S else S).
Proof.
  intros H. destruct (diff_line_shape _ _ _ _ _ H) as (P & S & H1 & H2 & H3 & H4 & _).
  exists P, S. split; [exact H2|]. split; [exact H3|]. split.
  - rewrite H3, (size_chars oldL), H1, !length_app. rewrite empty_chars.
    split.
    + intros E. split; apply length_zero_iff_nil; lia.
    + intros [-> ->]. cbn [length]. lia.
  - rewrite (replay_shape oldL P (chars (Change.old_text c)) S); cbn [cs ce new_text change_to_ext].
    + destruct (Change.old_text c); reflexivity.
    + exact H1.
    + exact H3.
    + rewrite H4. unfold Str.size. rewrite <- chars_length.
      destruct (Change.old_text c); reflexivity.
Qed.

(** X26. Replaying one detected change of a line on the old line, as the
    merge does on its baseline: a change that removes text (replace or
    delete) and an insertion at the end of the line give back the new
    line; an insertion before the end of the line gives the new line
    without the character that follows the inserted text, so one character
    of the line is lost. *)
Theorem replay_detected (g_user_id : string) (now : N) (i : nat) (oldL newL : string)
    (lc c : Change.t) :
  diff_line i oldL newL lc = Some c ->
  let out := fst (apply_one (oldL, 0%Z) (change_to_ext g_user_id now c)) in
  (Change.old_text c <> "" \/ Change.col_start c = Str.size oldL -> out = newL) /\
  (Change.old_text c = "" -> (Change.col_start c < Str.size oldL)%Z ->
   let k := Z.to_nat (Change.col_start c) + String.length (Change.new_text c) in
   chars out = take k (chars newL) ++ drop (S k) (chars newL) /\
   String.length newL = S (String.length out)).
Proof.
  intros H out. destruct (replay_diff g_user_id now _ _ _ _ _ H) as (P & S & H2 & H3 & H4 & H5).
  fold out in H5. split.
  - intros Hc. apply chars_inj. rewrite H5, H2.
    destruct (Str.empty (Change.old_text c)) eqn:E; [|reflexivity].
    apply empty_iff in E. destruct Hc as [Hc|Hc]; [contradiction|].
    apply H4 in Hc as [_ ->]. reflexivity.
  - intros Ho Hlt k.
    assert (HS : S <> []).
    { intros ->. assert (Change.col_start c = Str.size oldL) by (apply H4; auto). lia. }
    rewrite Ho in H5. cbn [Str.empty] in H5.
    assert (Hk : k = length (P ++ chars (Change.new_text c))).
    { subst k. rewrite length_app, chars_length, H3. lia. }
    assert (Hout : chars out = take k (chars newL) ++ drop (Datatypes.S k) (chars newL)).
    { rewrite H5, H2. rewrite (app_assoc P (chars (Change.new_text c)) S).
      rewrite Hk, take_app_length.
      replace (Datatypes.S (length (P ++ chars (Change.new_text c))))
        with (length (P ++ chars (Change.new_text c)) + 1) by lia.
      rewrite drop_app_add. now rewrite <- app_assoc. }
    split; [exact Hout|].
    rewrite <- !chars_length, H5, H2, !length_app, length_drop.
    destruct S; [congruence|]. cbn [length]. lia.
Qed.

Lemma replay_detected_witness :
  let lc := Change.mk (-1) (-1) (-1) "" "" "12:00:00" "user_1" "none" in
  let c := Change.mk 0 4 4 "" "my_" "12:00:00" "user_1" "insert" in
  let out := fst (apply_one ("int x = 10;", 0%Z) (change_to_ext "user_1" 7 c)) in
  diff_line 0 "int x = 10;" "int my_x = 10;" lc = Some c /\
  out = "int my_ = 10;" /\
  String.length "int my_x = 10;" = S (String.length out).
Proof.
  intros lc c out. split; [reflexivity|]. split; [reflexivity|].
  apply (replay_detected "user_1" 7 0 "int x = 10;" "int my_x = 10;" lc c eq_refl);
    [reflexivity | vm_compute; congruence].
Defined.

End ReplayFacts.

(** ** crdt.cpp: the operations of the merging peer itself *)

Module OwnOperationFacts.
Import StrAlgebra UpdateExt Crdt MergeFacts ReplayFacts.

(** C5, as the code has it.  [do_merge_apply] has no guard for the
    operations of the merging peer: its result does not depend on
    [self_uid], and an operation that survives is applied to the line of
    the document it is given whoever its author is and whatever the line
    holds at [col_start].  For a single operation that is no tombstone, on
    a line [cur] the document has, the merged line is the first
    [max(0, cs)] characters of [cur], then the new text, then, only if
    [min(ce, len - 1)] is not negative, the characters of [cur] from
    position [ce + 1] on. *)
Theorem merge_applies_own_operations (lines : list string) (u : UpdateExt.t)
    (cur self_uid : string) :
  is_merged u = false ->
  lines !! N.to_nat (line u) = Some cur ->
  do_merge_apply lines [u] [] self_uid
    = MergeResult true (<[N.to_nat (line u) := fst (apply_one (cur, 0%Z) u)]> lines) [] [] /\
  chars (fst (apply_one (cur, 0%Z) u))
    = take (Z.to_nat (Z.max 0 (cs u))) (chars cur) ++ chars (new_text u)
      ++ (if (0 <=? Z.min (ce u) (Str.size cur - 1))%Z
          then drop (Z.to_nat (ce u + 1)) (chars cur) else []) /\
  do_merge_apply lines [] [u] self_uid = do_merge_apply lines [u] [] self_uid /\
  do_merge_apply lines [u] [] (uid u) = do_merge_apply lines [u] [] self_uid /\
  (forall lines' local_unmerged recv_unmerged other_uid,
     do_merge_apply lines' local_unmerged recv_unmerged other_uid
     = do_merge_apply lines' local_unmerged recv_unmerged self_uid).
Proof.
  intros Hm Hl.
  destruct (merge_one_operation lines u cur self_uid Hm Hl) as (H1 & H2 & H3 & H4).
  split; [exact H1|]. split; [|split; [exact H2|split; [exact H3|exact H4]]].
  rewrite apply_one_chars, !Z.add_0_r.
  replace (Z.to_nat (Z.max 0 (cs u))) with (Z.to_nat (cs u)) by lia.
  reflexivity.
Qed.

Lemma merge_applies_own_operations_witness :
  do_merge_apply ["int x = 100;"] [op_own] [] "user_1"
    = MergeResult true ["int x = 1000;"] [] [] /\
  chars (fst (apply_one ("int x = 100;", 0%Z) op_own)) = chars "int x = 1000;".
Proof.
  pose proof (merge_applies_own_operations ["int x = 100;"] op_own "int x = 100;"
                "user_1" eq_refl eq_refl) as H.
  split; [exact (proj1 H)|exact (proj1 (proj2 H))].
Defined.

(** With a negative end column nothing of the line is kept behind the new
    text: an insertion at column 0 with end column -1 replaces the line. *)
Example negative_end_column :
  let u := mk 5 "user_1" 0 0 (-1) Insert "" "X" in
  lines_out (do_merge_apply ["abc"] [u] [] "user_1") = ["X"].
Proof. reflexivity. Qed.

End OwnOperationFacts.

(** ** One cycle of the editor: detect the edit, replay it on the baseline *)

Module EditCycleFacts.
Import Str StrFacts StrAlgebra Editor DetectFacts DiffFacts ReplayFacts.
Import UpdateExt Crdt CrdtFacts MergeFacts ApplyFacts.

(** A document read at any line number: lines behind the end read as
    empty, which is how the trimming of trailing empty lines sees them. *)
Definition line_at (lines : list string) (i : nat) : string := default "" (lines !! i).

(** The first operation of a batch on line [i]. *)
Fixpoint op_on (i : nat) (ops : list UpdateExt.t) : option UpdateExt.t :=
  match ops with
  | [] => None
  | u :: ops' => if (line u =? N.of_nat i)%N then Some u else op_on i ops'
  end.

(** Line [i] after the operation on it, if there is one, is applied. *)
Definition replayed (lines : list string) (ops : list UpdateExt.t) (i : nat) : string :=
  match op_on i ops with
  | Some u => fst (apply_one (line_at lines i, 0%Z) u)
  | None => line_at lines i
  end.

Definition by_line (a b : UpdateExt.t) : Prop := (line a < line b)%N.

Definition live (u : UpdateExt.t) : Prop := is_merged u = false.

Lemma sorted_lookup {A} (R : A -> A -> Prop) (l : list A) i j a b :
  StronglySorted R l -> i < j -> l !! i = Some a -> l !! j = Some b -> R a b.
Proof.
  intros Hs. revert i j. induction Hs as [|x l Hs IH Hx]; intros i j Hij Ha Hb;
    [discriminate|].
  destruct j as [|j]; [lia|]. cbn [lookup list_lookup] in Hb.
  destruct i as [|i].
  - cbn in Ha. injection Ha as <-. rewrite Forall_forall in Hx. apply Hx.
    apply list_elem_of_lookup. eauto.
  - cbn [lookup list_lookup] in Ha. apply (IH i j); [lia|assumption..].
Qed.

Lemma distinct_lines ops i j a b :
  StronglySorted by_line ops -> i <> j ->
  ops !! i = Some a -> ops !! j = Some b -> line a <> line b.
Proof.
  intros Hs Hne Ha Hb. destruct (Nat.lt_total i j) as [H|[H|H]]; [|contradiction|].
  - pose proof (sorted_lookup by_line ops i j a b Hs H Ha Hb) as Hlt.
    unfold by_line in Hlt. lia.
  - pose proof (sorted_lookup by_line ops j i b a Hs H Hb Ha) as Hlt.
    unfold by_line in Hlt. lia.
Qed.

Lemma overlaps_other_line a b : line a <> line b -> overlaps a b = false.
Proof. intros H. unfold overlaps. apply N.eqb_neq in H. now rewrite H. Qed.

Lemma continues_other_line a b : line a <> line b -> continues a b = false.
Proof. intros H. unfold continues. apply N.eqb_neq in H. now rewrite H. Qed.

Lemma resolve_inner_length all i a js alive :
  length (resolve_inner all i a js alive) = length alive.
Proof.
  revert alive. induction js as [|j js IH]; intros alive; cbn [resolve_inner]; [reflexivity|].
  destruct (alive !! j) as [[|]|]; try apply IH.
  destruct (all !! j) as [b|]; try apply IH.
  destruct (is_merged b); [rewrite IH; apply length_insert|].
  destruct (overlaps a b); [|apply IH].
  destruct (newer_wins a b); [rewrite IH|]; apply length_insert.
Qed.

Lemma resolve_at_length all alive i : length (resolve_at all alive i) = length alive.
Proof.
  unfold resolve_at. destruct (alive !! i) as [[|]|]; try reflexivity.
  destruct (all !! i) as [a|]; try reflexivity.
  destruct (is_merged a); [apply length_insert | apply resolve_inner_length].
Qed.

Lemma resolve_length all : length (resolve all) = length all.
Proof.
  unfold resolve.
  assert (H : forall idx alive, length (foldl (resolve_at all) alive idx) = length alive).
  { induction idx as [|i idx IH]; intros alive; cbn [foldl]; [reflexivity|].
    now rewrite IH, resolve_at_length. }
  now rewrite H, length_replicate.
Qed.

Lemma collect_all_alive all alive :
  length alive = length all ->
  (forall k, k < length all -> alive !! k = Some true) ->
  collect all alive = all.
Proof.
  unfold collect. revert alive.
  induction all as [|x all IH]; intros [|y alive] Hl Hall; try discriminate; [reflexivity|].
  assert (y = true).
  { specialize (Hall 0 ltac:(cbn; lia)). cbn in Hall. congruence. }
  subst y. cbn [zip_with]. rewrite filter_cons_True by reflexivity.
  cbn [fmap list_fmap fst]. f_equal. apply IH.
  - cbn in Hl. lia.
  - intros k Hk. apply (Hall (S k)). cbn. lia.
Qed.

(** Operations on pairwise different lines, none a tombstone, all
    survive. *)
Lemma surviving_distinct ops :
  StronglySorted by_line ops -> Forall live ops -> surviving ops [] = ops.
Proof.
  intros Hs Hl. unfold surviving. rewrite app_nil_r.
  rewrite CoalesceFacts.coalesce_chain_free.
  2:{ intros i j a b Hij Ha Hb. apply continues_other_line.
      apply (distinct_lines ops i j a b Hs); [lia|assumption..]. }
  apply collect_all_alive; [apply resolve_length|].
  intros k Hk. destruct (lookup_lt_is_Some_2 ops k Hk) as [a Ha].
  apply (ResolveFacts.resolve_keeps ops k a Ha).
  - rewrite Forall_forall in Hl. apply Hl. apply list_elem_of_lookup. eauto.
  - intros m b Hne Hb _ Hov.
    rewrite overlaps_other_line in Hov; [discriminate|].
    apply (distinct_lines ops k m a b Hs); [lia|assumption..].
Qed.

Lemma map_push_above k u m :
  Forall (fun kv => (fst kv < k)%N) m -> map_push k u m = m ++ [(k, [u])].
Proof.
  induction m as [|[k' v] m IH]; intros H; cbn [map_push app]; [reflexivity|].
  inversion H as [|? ? Hk Hm]; subst. cbn [fst] in Hk.
  destruct (N.eqb_spec k k') as [->|_]; [lia|].
  destruct (N.ltb_spec k k') as [Hlt|_]; [lia|].
  now rewrite IH.
Qed.

Lemma group_fold_sorted ops m :
  StronglySorted by_line ops ->
  Forall (fun kv => Forall (fun u => (fst kv < line u)%N) ops) m ->
  foldl (fun m u => map_push (line u) u m) m ops
  = m ++ map (fun u => (line u, [u])) ops.
Proof.
  revert m. induction ops as [|u ops IH]; intros m Hs Hm; cbn [foldl map].
  - now rewrite app_nil_r.
  - inversion Hs as [|? ? Hs' Hu]; subst.
    rewrite map_push_above.
    2:{ eapply Forall_impl; [exact Hm|]. intros kv Hkv. now inversion Hkv. }
    rewrite IH; [now rewrite <- app_assoc|exact Hs'|].
    apply Forall_app. split.
    + eapply Forall_impl; [exact Hm|]. intros kv Hkv. now inversion Hkv.
    + constructor; [|constructor]. exact Hu.
Qed.

Lemma group_sorted ops :
  StronglySorted by_line ops ->
  group_by_line ops = map (fun u => (line u, [u])) ops.
Proof. intros Hs. unfold group_by_line. now rewrite group_fold_sorted. Qed.

Lemma line_at_extend lines n i : line_at (extend_lines lines n) i = line_at lines i.
Proof.
  unfold line_at, extend_lines.
  destruct (decide (i < length lines)) as [Hlt|Hge].
  - now rewrite lookup_app_l.
  - rewrite lookup_app_r by lia. rewrite (proj2 (lookup_ge_None lines i)) by lia.
    destruct (replicate (S n - length lines) "" !! (i - length lines)) as [s|] eqn:E;
      [|reflexivity].
    apply lookup_replicate_1 in E as [-> _]. reflexivity.
Qed.

Lemma apply_line_single lines k u i :
  line_at (apply_line lines (k, [u])) i
  = if decide (i = N.to_nat k) then fst (apply_one (line_at lines i, 0%Z) u)
    else line_at lines i.
Proof.
  unfold apply_line. cbn [fst snd].
  change (sort [u]) with [u]. cbn [foldl].
  assert (Hlen : N.to_nat k < length (extend_lines lines (N.to_nat k))).
  { unfold extend_lines. rewrite length_app, length_replicate. lia. }
  destruct (lookup_lt_is_Some_2 _ _ Hlen) as [cur Hcur]. rewrite Hcur.
  assert (Hc : cur = line_at lines (N.to_nat k)).
  { rewrite <- (line_at_extend lines (N.to_nat k)). unfold line_at. now rewrite Hcur. }
  destruct (decide (i = N.to_nat k)) as [->|Hne].
  - unfold line_at at 1. rewrite list_lookup_insert_eq by exact Hlen. cbn. now rewrite Hc.
  - unfold line_at at 1. rewrite list_lookup_insert_ne by congruence.
    apply (line_at_extend lines (N.to_nat k) i).
Qed.

Lemma op_on_above i ops :
  Forall (fun u => (N.of_nat i < line u)%N) ops -> op_on i ops = None.
Proof.
  induction ops as [|u ops IH]; intros H; cbn [op_on]; [reflexivity|].
  inversion H as [|? ? Hu Hr]; subst.
  destruct (N.eqb_spec (line u) (N.of_nat i)) as [E|_]; [lia|]. now apply IH.
Qed.

(** The application step on a batch with at most one operation for each
    line. *)
Lemma fold_apply ops :
  StronglySorted by_line ops ->
  forall lines i,
    line_at (foldl apply_line lines (map (fun u => (line u, [u])) ops)) i
    = replayed lines ops i.
Proof.
  induction ops as [|u ops IH]; intros Hs lines i; cbn [map foldl].
  - reflexivity.
  - inversion Hs as [|? ? Hs' Hu]; subst.
    rewrite (IH Hs'). unfold replayed. cbn [op_on].
    rewrite !apply_line_single.
    destruct (N.eqb_spec (line u) (N.of_nat i)) as [E|Hne].
    + rewrite op_on_above.
      2:{ eapply Forall_impl; [exact Hu|]. unfold by_line. intros v Hv. lia. }
      rewrite decide_True by lia. reflexivity.
    + rewrite decide_False by lia. reflexivity.
Qed.

(** The merge of a batch of local operations on pairwise different
    lines, on any document. *)
Lemma merge_one_per_line lines ops self_uid i :
  StronglySorted by_line ops -> Forall live ops ->
  line_at (lines_out (do_merge_apply lines ops [] self_uid)) i = replayed lines ops i.
Proof.
  intros Hs Hl. unfold do_merge_apply.
  destruct ops as [|u ops]; [reflexivity|].
  lazy beta iota zeta. cbn [lines_out].
  rewrite (surviving_distinct _ Hs Hl), (group_sorted _ Hs).
  now apply fold_apply.
Qed.

Lemma diff_line_None i oldL newL lc : diff_line i oldL newL lc = None -> oldL = newL.
Proof.
  unfold diff_line. destruct (String.eqb_spec oldL newL) as [E|_]; [intros _; exact E|].
  pose proof (diff_parts oldL newL) as Hp. cbv zeta in Hp |- *.
  set (ol := Str.size oldL) in *. set (nl := Str.size newL) in *.
  set (cs := scan_prefix (Z.to_nat (Z.min ol nl)) oldL newL (Z.min ol nl) 0) in *.
  set (tail := scan_suffix (Z.to_nat (ol - cs)) oldL newL ol nl cs 0) in *.
  destruct Hp as (Hcs & Ht0 & Hto & Htn & Hpre & Hsuf).
  set (old_seg := if (0 <? ol - cs - tail)%Z
                  then Str.substr oldL (Z.to_nat cs) (Z.to_nat (ol - cs - tail)) else "").
  set (new_seg := if (0 <? nl - cs - tail)%Z
                  then Str.substr newL (Z.to_nat cs) (Z.to_nat (nl - cs - tail)) else "").
  assert (Ho : chars old_seg
               = take (Z.to_nat (ol - cs - tail)) (drop (Z.to_nat cs) (chars oldL)))
    by apply seg_chars.
  assert (Hn : chars new_seg
               = take (Z.to_nat (nl - cs - tail)) (drop (Z.to_nat cs) (chars newL)))
    by apply seg_chars.
  destruct (String.eqb_spec old_seg new_seg) as [E|_]; [|discriminate].
  intros _. apply chars_inj.
  rewrite (three_parts (chars oldL) (Z.to_nat cs) (Z.to_nat (ol - cs - tail))).
  rewrite (three_parts (chars newL) (Z.to_nat cs) (Z.to_nat (nl - cs - tail))).
  rewrite <- Ho, <- Hn, E, Hpre.
  replace (Z.to_nat cs + Z.to_nat (ol - cs - tail)) with (Z.to_nat (ol - tail)) by lia.
  replace (Z.to_nat cs + Z.to_nat (nl - cs - tail)) with (Z.to_nat (nl - tail)) by lia.
  now rewrite Hsuf.
Qed.

Lemma to_uint32_index (i : nat) :
  (Z.of_nat i < 2 ^ 31)%Z -> to_uint32 (Z.of_nat i) = N.of_nat i.
Proof. intros H. unfold to_uint32. rewrite Z.mod_small by lia. lia. Qed.

Lemma sorted_snoc {A} (R : A -> A -> Prop) (l : list A) (x : A) :
  StronglySorted R l -> Forall (fun y => R y x) l -> StronglySorted R (l ++ [x]).
Proof.
  induction l as [|y l IH]; intros Hs Hf; cbn [app].
  - repeat constructor.
  - inversion Hs as [|? ? Hs' Hy]; subst. inversion Hf as [|? ? Hyx Hf']; subst.
    constructor; [now apply IH|].
    apply Forall_app. split; [exact Hy|]. constructor; [exact Hyx|constructor].
Qed.

Lemma op_on_below j ops :
  Forall (fun u => (line u < N.of_nat j)%N) ops -> op_on j ops = None.
Proof.
  induction ops as [|u ops IH]; intros H; cbn [op_on]; [reflexivity|].
  inversion H as [|? ? Hu Hr]; subst.
  destruct (N.eqb_spec (line u) (N.of_nat j)) as [E|_]; [lia|]. now apply IH.
Qed.

Lemma op_on_snoc i ops u :
  op_on i (ops ++ [u])
  = match op_on i ops with
    | Some x => Some x
    | None => if (line u =? N.of_nat i)%N then Some u else None
    end.
Proof.
  induction ops as [|v ops IH]; cbn [op_on app]; [reflexivity|].
  destruct (line v =? N.of_nat i)%N; [reflexivity|exact IH].
Qed.

Section Cycle.
Variables (g_user_id : string) (now_ns : nat -> N).
Variables (prev_lines new_lines : list string).
Hypothesis Hprev : (Z.of_nat (length prev_lines) < 2 ^ 31)%Z.
Hypothesis Hnew : (Z.of_nat (length new_lines) < 2 ^ 31)%Z.
Hypothesis Hplain : forall i oldL newL lc c,
  prev_lines !! i = Some oldL -> new_lines !! i = Some newL ->
  diff_line i oldL newL lc = Some c ->
  (Change.old_text c <> "" \/ Change.col_start c = Str.size oldL) /\
  Change.old_text c <> MERGED.
Hypothesis Hgone : forall i l,
  length new_lines <= i -> prev_lines !! i = Some l -> l <> MERGED.

(** The operations buffered when the loops have reached line [j]: one for
    each line below [j] at most, in the order of the lines, and replaying
    them on the old document gives the new lines below [j]. *)
Definition replays (j : nat) (ops : list UpdateExt.t) : Prop :=
  Forall (fun u => (line u < N.of_nat j)%N) ops /\
  Forall live ops /\
  StronglySorted by_line ops /\
  forall i, i < j -> replayed prev_lines ops i = line_at new_lines i.

Lemma replays_skip j ops :
  replays j ops -> line_at prev_lines j = line_at new_lines j -> replays (S j) ops.
Proof.
  intros (H1 & H2 & H3 & H4) Hj. repeat split; try assumption.
  - eapply Forall_impl; [exact H1|]. cbn. intros; lia.
  - intros i Hi. destruct (decide (i = j)) as [->|Hne]; [|apply H4; lia].
    unfold replayed. now rewrite op_on_below.
Qed.

Lemma replays_push j ops u :
  replays j ops -> line u = N.of_nat j -> live u ->
  fst (apply_one (line_at prev_lines j, 0%Z) u) = line_at new_lines j ->
  replays (S j) (ops ++ [u]).
Proof.
  intros (H1 & H2 & H3 & H4) Hl Hu Hj. repeat split.
  - apply Forall_app. split.
    + eapply Forall_impl; [exact H1|]. cbn. intros; lia.
    + constructor; [lia|constructor].
  - apply Forall_app. split; [exact H2|]. constructor; [exact Hu|constructor].
  - apply sorted_snoc; [exact H3|].
    eapply Forall_impl; [exact H1|]. unfold by_line. cbn. intros; lia.
  - intros i Hi. unfold replayed. rewrite op_on_snoc.
    destruct (decide (i = j)) as [->|Hne].
    + rewrite op_on_below by exact H1. rewrite Hl, N.eqb_refl. exact Hj.
    + specialize (H4 i ltac:(lia)). unfold replayed in H4.
      destruct (op_on i ops); [exact H4|].
      destruct (N.eqb_spec (line u) (N.of_nat i)) as [E|_]; [lia|exact H4].
Qed.

Lemma changed_step st j :
  j < Nat.min (length prev_lines) (length new_lines) ->
  replays j (local_unmerged st) ->
  replays (S j) (local_unmerged (changed_line g_user_id now_ns prev_lines new_lines st j)).
Proof.
  intros Hj Hinv. unfold changed_line.
  destruct (lookup_lt_is_Some_2 prev_lines j ltac:(lia)) as [oldL Ho].
  destruct (lookup_lt_is_Some_2 new_lines j ltac:(lia)) as [newL Hn].
  rewrite Ho, Hn.
  assert (Hpo : line_at prev_lines j = oldL) by (unfold line_at; now rewrite Ho).
  assert (Hpn : line_at new_lines j = newL) by (unfold line_at; now rewrite Hn).
  destruct (diff_line j oldL newL (last_change st)) as [c|] eqn:Ed.
  - cbn [buffer_op local_unmerged].
    destruct (Hplain j oldL newL _ c Ho Hn Ed) as [Hc Hm].
    destruct (diff_line_shape _ _ _ _ _ Ed) as (_ & _ & _ & _ & _ & _ & Hline & _).
    apply replays_push; [exact Hinv| | |].
    + cbn [change_to_ext line]. rewrite Hline. apply to_uint32_index. lia.
    + unfold live, is_merged. cbn [change_to_ext old_text]. now apply String.eqb_neq.
    + rewrite Hpo, Hpn. apply chars_inj.
      destruct (replay_diff g_user_id (now_ns (S (ticks st))) _ _ _ _ _ Ed)
        as (P & S & G2 & G3 & G4 & G5).
      rewrite G5, G2.
      destruct (Str.empty (Change.old_text c)) eqn:E; [|reflexivity].
      apply empty_iff in E. destruct Hc as [Hc|Hc]; [contradiction|].
      apply G4 in Hc as [_ ->]. reflexivity.
  - apply replays_skip; [exact Hinv|]. rewrite Hpo, Hpn.
    now apply diff_line_None in Ed.
Qed.

Lemma added_step st j :
  length prev_lines <= j < length new_lines ->
  replays j (local_unmerged st) ->
  replays (S j) (local_unmerged (added_line g_user_id now_ns new_lines st j)).
Proof.
  intros Hj Hinv. unfold added_line.
  destruct (lookup_lt_is_Some_2 new_lines j ltac:(lia)) as [l Hn]. rewrite Hn.
  assert (Hpo : line_at prev_lines j = "").
  { unfold line_at. now rewrite (proj2 (lookup_ge_None prev_lines j)) by lia. }
  assert (Hpn : line_at new_lines j = l) by (unfold line_at; now rewrite Hn).
  destruct (Str.empty l) eqn:E.
  - apply replays_skip; [exact Hinv|]. apply empty_iff in E. congruence.
  - lazy zeta. cbn [buffer_op local_unmerged].
    apply replays_push; [exact Hinv| | |].
    + cbn [change_to_ext line Change.line]. apply to_uint32_index. lia.
    + reflexivity.
    + rewrite Hpo, Hpn. apply chars_inj. rewrite apply_one_chars.
      cbn [change_to_ext cs ce new_text Change.col_start Change.col_end Change.new_text].
      change (Str.size "") with 0%Z. cbn. now rewrite app_nil_r.
Qed.

Lemma removed_step st j :
  length new_lines <= j < length prev_lines ->
  replays j (local_unmerged st) ->
  replays (S j) (local_unmerged (removed_line g_user_id now_ns prev_lines st j)).
Proof.
  intros Hj Hinv. unfold removed_line.
  destruct (lookup_lt_is_Some_2 prev_lines j ltac:(lia)) as [l Ho]. rewrite Ho.
  assert (Hpo : line_at prev_lines j = l) by (unfold line_at; now rewrite Ho).
  assert (Hpn : line_at new_lines j = "").
  { unfold line_at. now rewrite (proj2 (lookup_ge_None new_lines j)) by lia. }
  destruct (Str.empty l) eqn:E.
  - apply replays_skip; [exact Hinv|]. apply empty_iff in E. congruence.
  - lazy zeta. cbn [buffer_op local_unmerged].
    apply replays_push; [exact Hinv| | |].
    + cbn [change_to_ext line Change.line]. apply to_uint32_index. lia.
    + unfold live, is_merged. cbn [change_to_ext old_text Change.old_text].
      apply String.eqb_neq. apply (Hgone j l); [lia|exact Ho].
    + rewrite Hpo, Hpn. apply chars_inj. rewrite apply_one_chars.
      cbn [change_to_ext cs ce new_text Change.col_start Change.col_end Change.new_text].
      rewrite !Z.add_0_r. change (Z.to_nat 0) with 0. rewrite take_0.
      replace (Z.min (Str.size l - 1) (Str.size l - 1)) with (Str.size l - 1)%Z by lia.
      destruct (0 <=? Str.size l - 1)%Z; [|reflexivity].
      rewrite drop_ge; [reflexivity|]. rewrite chars_length. unfold Str.size. lia.
Qed.

Lemma replays_fold (f : detect_state -> nat -> detect_state) (n a : nat) st :
  (forall s j, a <= j < a + n -> replays j (local_unmerged s) ->
     replays (S j) (local_unmerged (f s j))) ->
  replays a (local_unmerged st) ->
  replays (a + n) (local_unmerged (foldl f st (seq a n))).
Proof.
  revert a st. induction n as [|n IH]; intros a st Hf Hinv; cbn [seq foldl].
  - now rewrite Nat.add_0_r.
  - replace (a + S n) with (S a + n) by lia. apply IH.
    + intros s j Hj. apply Hf. lia.
    + apply Hf; [lia|exact Hinv].
Qed.

Lemma detect_replays now_time st :
  local_unmerged st = [] ->
  replays (Nat.max (length prev_lines) (length new_lines))
    (local_unmerged (detect_changes g_user_id now_ns now_time prev_lines new_lines st)).
Proof.
  intros Hst. unfold detect_changes. lazy zeta.
  set (st0 := mkDetect _ false (local_ops st) (local_unmerged st) (last_local_op_ns st)
                (ticks st)).
  assert (H0 : replays 0 (local_unmerged st0)).
  { subst st0. cbn [local_unmerged]. rewrite Hst.
    repeat split; try constructor. intros i Hi. lia. }
  set (common := Nat.min (length prev_lines) (length new_lines)).
  pose proof (replays_fold (changed_line g_user_id now_ns prev_lines new_lines)
                common 0 st0) as H1.
  cbn [Nat.add] in H1. specialize (H1 (fun s j Hj => changed_step s j (proj2 Hj)) H0).
  set (st1 := foldl (changed_line g_user_id now_ns prev_lines new_lines) st0
                (seq 0 common)) in *.
  destruct (le_lt_dec (length prev_lines) (length new_lines)) as [Hle|Hlt].
  - replace (length prev_lines - length new_lines) with 0 by lia. cbn [seq foldl].
    replace (Nat.max (length prev_lines) (length new_lines))
      with (length prev_lines + (length new_lines - length prev_lines)) by lia.
    apply replays_fold.
    + intros s j Hj. apply added_step. lia.
    + replace (length prev_lines) with common by (subst common; lia). exact H1.
  - replace (length new_lines - length prev_lines) with 0 by lia. cbn [seq foldl].
    replace (Nat.max (length prev_lines) (length new_lines))
      with (length new_lines + (length prev_lines - length new_lines)) by lia.
    apply replays_fold.
    + intros s j Hj. apply removed_step. lia.
    + replace (length new_lines) with common by (subst common; lia). exact H1.
Qed.

End Cycle.

(** X27. One cycle of a peer that works alone: the operations change
    detection buffers for an edit of the file, replayed by the merge on the
    document as it was before the edit, give the edited document back, up
    to empty lines at the end (which the write-back trims).  This holds
    for an edit of any number of lines, provided no changed line is
    changed by inserting text before its end without removing any (such an
    insertion loses a character), and no removed text is the tombstone
    marker (such an operation is dropped). *)
Theorem detected_edit_replays (g_user_id : string) (now_ns : nat -> N) (now_time : string)
    (prev_lines new_lines : list string) (st : detect_state) (self_uid : string) :
  local_unmerged st = [] ->
  (Z.of_nat (length prev_lines) < 2 ^ 31)%Z ->
  (Z.of_nat (length new_lines) < 2 ^ 31)%Z ->
  (forall i oldL newL lc c,
     prev_lines !! i = Some oldL -> new_lines !! i = Some newL ->
     diff_line i oldL newL lc = Some c ->
     (Change.old_text c <> "" \/ Change.col_start c = Str.size oldL) /\
     Change.old_text c <> MERGED) ->
  (forall i l, length new_lines <= i -> prev_lines !! i = Some l -> l <> MERGED) ->
  let st' := detect_changes g_user_id now_ns now_time prev_lines new_lines st in
  let r := do_merge_apply prev_lines (local_unmerged st') [] self_uid in
  forall i, default "" (lines_out r !! i) = default "" (new_lines !! i).
Proof.
  intros Hst Hp Hn Hplain Hgone st' r i.
  destruct (detect_replays g_user_id now_ns prev_lines new_lines Hp Hn Hplain Hgone
              now_time st Hst) as (H1 & H2 & H3 & H4).
  fold st' in H1, H2, H3, H4.
  change (line_at (lines_out r) i = line_at new_lines i).
  subst r. rewrite (merge_one_per_line prev_lines _ self_uid i H3 H2).
  destruct (decide (i < Nat.max (length prev_lines) (length new_lines))) as [Hlt|Hge].
  - now apply H4.
  - unfold replayed. rewrite op_on_below.
    + unfold line_at. rewrite !(proj2 (lookup_ge_None _ i)) by lia. reflexivity.
    + eapply Forall_impl; [exact H1|]. cbn. intros; lia.
Qed.

Lemma detected_edit_replays_witness :
  let prev_lines := ["int x = 10;"; "int y = 20;"; "return x;"] in
  let new_lines := ["int x = 25;"; "int y = 20;"] in
  let st' := detect_changes "user_1" N.of_nat "12:00:00" prev_lines new_lines idle in
  let r := do_merge_apply prev_lines (local_unmerged st') [] "user_1" in
  lines_out r = ["int x = 25;"; "int y = 20;"; ""] /\
  forall i, default "" (lines_out r !! i) = default "" (new_lines !! i).
Proof.
  intros prev_lines new_lines st' r. split; [reflexivity|].
  apply (detected_edit_replays "user_1" N.of_nat "12:00:00" prev_lines new_lines idle
           "user_1").
  - reflexivity.
  - vm_compute. reflexivity.
  - vm_compute. reflexivity.
  - intros i oldL newL lc c Ho Hn Hd.
    destruct i as [|[|i]].
    + injection Ho as <-. injection Hn as <-. vm_compute in Hd. injection Hd as <-.
      split; [left|]; discriminate.
    + injection Ho as <-. injection Hn as <-. vm_compute in Hd. discriminate.
    + destruct i; discriminate Hn.
  - intros i l Hi Hl. destruct i as [|[|[|i]]]; cbn in Hi; try lia.
    + injection Hl as <-. discriminate.
    + discriminate Hl.
Defined.

End EditCycleFacts.

(** ** editor.cpp: the two buffers change detection fills *)

Module BufferFacts.
Import Str StrFacts StrAlgebra Editor DetectFacts DiffFacts.

Section Buffers.
Variables (g_user_id : string) (now_ns : nat -> N).

(** A message of the broadcast buffer and a record of the merge buffer
    made of the same change, with two successive readings of the clock. *)
Definition paired (m : UpdateMessage.t) (u : UpdateExt.t) : Prop :=
  exists c t,
    m = to_message g_user_id (now_ns t) c /\
    u = change_to_ext g_user_id (now_ns (S t)) c /\
    Change.old_text c <> Change.new_text c.

(** [st] is [st0] with some changes buffered. *)
Definition grown (st0 st : detect_state) : Prop :=
  exists ms us,
    local_ops st = local_ops st0 ++ ms /\
    local_unmerged st = local_unmerged st0 ++ us /\
    Forall2 paired ms us /\
    ticks st = ticks st0 + 3 * length ms /\
    has_changes st = has_changes st0 || negb (Nat.eqb (length ms) 0).

Lemma grown_refl st : grown st st.
Proof.
  exists [], []. rewrite !app_nil_r. cbn. rewrite orb_false_r.
  repeat split; try lia. constructor.
Qed.

Lemma grown_buffer st0 st c :
  grown st0 st -> Change.old_text c <> Change.new_text c ->
  grown st0 (buffer_op g_user_id now_ns c st).
Proof.
  intros (ms & us & H1 & H2 & H3 & H4 & H5) Hc.
  exists (ms ++ [to_message g_user_id (now_ns (ticks st)) c]),
         (us ++ [change_to_ext g_user_id (now_ns (S (ticks st))) c]).
  cbn [buffer_op local_ops local_unmerged ticks has_changes].
  rewrite H1, H2, !app_assoc, length_app. cbn [length].
  repeat split; try lia.
  - apply Forall2_app; [exact H3|]. constructor; [|constructor].
    exists c, (ticks st). auto.
  - replace (Nat.eqb (length ms + 1) 0) with false by (symmetry; apply Nat.eqb_neq; lia).
    cbn. now rewrite orb_true_r.
Qed.

Lemma grown_changed st0 st prev_lines new_lines i :
  grown st0 st -> grown st0 (changed_line g_user_id now_ns prev_lines new_lines st i).
Proof.
  intros H. unfold changed_line.
  destruct (prev_lines !! i) as [oldL|]; [|exact H].
  destruct (new_lines !! i) as [newL|]; [|exact H].
  destruct (diff_line i oldL newL (last_change st)) as [c|] eqn:E; [|exact H].
  apply grown_buffer; [exact H|].
  now destruct (diff_line_shape _ _ _ _ _ E) as (_ & _ & _ & _ & _ & _ & _ & Hne & _).
Qed.

Lemma grown_added st0 st new_lines i :
  grown st0 st -> grown st0 (added_line g_user_id now_ns new_lines st i).
Proof.
  intros H. unfold added_line.
  destruct (new_lines !! i) as [l|]; [|exact H].
  destruct (Str.empty l) eqn:E; [exact H|].
  apply grown_buffer; [exact H|]. cbn. intros <-. discriminate.
Qed.

Lemma grown_removed st0 st prev_lines i :
  grown st0 st -> grown st0 (removed_line g_user_id now_ns prev_lines st i).
Proof.
  intros H. unfold removed_line.
  destruct (prev_lines !! i) as [l|]; [|exact H].
  destruct (Str.empty l) eqn:E; [exact H|].
  apply grown_buffer; [exact H|]. cbn. intros ->. discriminate.
Qed.

Lemma grown_fold (f : detect_state -> nat -> detect_state) st0 :
  (forall s i, grown st0 s -> grown st0 (f s i)) ->
  forall idx st, grown st0 st -> grown st0 (foldl f st idx).
Proof.
  intros Hf. induction idx as [|i idx IH]; intros st H; cbn [foldl]; [exact H|].
  apply IH. now apply Hf.
Qed.

Lemma foldl_fixed {A B} (f : A -> B -> A) (l : list B) (a : A) :
  (forall b, In b l -> f a b = a) -> foldl f a l = a.
Proof.
  induction l as [|b l IH]; intros H; cbn [foldl]; [reflexivity|].
  rewrite (H b) by now left. apply IH. intros b' Hb'. apply H. now right.
Qed.

(** A file that was touched but not changed makes no operation. *)
Lemma detect_same now_time lines st :
  detect_changes g_user_id now_ns now_time lines lines st
  = mkDetect (Change.mk (-1) (-1) (-1) "" "" now_time g_user_id "none") false
      (local_ops st) (local_unmerged st) (last_local_op_ns st) (ticks st).
Proof.
  unfold detect_changes. lazy zeta. rewrite Nat.sub_diag. cbn [seq foldl].
  apply foldl_fixed. intros i Hi. unfold changed_line.
  destruct (lines !! i) as [l|]; [|reflexivity].
  unfold diff_line. now rewrite String.eqb_refl.
Qed.

End Buffers.

(** X28. The two buffers are filled in step: one pass of change detection
    appends the same number of entries to the broadcast buffer and to the
    merge buffer; the entries at the same position are made of the same
    change, whose old and new text differ, the merge record with the clock
    reading that follows the one of the message; the clock is read three
    times for each change; [has_changes] tells whether anything was
    appended; and a file whose content did not change appends nothing. *)
Theorem buffers_in_step (g_user_id : string) (now_ns : nat -> N) (now_time : string)
    (prev_lines new_lines : list string) (st : detect_state) :
  let st' := detect_changes g_user_id now_ns now_time prev_lines new_lines st in
  exists ms us,
    local_ops st' = local_ops st ++ ms /\
    local_unmerged st' = local_unmerged st ++ us /\
    Forall2 (fun m u => exists c t,
               m = to_message g_user_id (now_ns t) c /\
               u = change_to_ext g_user_id (now_ns (S t)) c /\
               Change.old_text c <> Change.new_text c) ms us /\
    ticks st' = ticks st + 3 * length ms /\
    has_changes st' = negb (Nat.eqb (length ms) 0) /\
    (prev_lines = new_lines -> ms = [] /\ us = []).
Proof.
  intros st'.
  set (st0 := mkDetect (Change.mk (-1) (-1) (-1) "" "" now_time g_user_id "none") false
                (local_ops st) (local_unmerged st) (last_local_op_ns st) (ticks st)).
  assert (H : grown g_user_id now_ns st0 st').
  { subst st'. unfold detect_changes. lazy zeta. fold st0.
    apply grown_fold; [intros; now apply grown_removed|].
    apply grown_fold; [intros; now apply grown_added|].
    apply grown_fold; [intros; now apply grown_changed|].
    apply grown_refl. }
  destruct H as (ms & us & H1 & H2 & H3 & H4 & H5).
  exists ms, us.
  split; [exact H1|]. split; [exact H2|]. split; [exact H3|]. split; [exact H4|].
  split; [exact H5|].
  intros ->. subst st'. rewrite detect_same in H1, H2.
  cbn [local_ops local_unmerged] in H1, H2. split.
  - rewrite <- (app_nil_r (local_ops st)) in H1 at 1.
    apply app_inv_head in H1. now symmetry.
  - rewrite <- (app_nil_r (local_unmerged st)) in H2 at 1.
    apply app_inv_head in H2. now symmetry.
Qed.

End BufferFacts.

(** ** editor.cpp: the merge pass and the broadcast *)

Module MergePassFacts.
Import Crdt DocFile Editor MergePass DocFileFacts.




End MergePassFacts.

Module BroadcastFacts.
Import Registry Broadcast.

Section Sent.
Variables (g_user_id : string) (opens accepts : nat -> bool).

(** A peer the broadcast addresses: not the local user, by the comparison
    of the first 32 bytes, and with a queue name. *)
Definition addressed (u : UserEntry) : bool :=
  negb (Str.strncmp_eq (user_id u) g_user_id USER_ID_MAX)
  && negb (Str.empty (Str.c_str (queue_name u))).

(** Nothing reaches a queue but buffered operations, and only queues of
    addressed peers. *)
Definition sound (users : list UserEntry) (ops : list UpdateMessage.t) (w0 w : wire)
    : Prop :=
  forall q m, In (q, m) (delivered w) ->
    In (q, m) (delivered w0) \/
    (In m ops /\ exists u, In u users /\ addressed u = true /\
                   q = Str.c_str (queue_name u)).

Lemma send_ops_sound users u all ops count w0 w :
  In u users -> addressed u = true -> (forall m, In m ops -> In m all) ->
  sound users all w0 w ->
  sound users all w0 (send_ops accepts u ops count w).
Proof.
  intros Hu Ha. revert count w. induction ops as [|op ops IH]; intros count w Hin Hs;
    cbn [send_ops]; [exact Hs|].
  destruct (Nat.leb N_BROADCAST count); [exact Hs|].
  destruct (accepts (sends w)).
  - apply IH; [intros m Hm; apply Hin; now right|].
    intros q m Hqm. cbn [delivered] in Hqm. apply in_app_or in Hqm as [Hqm|[Hqm|[]]].
    + now apply Hs.
    + injection Hqm as <- <-. right. split; [apply Hin; now left|]. eauto.
  - apply IH; [intros m Hm; apply Hin; now right|].
    intros q m Hqm. now apply Hs.
Qed.

Lemma send_ops_count u ops count w :
  count <= N_BROADCAST ->
  length (delivered (send_ops accepts u ops count w)) + count
  <= length (delivered w) + N_BROADCAST.
Proof.
  revert count w. induction ops as [|op ops IH]; intros count w Hc; cbn [send_ops]; [lia|].
  destruct (Nat.leb_spec N_BROADCAST count) as [H|H]; [lia|].
  destruct (accepts (sends w)).
  - specialize (IH (S count) (mkWire (opened w) (S (sends w))
                 (delivered w ++ [(Str.c_str (queue_name u), op)])
                 ((g_sent_total w + 1) mod 2 ^ 64)%N
                 (Str.snprintf USER_ID_MAX (user_id u))) ltac:(lia)).
    cbn [delivered] in IH. rewrite length_app in IH. cbn [length] in IH. lia.
  - specialize (IH count (mkWire (opened w) (S (sends w)) (delivered w) (g_sent_total w)
                 (g_last_target w)) Hc).
    cbn [delivered] in IH. lia.
Qed.

Lemma send_to_sound users all w0 w u :
  In u users -> sound users all w0 w ->
  sound users all w0 (send_to g_user_id opens accepts all w u).
Proof.
  intros Hu Hs. unfold send_to.
  destruct (Str.strncmp_eq (user_id u) g_user_id USER_ID_MAX) eqn:E1; [exact Hs|].
  destruct (Str.empty (Str.c_str (queue_name u))) eqn:E2; [exact Hs|].
  destruct (opens (opened w)); [|exact Hs].
  apply send_ops_sound; auto.
  unfold addressed. now rewrite E1, E2.
Qed.

Lemma send_to_count all w u :
  length (delivered (send_to g_user_id opens accepts all w u))
  <= length (delivered w) + N_BROADCAST.
Proof.
  unfold send_to.
  destruct (Str.strncmp_eq (user_id u) g_user_id USER_ID_MAX); [lia|].
  destruct (Str.empty (Str.c_str (queue_name u))); [lia|].
  destruct (opens (opened w)); [|cbn [delivered]; lia].
  pose proof (send_ops_count u all 0
                (mkWire (S (opened w)) (sends w) (delivered w) (g_sent_total w)
                   (g_last_target w)) ltac:(unfold N_BROADCAST; lia)) as H.
  cbn [delivered] in H. lia.
Qed.

Lemma peers_sound users all w0 us w :
  (forall u, In u us -> In u users) -> sound users all w0 w ->
  sound users all w0 (foldl (send_to g_user_id opens accepts all) w us) /\
  length (delivered (foldl (send_to g_user_id opens accepts all) w us))
  <= length (delivered w) + N_BROADCAST * length us.
Proof.
  revert w. induction us as [|u us IH]; intros w Hin Hs; cbn [foldl length].
  - split; [exact Hs|lia].
  - destruct (IH (send_to g_user_id opens accepts all w u)) as [H1 H2].
    + intros u' Hu'. apply Hin. now right.
    + apply send_to_sound; [apply Hin; now left|exact Hs].
    + split; [exact H1|].
      pose proof (send_to_count all w u). lia.
Qed.

(** What one listed peer gets: at most five of the buffered operations,
    in their order, and nothing if it is not addressed. *)
Definition batch_ok (all : list UpdateMessage.t) (u : UserEntry)
    (ms : list UpdateMessage.t) : Prop :=
  length ms <= N_BROADCAST /\ sublist ms all /\ (addressed u = false -> ms = []).

Definition to_queue (u : UserEntry) (ms : list UpdateMessage.t)
    : list (string * UpdateMessage.t) :=
  map (pair (Str.c_str (queue_name u))) ms.

Lemma send_ops_batch u ops count w :
  count <= N_BROADCAST ->
  exists ms,
    delivered (send_ops accepts u ops count w) = delivered w ++ to_queue u ms /\
    sublist ms ops /\ length ms + count <= N_BROADCAST.
Proof.
  revert count w. induction ops as [|op ops IH]; intros count w Hc; cbn [send_ops].
  - exists []. cbn. rewrite app_nil_r.
    split; [reflexivity|]. split; [constructor|lia].
  - destruct (Nat.leb_spec N_BROADCAST count) as [H|H].
    + exists []. cbn. rewrite app_nil_r.
      split; [reflexivity|]. split; [apply sublist_nil_l|lia].
    + destruct (accepts (sends w)).
      * destruct (IH (S count) (mkWire (opened w) (S (sends w))
                     (delivered w ++ [(Str.c_str (queue_name u), op)])
                     ((g_sent_total w + 1) mod 2 ^ 64)%N
                     (Str.snprintf USER_ID_MAX (user_id u))) ltac:(lia))
          as (ms & H1 & H2 & H3).
        exists (op :: ms). rewrite H1. cbn [delivered to_queue map length].
        rewrite <- app_assoc.
        split; [reflexivity|]. split; [now apply sublist_skip|lia].
      * destruct (IH count (mkWire (opened w) (S (sends w)) (delivered w)
                     (g_sent_total w) (g_last_target w)) Hc) as (ms & H1 & H2 & H3).
        exists ms. rewrite H1.
        split; [reflexivity|]. split; [now apply sublist_cons|lia].
Qed.

Lemma batch_none all u : batch_ok all u [].
Proof.
  unfold batch_ok. split; [cbn; lia|]. split; [apply sublist_nil_l|reflexivity].
Qed.

Lemma send_to_batch all w u :
  exists ms,
    delivered (send_to g_user_id opens accepts all w u) = delivered w ++ to_queue u ms /\
    batch_ok all u ms.
Proof.
  unfold send_to.
  destruct (Str.strncmp_eq (user_id u) g_user_id USER_ID_MAX) eqn:E1.
  { exists []. cbn. rewrite app_nil_r. split; [reflexivity|apply batch_none]. }
  destruct (Str.empty (Str.c_str (queue_name u))) eqn:E2.
  { exists []. cbn. rewrite app_nil_r. split; [reflexivity|apply batch_none]. }
  destruct (opens (opened w)).
  - destruct (send_ops_batch u all 0
                (mkWire (S (opened w)) (sends w) (delivered w) (g_sent_total w)
                   (g_last_target w)) ltac:(unfold N_BROADCAST; lia))
      as (ms & H1 & H2 & H3).
    exists ms. rewrite H1. cbn [delivered]. split; [reflexivity|].
    unfold batch_ok, addressed. rewrite E1, E2. cbn [negb andb].
    split; [lia|]. split; [exact H2|discriminate].
  - exists []. cbn. rewrite app_nil_r. split; [reflexivity|apply batch_none].
Qed.

Lemma peers_batches all us w :
  exists batches,
    Forall2 (batch_ok all) us batches /\
    delivered (foldl (send_to g_user_id opens accepts all) w us)
    = delivered w ++ concat (zip_with to_queue us batches).
Proof.
  revert w. induction us as [|u us IH]; intros w; cbn [foldl].
  - exists []. split; [constructor|]. cbn. now rewrite app_nil_r.
  - destruct (send_to_batch all w u) as (ms & H1 & H2).
    destruct (IH (send_to g_user_id opens accepts all w u)) as (batches & H3 & H4).
    exists (ms :: batches). split; [now constructor|].
    rewrite H4, H1. cbn [zip_with concat]. now rewrite <- app_assoc.
Qed.

Lemma no_batches all us :
  Forall2 (batch_ok all) us (map (fun _ => []) us) /\
  concat (zip_with to_queue us (map (fun _ => []) us)) = [].
Proof.
  induction us as [|u us [IH1 IH2]]; cbn [map zip_with concat].
  - split; [constructor|reflexivity].
  - split; [|exact IH2]. constructor; [apply batch_none|exact IH1].
Qed.

(** When no call fails, a peer gets the first five operations. *)
Lemma send_ops_all u ops count w :
  (forall n, accepts n = true) -> count <= N_BROADCAST ->
  delivered (send_ops accepts u ops count w)
  = delivered w ++ map (pair (Str.c_str (queue_name u))) (take (N_BROADCAST - count) ops).
Proof.
  intros Hacc. revert count w. induction ops as [|op ops IH]; intros count w Hc;
    cbn [send_ops].
  - rewrite take_nil. cbn [map]. now rewrite app_nil_r.
  - destruct (Nat.leb_spec N_BROADCAST count) as [H|H].
    + replace (N_BROADCAST - count) with 0 by lia. cbn [take map]. now rewrite app_nil_r.
    + rewrite Hacc, IH by lia. cbn [delivered].
      replace (N_BROADCAST - count) with (S (N_BROADCAST - S count)) by lia.
      cbn [take map]. now rewrite <- app_assoc.
Qed.

Lemma peers_all all us w :
  (forall n, accepts n = true) -> (forall n, opens n = true) ->
  delivered (foldl (send_to g_user_id opens accepts all) w us)
  = delivered w
    ++ flat_map (fun u => map (pair (Str.c_str (queue_name u))) (take N_BROADCAST all))
         (List.filter addressed us).
Proof.
  intros Hacc Hop. revert w. induction us as [|u us IH]; intros w; cbn [foldl List.filter].
  - cbn [flat_map]. now rewrite app_nil_r.
  - rewrite IH. unfold send_to. unfold addressed at 2.
    destruct (Str.strncmp_eq (user_id u) g_user_id USER_ID_MAX); cbn [negb andb];
      [reflexivity|].
    destruct (Str.empty (Str.c_str (queue_name u))); cbn [negb]; [reflexivity|].
    rewrite Hop, send_ops_all by (auto; unfold N_BROADCAST; lia).
    cbn [delivered flat_map]. rewrite Nat.sub_0_r. now rewrite <- app_assoc.
Qed.

End Sent.

(** X30. The broadcast of the main loop.  With fewer than five buffered
    operations nothing is sent and the buffer is kept.  Otherwise the
    first five operations leave the buffer, whatever happened to them.
    What is sent is, for each listed peer in the order of the list, a batch
    of at most five of the buffered operations, in their order, to the
    queue of that peer; the batch is empty for a peer that is the local
    user (by the comparison of 32 bytes) or has no queue name.  When no
    [mq_open] and no [mq_send] fails, every other peer gets exactly the five
    operations that leave the buffer, in their order. *)
Theorem broadcast_spec (g_user_id : string) (opens accepts : nat -> bool)
    (seg : RegistrySegment) (local_ops : list UpdateMessage.t) (w : wire) :
  let users := fst (RegistryOps.registry_list seg) in
  let rest := fst (broadcast g_user_id opens accepts seg local_ops w) in
  let w' := snd (broadcast g_user_id opens accepts seg local_ops w) in
  (length local_ops < N_BROADCAST -> rest = local_ops /\ w' = w) /\
  (N_BROADCAST <= length local_ops -> rest = drop N_BROADCAST local_ops) /\
  (forall q m, In (q, m) (delivered w') ->
     In (q, m) (delivered w) \/
     (In m local_ops /\
      exists u, In u users /\ addressed g_user_id u = true /\
                q = Str.c_str (queue_name u))) /\
  length (delivered w') <= length (delivered w) + N_BROADCAST * length users /\
  (exists batches : list (list UpdateMessage.t),
     Forall2 (fun u ms =>
                length ms <= N_BROADCAST /\ sublist ms local_ops /\
                (addressed g_user_id u = false -> ms = [])) users batches /\
     delivered w'
     = delivered w
       ++ concat (zip_with (fun u ms => map (pair (Str.c_str (queue_name u))) ms)
                    users batches)) /\
  (N_BROADCAST <= length local_ops ->
   (forall n, accepts n = true) -> (forall n, opens n = true) ->
   delivered w'
   = delivered w
     ++ flat_map (fun u => map (pair (Str.c_str (queue_name u)))
                             (take N_BROADCAST local_ops))
          (List.filter (addressed g_user_id) users)).
Proof.
  intros users rest w'. subst rest w'. unfold broadcast. fold users.
  destruct (Nat.leb_spec N_BROADCAST (length local_ops)) as [Hge|Hlt]; cbn [fst snd].
  - destruct (peers_sound g_user_id opens accepts users local_ops w users w) as [Hs Hc].
    { auto. }
    { intros q m Hqm. now left. }
    split; [lia|]. split.
    { intros _. destruct (Nat.ltb_spec N_BROADCAST (length local_ops)) as [H|H];
        [reflexivity|].
      rewrite drop_ge by lia. reflexivity. }
    split; [exact Hs|]. split; [exact Hc|]. split.
    { destruct (peers_batches g_user_id opens accepts local_ops users w)
        as (batches & H1 & H2).
      exists batches. split; [exact H1|exact H2]. }
    intros _ Hacc Hop. now apply peers_all.
  - split; [auto|]. split; [lia|]. split; [auto|]. split; [lia|]. split; [|lia].
    exists (map (fun _ => []) users).
    destruct (no_batches g_user_id local_ops users) as [H1 H2].
    split; [exact H1|].
    change (concat (zip_with (to_queue) users (map (fun _ => []) users)) = []) in H2.
    unfold to_queue in H2. rewrite H2. now rewrite app_nil_r.
Qed.

(** A refused send is not repeated, and shifts the five that are sent: with
    six operations buffered and the second send refused, the peer gets the
    operations 1, 3, 4, 5 and 6; the first five leave the buffer, so the
    second is lost and the sixth will be sent again. *)
Example refused_send :
  let op n := UpdateMessage.mk "user_1" n 0 0 0 Replace "a" "b" in
  let ops := [op 1; op 2; op 3; op 4; op 5; op 6]%N in
  let seg := mkRegistrySegment 1398364244 1
               [mkUserEntry 1 "user_1" "/queue_user_1";
                mkUserEntry 1 "user_2" "/queue_user_2";
                mkUserEntry 0 "" ""; mkUserEntry 0 "" ""; mkUserEntry 0 "" ""] in
  let r := broadcast "user_1" (fun _ => true) (fun n => negb (Nat.eqb n 1)) seg ops
             (mkWire 0 0 [] 0 "") in
  fst r = [op 6%N] /\
  delivered (snd r)
  = map (pair "/queue_user_2") [op 1; op 3; op 4; op 5; op 6]%N.
Proof. vm_compute. split; reflexivity. Qed.

End BroadcastFacts.
